(** * InvoiceMaster: the string-to-regex pattern synthesizer

    A shallow embedding of [src/convert_regex.py] (class [RegexConverter]
    and the standalone [main]) together with the properties its
    specification states about it.

    Python strings are sequences of Unicode code points.  A character is
    modelled as its code point ([N]) and a string as a list of them.  The
    classifiers [str.isspace], [str.isalpha] and [str.isdigit] come from the
    interpreter's Unicode database, which is not part of the repository: the
    development is parametric in them (class [Unicode]) and only fixes their
    values on the Latin-1 block and the disjointness of the three classes. *)

From Stdlib Require Import String Ascii Decimal.
From Stdlib Require Import List NArith Arith Bool Lia.
From Stdlib Require DecimalNat DecimalFacts.
From Equations Require Import Equations.
Import ListNotations.

(** ** Characters and strings *)

Definition char := N.
Definition str := list char.

(** A string literal of the development, read as its code points (ASCII). *)
Definition lit (s : string) : str := map N_of_ascii (list_ascii_of_string s).
Arguments lit s%_string.

Definition quote : char := 34%N.
Definition backslash : char := 92%N.
Definition caret : char := 94%N.
Definition dollar : char := 36%N.
Definition lbrace : char := 123%N.
Definition rbrace : char := 125%N.
Definition newline : char := 10%N.

(** [c in s] for a one-character [c]. *)
Definition contains (s : str) (c : char) : bool := existsb (N.eqb c) s.

(** [str(n)] for a non-negative integer: its decimal digits. *)
Fixpoint uint_chars (d : Decimal.uint) : str :=
  match d with
  | Nil => []
  | D0 d => 48%N :: uint_chars d
  | D1 d => 49%N :: uint_chars d
  | D2 d => 50%N :: uint_chars d
  | D3 d => 51%N :: uint_chars d
  | D4 d => 52%N :: uint_chars d
  | D5 d => 53%N :: uint_chars d
  | D6 d => 54%N :: uint_chars d
  | D7 d => 55%N :: uint_chars d
  | D8 d => 56%N :: uint_chars d
  | D9 d => 57%N :: uint_chars d
  end.

Definition str_of_int (n : nat) : str := uint_chars (Nat.to_uint n).

(** ** The Unicode classifiers *)

Definition between (lo hi c : char) : bool := (N.leb lo c && N.leb c hi)%bool.
Arguments between (lo hi c)%_N.

Definition latin1_isspace (c : char) : bool :=
  (between 9 13 c || between 28 32 c || N.eqb c 133%N || N.eqb c 160%N)%bool.

Definition latin1_isalpha (c : char) : bool :=
  (between 65 90 c || between 97 122 c || N.eqb c 170%N || N.eqb c 181%N
   || N.eqb c 186%N || between 192 214 c || between 216 246 c
   || between 248 255 c)%bool.

Definition latin1_isdigit (c : char) : bool :=
  (between 48 57 c || N.eqb c 178%N || N.eqb c 179%N || N.eqb c 185%N)%bool.

Definition latin1_isdecimal (c : char) : bool := between 48 57 c.

(** The interpreter's classifiers.  [isdecimal] is what the regex engine's
    digit class uses; [isdigit] (a superset) is what the scanner calls. *)
Class Unicode : Type := {
  isspace : char -> bool;
  isalpha : char -> bool;
  isdigit : char -> bool;
  isdecimal : char -> bool;
  isspace_latin1 : forall c, (c < 256)%N -> isspace c = latin1_isspace c;
  isalpha_latin1 : forall c, (c < 256)%N -> isalpha c = latin1_isalpha c;
  isdigit_latin1 : forall c, (c < 256)%N -> isdigit c = latin1_isdigit c;
  isdecimal_latin1 : forall c, (c < 256)%N -> isdecimal c = latin1_isdecimal c;
  space_not_alpha : forall c, isspace c = true -> isalpha c = false;
  space_not_digit : forall c, isspace c = true -> isdigit c = false;
  alpha_not_digit : forall c, isalpha c = true -> isdigit c = false
}.

(** ** Outcomes of a call: a value, an exception, or an exhausted budget *)

Inductive exn : Type :=
| IndexError
| TypeError
| AttributeError
| EOFError.

Inductive result (A : Type) : Type :=
| Ok (a : A)
| Raise (e : exn)
| OutOfFuel.
Arguments Ok {A} a.
Arguments Raise {A} e.
Arguments OutOfFuel {A}.

Definition bind {A B : Type} (m : result A) (k : A -> result B) : result B :=
  match m with
  | Ok a => k a
  | Raise e => Raise e
  | OutOfFuel => OutOfFuel
  end.

Declare Scope result_scope.
Delimit Scope result_scope with result.
Notation "x <- m ;; k" := (bind m (fun x => k))
  (at level 61, m at next level, right associativity) : result_scope.
Open Scope result_scope.

(** [while cond: body], with a budget of iterations. *)
Fixpoint while {S : Type} (cond : S -> result bool) (body : S -> result S)
    (fuel : nat) (st : S) : result S :=
  b <- cond st ;;
  if b then
    match fuel with
    | 0 => OutOfFuel
    | Datatypes.S fuel' => st' <- body st ;; while cond body fuel' st'
    end
  else Ok st.

(** [s[i]] *)
Definition getitem (s : str) (i : nat) : result char :=
  match nth_error s i with
  | Some c => Ok c
  | None => Raise IndexError
  end.

(** [l[i]] on a list of strings, as in [sys.argv[1]]. *)
Definition nth_error_or_raise (l : list str) (i : nat) : result str :=
  match nth_error l i with
  | Some x => Ok x
  | None => Raise IndexError
  end.

(** ** RegexConverter *)

Module RegexConverter.

(** [self.regex_special_chars], the raw string literal of [__init__]: its
    last two characters are both backslashes. *)
Definition regex_special_chars : str :=
  [46; 94; 36; 42; 43; 63; 40; 41; 91; 93; 123; 125; 124; 92; 92]%N.

(** The comprehension [f"\\{c}" if c in self.regex_special_chars else c]
    joined over a string. *)
Definition escape_char (c : char) : str :=
  if contains regex_special_chars c then [backslash; c] else [c].

Definition join_escaped (s : str) : str := concat (map escape_char s).

(** The three class tokens, bare or with an explicit repetition count. *)
Definition space_token (n : nat) : str :=
  if 1 <? n then lit "\s{" ++ str_of_int n ++ lit "}" else lit "\s".

Definition letter_token (n : nat) : str :=
  if 1 <? n then lit "[a-zA-Z]{" ++ str_of_int n ++ lit "}" else lit "[a-zA-Z]".

Definition digit_token (n : nat) : str :=
  if 1 <? n then lit "\d{" ++ str_of_int n ++ lit "}" else lit "\d".

(** The local variables of the generic-mode scan. *)
Record scan : Type := {
  i : nat;
  in_quotes : bool;
  quote_buffer : str;
  parts : list str
}.

Section Scanner.
Context {U : Unicode}.

(** The inner counting loops: [count = 1; j = i + 1;
    while j < len(s) and p(s[j]): count += 1; j += 1]. *)
Definition count_run (p : char -> bool) (s : str) (i0 : nat) : result nat :=
  cj <- while
          (fun cj : nat * nat =>
             if snd cj <? length s then c <- getitem s (snd cj) ;; Ok (p c)
             else Ok false)
          (fun cj => Ok (S (fst cj), S (snd cj)))
          (length s) (1, i0 + 1) ;;
  Ok (fst cj).

(** One iteration of the main [while i < len(input_string)] loop. *)
Definition loop_body (s : str) (st : scan) : result scan :=
  c <- getitem s (i st) ;;
  if N.eqb c quote then
    if in_quotes st then
      Ok {| i := i st + 1; in_quotes := false; quote_buffer := [];
            parts := parts st ++ [join_escaped (quote_buffer st)] |}
    else
      Ok {| i := i st + 1; in_quotes := true;
            quote_buffer := quote_buffer st; parts := parts st |}
  else if in_quotes st then
    Ok {| i := i st + 1; in_quotes := true;
          quote_buffer := quote_buffer st ++ [c]; parts := parts st |}
  else if isspace c then
    space_count <- count_run isspace s (i st) ;;
    Ok {| i := i st + space_count; in_quotes := false;
          quote_buffer := quote_buffer st;
          parts := parts st ++ [space_token space_count] |}
  else if isalpha c then
    letter_count <- count_run isalpha s (i st) ;;
    Ok {| i := i st + (if 1 <? letter_count then letter_count else 1);
          in_quotes := false; quote_buffer := quote_buffer st;
          parts := parts st ++ [letter_token letter_count] |}
  else if isdigit c then
    digit_count <- count_run isdigit s (i st) ;;
    Ok {| i := i st + (if 1 <? digit_count then digit_count else 1);
          in_quotes := false; quote_buffer := quote_buffer st;
          parts := parts st ++ [digit_token digit_count] |}
  else
    Ok {| i := i st + 1; in_quotes := false; quote_buffer := quote_buffer st;
          parts := parts st ++ [escape_char c] |}.

Definition init : scan :=
  {| i := 0; in_quotes := false; quote_buffer := []; parts := [] |}.

(** The main loop, run with one unit of budget per input character. *)
Definition main_loop (s : str) (st : scan) : result scan :=
  while (fun st => Ok (i st <? length s)) (loop_body s) (length s) st.

(** The flush of an unterminated quote, after the loop. *)
Definition flush (st : scan) : list str :=
  match quote_buffer st with
  | [] => parts st
  | _ :: _ => parts st ++ [join_escaped (quote_buffer st)]
  end.

Definition string_to_regex (input_string : str)
    (generic_matching full_match : bool) : result str :=
  result_ <-
    (if negb generic_matching then Ok (join_escaped input_string)
     else st <- main_loop input_string init ;; Ok (concat (flush st))) ;;
  if full_match then Ok ([caret] ++ result_ ++ [dollar]) else Ok result_.

End Scanner.
End RegexConverter.

(** ** The regex engine, on the grammar the converter emits

    Python's [re] module is not part of the repository.  [re] models it on
    the closed grammar of emitted patterns: an optional leading [^], then
    atoms (a literal character, an escaped metacharacter, [\s], [\d] or the
    class [[a-zA-Z]]), each optionally followed by an exact count [{n}], then
    an optional trailing [$].  [compile] answers [None] outside this grammar,
    where the model says nothing.  Every atom consumes exactly one character
    and counts are exact, so matching needs no backtracking. *)

Module re.

Inductive atom : Type :=
| Lit (c : char)
| Space
| Digit
| Letter.

Record regex : Type := {
  bol : bool;
  atoms : list atom;
  eol : bool
}.

(** The engine's bound on repetition counts. *)
Definition MAXREPEAT : N := 4294967295%N.

Definition metachars : str :=
  [46; 94; 36; 42; 43; 63; 40; 41; 91; 93; 123; 125; 124; 92]%N.

Fixpoint strip_prefix (pre s : str) : option str :=
  match pre, s with
  | [], _ => Some s
  | a :: pre', b :: s' => if N.eqb a b then strip_prefix pre' s' else None
  | _ :: _, [] => None
  end.

Definition parse_atom (p : str) : option (atom * str) :=
  match p with
  | [] => None
  | c :: r =>
      if N.eqb c backslash then
        match r with
        | [] => None
        | e :: r' =>
            if N.eqb e 115%N then Some (Space, r')
            else if N.eqb e 100%N then Some (Digit, r')
            else if contains metachars e then Some (Lit e, r')
            else None
        end
      else if N.eqb c 91%N then
        match strip_prefix (lit "a-zA-Z]") r with
        | Some r' => Some (Letter, r')
        | None => None
        end
      else if contains metachars c then None
      else Some (Lit c, r)
  end.

(** The digits of a count, up to the closing brace. *)
Fixpoint parse_digits (acc : N) (seen : bool) (p : str) : option (N * str) :=
  match p with
  | [] => None
  | c :: r =>
      if N.eqb c rbrace then (if seen then Some (acc, r) else None)
      else if between 48 57 c then parse_digits (acc * 10 + (c - 48)) true r
      else None
  end.

Definition parse_repeat (p : str) : option (nat * str) :=
  match p with
  | c :: r =>
      if N.eqb c lbrace then
        match parse_digits 0 false r with
        | Some (n, r') =>
            if N.leb MAXREPEAT n then None else Some (N.to_nat n, r')
        | None => None
        end
      else Some (1, p)
  | [] => Some (1, p)
  end.

Fixpoint parse_items (fuel : nat) (p : str) : option (list atom * bool) :=
  match p with
  | [] => Some ([], false)
  | c :: r =>
      if (N.eqb c dollar && match r with [] => true | _ => false end)%bool
      then Some ([], true)
      else
        match fuel with
        | 0 => None
        | S fuel' =>
            match parse_atom p with
            | None => None
            | Some (a, p1) =>
                match parse_repeat p1 with
                | None => None
                | Some (n, p2) =>
                    match parse_items fuel' p2 with
                    | None => None
                    | Some (l, e) => Some (repeat a n ++ l, e)
                    end
                end
            end
        end
  end.

(** [re.compile(pattern)] *)
Definition compile (pattern : str) : option regex :=
  let '(b, p) :=
    match pattern with
    | c :: r => if N.eqb c caret then (true, r) else (false, pattern)
    | [] => (false, pattern)
    end in
  match parse_items (length p) p with
  | Some (l, e) => Some {| bol := b; atoms := l; eol := e |}
  | None => None
  end.

Section Matching.
Context {U : Unicode}.

Definition atom_matches (a : atom) (c : char) : bool :=
  match a with
  | Lit x => N.eqb c x
  | Space => isspace c
  | Digit => isdecimal c
  | Letter => (between 97 122 c || between 65 90 c)%bool
  end.

(** The atoms matched against a prefix of the subject: the matched text and
    what follows it. *)
Fixpoint match_here (l : list atom) (subject : str) : option (str * str) :=
  match l with
  | [] => Some ([], subject)
  | a :: l' =>
      match subject with
      | [] => None
      | c :: subject' =>
          if atom_matches a c then
            match match_here l' subject' with
            | Some (m, rest) => Some (c :: m, rest)
            | None => None
            end
          else None
      end
  end.

(** [$] holds at the end of the subject and just before a final newline. *)
Definition at_end (rest : str) : bool :=
  match rest with
  | [] => true
  | [c] => N.eqb c newline
  | _ => false
  end.

Definition match_at (r : regex) (subject : str) : option str :=
  match match_here (atoms r) subject with
  | Some (m, rest) => if (negb (eol r) || at_end rest)%bool then Some m else None
  | None => None
  end.

Fixpoint search_from (r : regex) (subject : str) : option str :=
  match match_at r subject with
  | Some m => Some m
  | None =>
      match subject with
      | [] => None
      | _ :: subject' => search_from r subject'
      end
  end.

(** [regex.search(subject)]: the text of the leftmost match, [group(0)]. *)
Definition search (r : regex) (subject : str) : option str :=
  if bol r then match_at r subject else search_from r subject.

(** [regex.fullmatch(subject)] *)
Definition fullmatch (r : regex) (subject : str) : bool :=
  match match_here (atoms r) subject with
  | Some (_, []) => true
  | _ => false
  end.

(** [re.search(pattern, subject)] and [re.fullmatch(pattern, subject)] on a
    pattern string: [None] when the pattern is outside the grammar. *)
Definition search_pattern (pattern subject : str) : option (option str) :=
  option_map (fun r => search r subject) (compile pattern).

Definition fullmatch_pattern (pattern subject : str) : option bool :=
  option_map (fun r => fullmatch r subject) (compile pattern).

End Matching.
End re.

(** ** The standalone command line ([main])

    The process is modelled by what it reads and writes: [stdin] is the list
    of lines still to be read, [stdout] the chunks written so far.  [print]
    writes its text and a newline, [input] writes its prompt and reads one
    line, raising [EOFError] when none is left. *)

Module Cli.

Record world : Type := {
  stdin : list str;
  stdout : list str
}.

Definition IO (A : Type) : Type := world -> result A * world.

Definition ret {A : Type} (a : A) : IO A := fun w => (Ok a, w).

Definition raise {A : Type} (e : exn) : IO A := fun w => (Raise e, w).

Definition lift {A : Type} (m : result A) : IO A := fun w => (m, w).

Definition bind_io {A B : Type} (m : IO A) (k : A -> IO B) : IO B :=
  fun w =>
    match m w with
    | (Ok a, w') => k a w'
    | (Raise e, w') => (Raise e, w')
    | (OutOfFuel, w') => (OutOfFuel, w')
    end.

Declare Scope io_scope.
Delimit Scope io_scope with io.
Notation "x <- m ;; k" := (bind_io m (fun x => k))
  (at level 61, m at next level, right associativity) : io_scope.
Notation "m ;; k" := (bind_io m (fun _ => k))
  (at level 61, right associativity) : io_scope.

Definition print (text : str) : IO unit :=
  fun w => (Ok tt, {| stdin := stdin w; stdout := stdout w ++ [text ++ [newline]] |}).

Definition input (prompt : str) : IO str :=
  fun w =>
    match stdin w with
    | [] => (Raise EOFError, {| stdin := []; stdout := stdout w ++ [prompt] |})
    | line :: rest => (Ok line, {| stdin := rest; stdout := stdout w ++ [prompt] |})
    end.

Definition pending_lines : IO nat := fun w => (Ok (length (stdin w)), w).

(** The arguments a call passes positionally. *)
Inductive value : Type :=
| VStr (s : str)
| VList (l : list str)
| VBool (b : bool).

(** [RegexConverter.test_regex(self)].  The method declares no parameter
    besides [self], so a call that passes positional arguments raises
    [TypeError] before the body runs; the body itself starts by reading
    [self.regex_edit], an attribute [__init__] never sets. *)
Definition test_regex (args : list value) : IO (list (str * bool * str)) :=
  match args with
  | [] => raise AttributeError
  | _ :: _ => raise TypeError
  end.

(** [input(...).lower().startswith("y")]: of all characters only [y] and [Y]
    have a lowercase form that starts with [y]. *)
Definition lower_startswith_y (answer : str) : bool :=
  match answer with
  | c :: _ => (N.eqb c 121%N || N.eqb c 89%N)%bool
  | [] => false
  end.

Open Scope io_scope.

(** [while True: test_input = input("> "); if not test_input: break;
    test_strings.append(test_input)] *)
Fixpoint read_test_strings (fuel : nat) (test_strings : list str)
    : IO (list str) :=
  test_input <- input (lit "> ") ;;
  match test_input with
  | [] => ret test_strings
  | _ :: _ =>
      match fuel with
      | 0 => lift OutOfFuel
      | S fuel' => read_test_strings fuel' (test_strings ++ [test_input])
      end
  end.

(** The [for string, matched, matched_text in ...] loop of the report. *)
Fixpoint report (results : list (str * bool * str)) : IO unit :=
  match results with
  | [] => ret tt
  | (string, matched, matched_text) :: results' =>
      (if matched : bool then
         print (string ++ lit ": MATCH (matched: '" ++ matched_text ++ lit "')")
       else print (string ++ lit ": NO MATCH")) ;;
      report results'
  end.

Section Main.
Context {U : Unicode}.

Definition main (argv : list str) : IO unit :=
  print (lit "Convert String to Regular Expression") ;;
  print (lit "===================================") ;;
  input_string <-
    (if 1 <? length argv then lift (nth_error_or_raise argv 1)
     else input (lit "Enter string to convert to regex: ")) ;;
  let generic_matching := true in
  let full_match := false in
  regex_pattern <-
    lift (RegexConverter.string_to_regex input_string generic_matching
            full_match) ;;
  print (newline :: lit "Regex Pattern:") ;;
  print regex_pattern ;;
  answer <- input (newline :: lit "Test this pattern? (y/n): ") ;;
  if lower_startswith_y answer then
    print (lit "Enter test strings (empty line to finish):") ;;
    n <- pending_lines ;;
    test_strings <- read_test_strings n [] ;;
    match test_strings with
    | [] => ret tt
    | _ :: _ =>
        print (newline :: lit "Test Results:") ;;
        results <- test_regex [VStr regex_pattern; VList test_strings;
                               VBool full_match] ;;
        report results
    end
  else ret tt.

(** The process: its output and its exit status (0 on normal completion, 1
    on an uncaught exception). *)
Definition run (argv stdin0 : list str) : list str * result unit * nat :=
  let '(r, w) := main argv {| stdin := stdin0; stdout := [] |} in
  (stdout w, r, match r with Ok _ => 0 | _ => 1 end).

End Main.
End Cli.

(** ** The scan, characterised on the unread part of the input *)

(** Length of the longest prefix whose characters all satisfy [p]. *)
Fixpoint run_length (p : char -> bool) (l : str) : nat :=
  match l with
  | [] => 0
  | c :: r => if p c then S (run_length p r) else 0
  end.

(** How a quoted span, open or closed, is emitted at the end of input. *)
Definition flush_buffer (buf : str) : list str :=
  match buf with
  | [] => []
  | _ :: _ => [RegexConverter.join_escaped buf]
  end.

Section Tokens.
Context {U : Unicode}.
Import RegexConverter.

(** The parts the main loop appends from a scan position on, given the
    unread input, the quoting flag and the quote buffer; the flush after the
    loop is included.  [main_loop_tokens] below proves that this is what the
    loop computes. *)
Equations? tokens (rest : str) (inq : bool) (buf : str) : list str
    by wf (length rest) lt :=
  tokens [] inq buf := flush_buffer buf;
  tokens (c :: r) inq buf :=
    if N.eqb c quote then
      (if inq then join_escaped buf :: tokens r false []
       else tokens r true buf)
    else if inq then tokens r true (buf ++ [c])
    else if isspace c then
      space_token (S (run_length isspace r))
        :: tokens (skipn (run_length isspace r) r) false buf
    else if isalpha c then
      letter_token (S (run_length isalpha r))
        :: tokens (skipn (run_length isalpha r) r) false buf
    else if isdigit c then
      digit_token (S (run_length isdigit r))
        :: tokens (skipn (run_length isdigit r) r) false buf
    else escape_char c :: tokens r false buf.
Proof.
  all: try (cbn; rewrite length_skipn); cbn; lia.
Qed.

End Tokens.

(** The anchors that [full_match] adds around a pattern. *)
Definition anchored (full_match : bool) (p : str) : str :=
  if full_match then [caret] ++ p ++ [dollar] else p.

(** The quoting sub-mode after reading [u], entered in sub-mode [inq]. *)
Fixpoint open_after (inq : bool) (u : str) : bool :=
  match u with
  | [] => inq
  | c :: r => open_after (if N.eqb c quote then negb inq else inq) r
  end.

Definition starts_with (p : char -> bool) (l : str) : bool :=
  match l with
  | [] => false
  | c :: _ => p c
  end.

Definition ends_with (p : char -> bool) (l : str) : bool :=
  starts_with p (rev l).

Section Seam.
Context {U : Unicode}.

(** No run of one class crosses the seam between [u] and [v]. *)
Definition no_merge (u v : str) : Prop :=
  forall p, p = isspace \/ p = isalpha \/ p = isdigit ->
    ends_with p u = true -> starts_with p v = false.

End Seam.

(** Strings whose characters all lie in the Latin-1 block. *)
Definition latin1_str (s : str) : bool := forallb (fun c => N.ltb c 256%N) s.

(** The special set, as the specification lists it. *)
Definition listed_special : str := lit ".^$*+?()[]{}|\".

(** The literal pattern: one [Lit] atom per character, no anchor. *)
Definition literal (q : str) : re.regex :=
  {| re.bol := false; re.atoms := map re.Lit q; re.eol := false |}.

(** A line that does not end the test loop. *)
Definition nonempty (s : str) : bool :=
  match s with
  | [] => false
  | _ :: _ => true
  end.

(** The class pattern made of [n] copies of one atom. *)
Definition counted (a : re.atom) (n : nat) : re.regex :=
  {| re.bol := false; re.atoms := repeat a n; re.eol := false |}.

(** A classifier cut off beyond Latin-1. *)
Definition latin1_only (f : char -> bool) (c : char) : bool :=
  if N.ltb c 256%N then f c else false.

(** ** Converting and compiling in one step *)

(** [RegexConverter.compile_pattern]: convert, then [re.compile]. *)
Definition compile_pattern {U : Unicode} (input_string : str)
    (generic_matching full_match : bool) : result (option re.regex) :=
  pattern <- RegexConverter.string_to_regex input_string generic_matching
               full_match ;;
  Ok (re.compile pattern).

(** ** The pattern editor of the regex manager dialog *)

Definition lparen : char := 40%N.
Definition rparen : char := 41%N.

Module RegexManagerDialog.

(** [re.search(r"\([^)]*\)", pattern)], as a truth value: at some position
    an opening parenthesis, then characters other than a closing one, then
    a closing one. *)
Fixpoint closes (r : str) : bool :=
  match r with
  | [] => false
  | c :: r' => N.eqb c rparen || closes r'
  end.

Definition group_at (p : str) : bool :=
  match p with
  | [] => false
  | c :: r => N.eqb c lparen && closes r
  end.

Fixpoint search_group (p : str) : bool :=
  group_at p
  || match p with
     | [] => false
     | _ :: r => search_group r
     end.

(** ["(" not in pattern or not re.search(r"\([^)]*\)", pattern)] *)
Definition lacks_group (pattern : str) : bool :=
  negb (contains pattern lparen) || negb (search_group pattern).

(** [convert_to_regex]: the text of [regex_edit] after the call, given
    the plain text, the two check boxes and the text of [regex_edit]
    before.  An exception ends in a message box and leaves the field. *)
Definition convert_to_regex {U : Unicode} (text : str)
    (generic_matching full_match : bool) (regex_edit : str) : result str :=
  match text with
  | [] => Ok regex_edit
  | _ :: _ =>
      match RegexConverter.string_to_regex text generic_matching full_match with
      | Ok pattern =>
          Ok (if lacks_group pattern then [lparen] ++ pattern ++ [rparen]
              else pattern)
      | Raise _ => Ok regex_edit
      | OutOfFuel => OutOfFuel
      end
  end.

(** [save_pattern], up to the update of the list: the text of
    [regex_edit] after the call and the pattern stored under the category,
    if any. *)
Definition save_pattern (regex_edit category : str) : str * option str :=
  match regex_edit with
  | [] => ([], None)
  | _ :: _ =>
      let pattern :=
        if lacks_group regex_edit then [lparen] ++ regex_edit ++ [rparen]
        else regex_edit in
      match category with
      | [] => (pattern, None)
      | _ :: _ => (pattern, Some pattern)
      end
  end.

End RegexManagerDialog.

(** ** File operations *)

(** The path functions of a POSIX system, as [os.path] has them there. *)
Module posixpath.

(** [s.rfind(c)], scanning from index [i] with [last] the last index found
    so far; [None] stands for -1. *)
Fixpoint rfind_from (c : char) (s : str) (i : nat) (last : option nat)
    : option nat :=
  match s with
  | [] => last
  | x :: r => rfind_from c r (S i) (if N.eqb x c then Some i else last)
  end.

Definition rfind (c : char) (s : str) : option nat := rfind_from c s 0 None.

(** [os.path.splitext(p)]: the extension starts at the last dot of the
    last component, unless only dots precede it there. *)
Definition splitext (p : str) : str * str :=
  let sepIndex := rfind 47%N p in
  match rfind 46%N p with
  | None => (p, [])
  | Some dotIndex =>
      let filenameIndex :=
        match sepIndex with None => 0 | Some k => S k end in
      if filenameIndex <=? dotIndex then
        if existsb (fun x => negb (N.eqb x 46%N))
             (firstn (dotIndex - filenameIndex) (skipn filenameIndex p))
        then (firstn dotIndex p, skipn dotIndex p)
        else (p, [])
      else (p, [])
  end.

(** [os.path.join(a, b)] *)
Definition join (a b : str) : str :=
  match b with
  | 47%N :: _ => b
  | _ =>
      match rev a with
      | [] => a ++ b
      | 47%N :: _ => a ++ b
      | _ => a ++ 47%N :: b
      end
  end.

(** [os.path.basename(p)] *)
Definition basename (p : str) : str :=
  match rfind 47%N p with
  | None => p
  | Some k => skipn (S k) p
  end.

End posixpath.

Module file_operations.

Section AutoRename.

(** The path functions of the platform and the state of the file system. *)
Variable splitext : str -> str * str.
Variable join : str -> str -> str.
Variable exists_ : str -> bool.

(** [os.path.join(folder, f"{name}_{counter}{ext}")] *)
Definition new_path (folder filename : str) (counter : nat) : str :=
  let '(name, ext) := splitext filename in
  join folder (name ++ lit "_" ++ str_of_int counter ++ ext).

(** The [while True] loop, from a value of [counter] on, with a budget of
    further rounds. *)
Fixpoint auto_rename_from (fuel : nat) (folder filename : str) (counter : nat)
    : result str :=
  if negb (exists_ (new_path folder filename counter))
  then Ok (new_path folder filename counter)
  else
    match fuel with
    | 0 => OutOfFuel
    | S fuel' => auto_rename_from fuel' folder filename (counter + 1)
    end.

Definition auto_rename (fuel : nat) (folder filename : str) : result str :=
  auto_rename_from fuel folder filename 1.

End AutoRename.

End file_operations.

(** A file system given by the list of the paths that exist. *)
Fixpoint str_eqb (a b : str) : bool :=
  match a, b with
  | [], [] => true
  | x :: a', y :: b' => N.eqb x y && str_eqb a' b'
  | _, _ => false
  end.

Definition listed (paths : list str) (p : str) : bool :=
  existsb (str_eqb p) paths.

(** On such a file system a copy adds its destination and returns. *)
Definition listed_copy (s : list str) (source dest : str)
    : list str * bool :=
  (dest :: s, true).

(** ** The worker that organizes files *)

Module OrganizeWorker.

Section Run.

(** The states of the file system, [os.path.exists], and [shutil.copy]:
    the file system it leaves, and whether it returned ([false] when it
    raised, which it may do after it has changed the file system). *)
Variable fs : Type.
Variable exists_ : fs -> str -> bool.
Variable copy : fs -> str -> str -> fs * bool.

(** The path functions of the platform. *)
Variable basename : str -> str.
Variable abspath : str -> str.
Variable join : str -> str -> str.

(** The fields of the worker. *)
Variable dest_folder : str.
Variable conflict_mode : str.
Variable auto_rename_func : fs -> str -> str -> result str.

(** The file system, the counter, the sources whose error was emitted, and
    the calls of [shutil.copy] made so far, in order, each with the file
    system it was made in, its source and its destination. *)
Record progress : Type := {
  state : fs;
  count : nat;
  errors : list str;
  calls : list (fs * str * str)
}.

(** The destination [shutil.copy] is called with, if it is called. *)
Definition destination (s : fs) (filename : str) : result (option str) :=
  let dest_file := join dest_folder filename in
  if exists_ s dest_file then
    if str_eqb conflict_mode (lit "Overwrite") then Ok (Some dest_file)
    else if str_eqb conflict_mode (lit "Auto-Rename") then
      dest_file' <- auto_rename_func s dest_folder filename ;;
      Ok (Some dest_file')
    else Ok None
  else Ok (Some dest_file).

(** One round of [for source in self.file_items]; an exception ends in the
    [except] clause, where the error is emitted, and the loop goes on. *)
Definition process (st : progress) (source : str) : result progress :=
  if negb (exists_ (state st) source) then Ok st
  else
    let filename := basename source in
    if str_eqb (abspath source) (abspath (join dest_folder filename))
    then Ok st
    else
      match destination (state st) filename with
      | Ok None => Ok st
      | Ok (Some dest_file) =>
          let '(s', returned) := copy (state st) source dest_file in
          let calls' := calls st ++ [(state st, source, dest_file)] in
          if returned : bool then
            Ok {| state := s'; count := count st + 1; errors := errors st;
                  calls := calls' |}
          else
            Ok {| state := s'; count := count st;
                  errors := errors st ++ [source]; calls := calls' |}
      | Raise _ =>
          Ok {| state := state st; count := count st;
                errors := errors st ++ [source]; calls := calls st |}
      | OutOfFuel => OutOfFuel
      end.

Fixpoint run_from (file_items : list str) (st : progress) : result progress :=
  match file_items with
  | [] => Ok st
  | source :: rest => st' <- process st source ;; run_from rest st'
  end.

(** [run]: the progress when [finished] is emitted. *)
Definition run (file_items : list str) (s : fs) : result progress :=
  run_from file_items
    {| state := s; count := 0; errors := []; calls := [] |}.

End Run.

End OrganizeWorker.

(** Every call of [shutil.copy] made so far had a source that existed and
    a destination that did not, in the file system as it was at the call,
    and each call has been counted or reported. *)
Section Careful.
Variable fs : Type.
Variable exists_ : fs -> str -> bool.

Definition careful (st : OrganizeWorker.progress fs) : Prop :=
  (forall s source dest,
      In (s, source, dest) (OrganizeWorker.calls fs st) ->
      exists_ s source = true /\ exists_ s dest = false) /\
  OrganizeWorker.count fs st + length (OrganizeWorker.errors fs st)
  = length (OrganizeWorker.calls fs st).

End Careful.

(** ** The parser of the engine, free of its budget *)

(** The parser with the budget [compile] gives it. *)
Definition parse (p : str) : option (list re.atom * bool) :=
  re.parse_items (length p) p.

(** What follows a bare atom must not start a count. *)
Definition safe_head (p : str) : Prop :=
  match p with
  | [] => True
  | h :: _ => N.eqb h lbrace = false
  end.

Definition prepend (l : list re.atom) (x : option (list re.atom * bool))
    : option (list re.atom * bool) :=
  match x with
  | Some (l', e) => Some (l ++ l', e)
  | None => None
  end.

(** A piece of pattern text that parses to the atoms [l], whatever safe
    text follows it, and does not itself start with a brace. *)
Definition emits (out : str) (l : list re.atom) : Prop :=
  forall tail,
    safe_head tail ->
    parse (out ++ tail) = prepend l (parse tail) /\ safe_head (out ++ tail).

(** ** The synthesized pattern against its own example *)

(** The input with its quote characters removed: the text a generic
    pattern is meant to match. *)
Definition unquoted (s : str) : str :=
  filter (fun c => negb (N.eqb c quote)) s.

Definition ascii_letter (c : char) : bool :=
  (between 97 122 c || between 65 90 c)%bool.

(** The parentheses of a string, in order. *)
Definition parens (p : str) : str :=
  filter (fun c => N.eqb c lparen || N.eqb c rparen) p.

Section Layout.
Context {U : Unicode}.

(** The scanner and the engine agree on a character: if the scanner takes
    it for a letter the class [[a-zA-Z]] accepts it, and if the scanner
    takes it for a digit the class [\d] accepts it. *)
Definition engine_agrees (c : char) : bool :=
  implb (isalpha c) (ascii_letter c) && implb (isdigit c) (isdecimal c).

(** The scanner and the engine agree on every character outside quotes. *)
Fixpoint engine_classes (inq : bool) (s : str) : bool :=
  match s with
  | [] => true
  | c :: r =>
      if N.eqb c quote then engine_classes (negb inq) r
      else if inq then engine_classes true r
      else engine_agrees c && engine_classes false r
  end.

(** The atoms match the characters of [text], one for one. *)
Fixpoint atoms_match (l : list re.atom) (text : str) : bool :=
  match l, text with
  | [], [] => true
  | a :: l', c :: text' => re.atom_matches a c && atoms_match l' text'
  | _, _ => false
  end.

(** A character the generic scan neither toggles on nor generalises. *)
Definition other_char (c : char) : bool :=
  negb (N.eqb c quote || isspace c || isalpha c || isdigit c).

(** Two characters the generic scan cannot tell apart outside quotes. *)
Definition same_class (c c' : char) : bool :=
  if isspace c then isspace c'
  else if isalpha c then isalpha c'
  else if isdigit c then isdigit c'
  else N.eqb c c'.

(** Two inputs with the same layout: quotes at the same places, the same
    text inside quotes, characters of the same class outside. *)
Fixpoint same_shape (inq : bool) (s s' : str) : bool :=
  match s, s' with
  | [], [] => true
  | c :: r, c' :: r' =>
      if N.eqb c quote then N.eqb c' quote && same_shape (negb inq) r r'
      else negb (N.eqb c' quote)
           && (if inq then N.eqb c c' else same_class c c')
           && same_shape inq r r'
  | _, _ => false
  end.

(** What the engine accepts in place of an input character [c] read
    outside quotes: any whitespace for whitespace, any ASCII letter for a
    letter, any decimal digit for a digit, the character itself otherwise. *)
Definition class_accepts (c x : char) : bool :=
  if isspace c then isspace x
  else if isalpha c then ascii_letter x
  else if isdigit c then isdecimal x
  else N.eqb x c.

(** The strings with the layout of the input [s]: quotes dropped, the text
    inside quotes kept as it is, every other character replaced by one its
    class accepts. *)
Fixpoint accepts (inq : bool) (s w : str) : bool :=
  match s with
  | [] => match w with [] => true | _ :: _ => false end
  | c :: r =>
      if N.eqb c quote then accepts (negb inq) r w
      else
        match w with
        | [] => false
        | x :: w' =>
            (if inq then N.eqb x c else class_accepts c x) && accepts inq r w'
        end
  end.

End Layout.

(** The digit half of the property on runs, as the specification words it:
    for maximal runs of decimal digits. *)
Definition decimal_runs_as_specified {U : Unicode} : Prop :=
  forall (pre : str) (c : char) (run rest : str),
    open_after false pre = false ->
    forallb isdecimal (c :: run) = true ->
    ends_with isdecimal pre = false ->
    starts_with isdecimal rest = false ->
    exists P R,
      RegexConverter.string_to_regex pre true false = Ok P /\
      RegexConverter.string_to_regex rest true false = Ok R /\
      RegexConverter.string_to_regex (pre ++ (c :: run) ++ rest) true false
      = Ok (P ++ RegexConverter.digit_token (S (length run)) ++ R).

(** ** What the command line writes *)

(** An action whose outcome and remaining input depend on the pending
    input only, and which appends to the output and never rewrites it. *)
Definition framed {A : Type} (m : Cli.IO A) : Prop :=
  forall i, exists r i' delta,
    forall o,
      m {| Cli.stdin := i; Cli.stdout := o |}
      = (r, {| Cli.stdin := i'; Cli.stdout := o ++ delta |}).

(** The two lines [main] prints first. *)
Definition banner : list str :=
  [lit "Convert String to Regular Expression" ++ [newline];
   lit "===================================" ++ [newline]].

(** What [main] writes from the pattern to the question about testing. *)
Definition pattern_report (p : str) : list str :=
  [(newline :: lit "Regex Pattern:") ++ [newline];
   p ++ [newline];
   newline :: lit "Test this pattern? (y/n): "].

(** The exit status of the process. *)
Definition exit_status {A : Type} (r : result A) : nat :=
  match r with Ok _ => 0 | _ => 1 end.

(** ** A concrete classifier: the Latin-1 tables, nothing beyond them *)

Lemma forall_below_256 (f : char -> bool) :
  forallb f (map N.of_nat (seq 0 256)) = true ->
  forall c, (c < 256)%N -> f c = true.
Proof.
  intros Hall c Hc.
  rewrite forallb_forall in Hall. apply Hall.
  rewrite in_map_iff. exists (N.to_nat c). split.
  - apply N2Nat.id.
  - apply in_seq. lia.
Qed.

Lemma latin1_only_agrees (f : char -> bool) (c : char) :
  (c < 256)%N -> latin1_only f c = f c.
Proof.
  intro Hc. unfold latin1_only.
  destruct (N.ltb_spec c 256); [reflexivity | lia].
Qed.

Lemma latin1_only_disjoint (f g : char -> bool) :
  forallb (fun c => negb (f c && g c)) (map N.of_nat (seq 0 256)) = true ->
  forall c, latin1_only f c = true -> latin1_only g c = false.
Proof.
  intros Hall c. unfold latin1_only.
  destruct (N.ltb_spec c 256) as [Hc | Hc]; [| reflexivity].
  intro Hf. pose proof (forall_below_256 _ Hall c Hc) as Hn.
  cbv beta in Hn. rewrite Hf in Hn. destruct (g c); [discriminate | reflexivity].
Qed.

#[export] Instance latin1 : Unicode := {|
  isspace := latin1_only latin1_isspace;
  isalpha := latin1_only latin1_isalpha;
  isdigit := latin1_only latin1_isdigit;
  isdecimal := latin1_only latin1_isdecimal;
  isspace_latin1 := latin1_only_agrees latin1_isspace;
  isalpha_latin1 := latin1_only_agrees latin1_isalpha;
  isdigit_latin1 := latin1_only_agrees latin1_isdigit;
  isdecimal_latin1 := latin1_only_agrees latin1_isdecimal;
  space_not_alpha :=
    latin1_only_disjoint latin1_isspace latin1_isalpha eq_refl;
  space_not_digit :=
    latin1_only_disjoint latin1_isspace latin1_isdigit eq_refl;
  alpha_not_digit :=
    latin1_only_disjoint latin1_isalpha latin1_isdigit eq_refl
|}.

(** ** Loops *)

Lemma while_unfold {S : Type} (cond : S -> result bool)
    (body : S -> result S) (fuel : nat) (st : S) :
  while cond body fuel st =
  (b <- cond st ;;
   if b then
     match fuel with
     | 0 => OutOfFuel
     | Datatypes.S fuel' => st' <- body st ;; while cond body fuel' st'
     end
   else Ok st).
Proof. destruct fuel; reflexivity. Qed.

Lemma skipn_cons_inv (s : str) (j : nat) (c : char) (r : str) :
  skipn j s = c :: r ->
  nth_error s j = Some c /\ skipn (S j) s = r /\ j < length s.
Proof.
  intro H. repeat split.
  - rewrite <- hd_error_skipn, H. reflexivity.
  - change (S j) with (1 + j). rewrite <- skipn_skipn, H. reflexivity.
  - assert (length (skipn j s) = S (length r)) as L by (rewrite H; reflexivity).
    rewrite length_skipn in L. lia.
Qed.

Lemma skipn_nil_inv (s : str) (j : nat) : skipn j s = [] -> length s <= j.
Proof. apply skipn_all_iff. Qed.

Lemma run_length_le (p : char -> bool) (l : str) : run_length p l <= length l.
Proof. induction l as [| c r IH]; simpl; [| destruct (p c)]; lia. Qed.

Section ScanProofs.
Context {U : Unicode}.
Import RegexConverter.

(** The inner loop counts exactly the run that follows the cursor. *)
Lemma count_loop (p : char -> bool) (s : str) :
  forall fuel c j,
    run_length p (skipn j s) <= fuel ->
    while
      (fun cj : nat * nat =>
         if snd cj <? length s then x <- getitem s (snd cj) ;; Ok (p x)
         else Ok false)
      (fun cj => Ok (S (fst cj), S (snd cj)))
      fuel (c, j)
    = Ok (c + run_length p (skipn j s), j + run_length p (skipn j s)).
Proof.
  induction fuel as [| fuel IH]; intros c j Hfuel; rewrite while_unfold;
    cbn [fst snd].
  - destruct (skipn j s) as [| x r] eqn:E.
    + apply skipn_nil_inv in E.
      destruct (Nat.ltb_spec j (length s)); [lia |].
      cbn. rewrite !Nat.add_0_r. reflexivity.
    + apply skipn_cons_inv in E. destruct E as (Hn & _ & Hj).
      destruct (Nat.ltb_spec j (length s)); [| lia].
      unfold getitem. rewrite Hn. cbn [bind run_length] in Hfuel |- *.
      destruct (p x); [lia |]. rewrite !Nat.add_0_r. reflexivity.
  - destruct (skipn j s) as [| x r] eqn:E.
    + apply skipn_nil_inv in E.
      destruct (Nat.ltb_spec j (length s)); [lia |].
      cbn. rewrite !Nat.add_0_r. reflexivity.
    + apply skipn_cons_inv in E. destruct E as (Hn & Hr & Hj).
      destruct (Nat.ltb_spec j (length s)); [| lia].
      unfold getitem. rewrite Hn. cbn [bind run_length] in Hfuel |- *.
      destruct (p x).
      * rewrite IH by (rewrite Hr; lia). rewrite Hr.
        f_equal. f_equal; lia.
      * rewrite !Nat.add_0_r. reflexivity.
Qed.

Lemma count_run_spec (p : char -> bool) (s : str) (i0 : nat) :
  count_run p s i0 = Ok (S (run_length p (skipn (S i0) s))).
Proof.
  unfold count_run. rewrite count_loop.
  - cbn. rewrite Nat.add_1_r. reflexivity.
  - etransitivity; [apply run_length_le |]. rewrite length_skipn. lia.
Qed.

(** One iteration, read on the unread part [c :: r] of the input. *)
Lemma loop_body_spec (s : str) (st : scan) (c : char) (r : str) :
  skipn (i st) s = c :: r ->
  exists st',
    loop_body s st = Ok st' /\
    i st < i st' <= length s /\
    parts st ++ tokens (c :: r) (in_quotes st) (quote_buffer st)
    = parts st' ++ tokens (skipn (i st') s) (in_quotes st') (quote_buffer st').
Proof.
  intro E. pose proof (skipn_cons_inv _ _ _ _ E) as (Hn & Hr & Hi).
  unfold loop_body, getitem. rewrite Hn. cbn [bind].
  rewrite tokens_equation_2.
  assert (Hskip : forall n, skipn (i st + S n) s = skipn n r).
  { intro n. rewrite <- Hr. rewrite skipn_skipn. f_equal. lia. }
  assert (Hlen : forall p, i st + S (run_length p r) <= length s).
  { intro p. pose proof (run_length_le p r) as L.
    assert (length r = length s - S (i st)) as Lr
      by (rewrite <- Hr; apply length_skipn).
    lia. }
  destruct (N.eqb c quote).
  { destruct (in_quotes st); eexists; (split; [reflexivity |]); cbn;
      rewrite Nat.add_1_r, Hr; (split; [lia |]).
    - rewrite <- app_assoc. reflexivity.
    - reflexivity. }
  destruct (in_quotes st).
  { eexists; (split; [reflexivity |]); cbn.
    rewrite Nat.add_1_r, Hr. split; [lia | reflexivity]. }
  destruct (isspace c).
  { rewrite count_run_spec, Hr. eexists; (split; [reflexivity |]); cbn [i in_quotes quote_buffer parts].
    rewrite Hskip. split; [specialize (Hlen isspace); lia |].
    rewrite <- app_assoc. reflexivity. }
  destruct (isalpha c).
  { rewrite count_run_spec, Hr. eexists; (split; [reflexivity |]); cbn [i in_quotes quote_buffer parts bind].
    assert ((if 1 <? S (run_length isalpha r) then S (run_length isalpha r) else 1)
            = S (run_length isalpha r)) as ->.
    { destruct (Nat.ltb_spec 1 (S (run_length isalpha r))); lia. }
    rewrite Hskip. split; [specialize (Hlen isalpha); lia |].
    rewrite <- app_assoc. reflexivity. }
  destruct (isdigit c).
  { rewrite count_run_spec, Hr. eexists; (split; [reflexivity |]); cbn [i in_quotes quote_buffer parts bind].
    assert ((if 1 <? S (run_length isdigit r) then S (run_length isdigit r) else 1)
            = S (run_length isdigit r)) as ->.
    { destruct (Nat.ltb_spec 1 (S (run_length isdigit r))); lia. }
    rewrite Hskip. split; [specialize (Hlen isdigit); lia |].
    rewrite <- app_assoc. reflexivity. }
  eexists; (split; [reflexivity |]); cbn.
  rewrite Nat.add_1_r, Hr. split; [lia |].
  rewrite <- app_assoc. reflexivity.
Qed.

Lemma flush_spec (st : scan) :
  flush st = parts st ++ flush_buffer (quote_buffer st).
Proof.
  unfold flush, flush_buffer. destruct (quote_buffer st);
    [rewrite app_nil_r |]; reflexivity.
Qed.

(** The main loop terminates within its budget, with the cursor at the end
    of the input, and has appended what [tokens] describes. *)
Lemma main_loop_tokens (s : str) :
  forall fuel st,
    length s - i st <= fuel ->
    i st <= length s ->
    exists st',
      while (fun st => Ok (i st <? length s)) (loop_body s) fuel st = Ok st' /\
      i st' = length s /\
      flush st'
      = parts st ++ tokens (skipn (i st) s) (in_quotes st) (quote_buffer st).
Proof.
  induction fuel as [| fuel IH]; intros st Hfuel Hi; rewrite while_unfold;
    cbn [bind]; destruct (Nat.ltb_spec (i st) (length s)) as [Hlt | Hge];
    try lia.
  - exists st. rewrite skipn_all2 by lia. rewrite tokens_equation_1.
    repeat split; [lia | apply flush_spec].
  - destruct (skipn (i st) s) as [| c r] eqn:E.
    { apply skipn_nil_inv in E. lia. }
    destruct (loop_body_spec s st c r E) as (st1 & Hbody & Hadv & Hparts).
    rewrite Hbody. cbn [bind].
    destruct (IH st1) as (st' & Hrun & Hend & Hflush); [lia | lia |].
    exists st'. repeat split; [exact Hrun | exact Hend |].
    rewrite Hflush, Hparts. reflexivity.
  - exists st. rewrite skipn_all2 by lia. rewrite tokens_equation_1.
    repeat split; [lia | apply flush_spec].
Qed.

(** Generic mode returns, and returns the concatenation of [tokens]. *)
Lemma string_to_regex_generic (s : str) (full_match : bool) :
  string_to_regex s true full_match
  = Ok (anchored full_match (concat (tokens s false []))).
Proof.
  unfold string_to_regex, main_loop. cbn [negb].
  destruct (main_loop_tokens s (length s) init) as (st' & Hrun & _ & Hflush);
    [cbn; lia | cbn; lia |].
  rewrite Hrun. cbn [bind]. rewrite Hflush. cbn.
  destruct full_match; reflexivity.
Qed.

Lemma string_to_regex_literal (s : str) (full_match : bool) :
  string_to_regex s false full_match = Ok (anchored full_match (join_escaped s)).
Proof. unfold string_to_regex. destruct full_match; reflexivity. Qed.

End ScanProofs.

(** ** Composition of the scan over a split of the input *)

Lemma ends_with_snoc (p : char -> bool) (u : str) (x : char) :
  ends_with p (u ++ [x]) = p x.
Proof. unfold ends_with. rewrite rev_app_distr. reflexivity. Qed.

Lemma run_length_0 (p : char -> bool) (l : str) :
  starts_with p l = false -> run_length p l = 0.
Proof. destruct l as [| c r]; cbn; [| intros ->]; reflexivity. Qed.

Lemma run_length_all (p : char -> bool) (l : str) :
  run_length p l = length l -> forall x, In x l -> p x = true.
Proof.
  induction l as [| c r IH]; cbn; [intros _ x [] |].
  destruct (p c) eqn:E; [| discriminate].
  intros H x [<- | Hx]; [exact E | apply IH; [lia | exact Hx]].
Qed.

Lemma run_length_forallb (p : char -> bool) (l : str) :
  forallb p l = true -> run_length p l = length l.
Proof.
  induction l as [| c r IH]; cbn; [reflexivity |].
  destruct (p c); cbn; [intro H; rewrite IH by exact H; reflexivity | discriminate].
Qed.

Lemma run_length_app (p : char -> bool) (r v : str) :
  run_length p r < length r \/ starts_with p v = false ->
  run_length p (r ++ v) = run_length p r.
Proof.
  induction r as [| c r IH]; cbn.
  - intros [H | H]; [lia | apply run_length_0, H].
  - destruct (p c); [| reflexivity].
    intros [H | H]; f_equal; apply IH; [left; lia | right; exact H].
Qed.

Lemma skipn_run_app (p : char -> bool) (r v : str) :
  skipn (run_length p r) (r ++ v) = skipn (run_length p r) r ++ v.
Proof.
  rewrite skipn_app.
  replace (run_length p r - length r) with 0
    by (pose proof (run_length_le p r); lia).
  reflexivity.
Qed.

Lemma open_after_skip_run (p : char -> bool) (b : bool) (r : str) :
  p quote = false ->
  open_after b (skipn (run_length p r) r) = open_after b r.
Proof.
  intro Hq. induction r as [| c r IH]; cbn; [reflexivity |].
  destruct (p c) eqn:E; [| reflexivity].
  destruct (N.eqb_spec c quote) as [-> | _]; [congruence | exact IH].
Qed.

Section Composition.
Context {U : Unicode}.
Import RegexConverter.

Lemma isspace_quote : isspace quote = false.
Proof. rewrite isspace_latin1; reflexivity. Qed.

Lemma isalpha_quote : isalpha quote = false.
Proof. rewrite isalpha_latin1; reflexivity. Qed.

Lemma isdigit_quote : isdigit quote = false.
Proof. rewrite isdigit_latin1; reflexivity. Qed.

Lemma ends_with_suffix (p : char -> bool) (a b : str) :
  b <> [] -> ends_with p (a ++ b) = ends_with p b.
Proof.
  intro Hb. destruct (exists_last Hb) as (b' & x & ->).
  rewrite app_assoc, !ends_with_snoc. reflexivity.
Qed.

Lemma no_merge_suffix (a b v : str) : no_merge (a ++ b) v -> no_merge b v.
Proof.
  intros H p Hp Hend. apply H; [exact Hp |].
  destruct b as [| y b]; [discriminate |].
  rewrite ends_with_suffix by discriminate. exact Hend.
Qed.

Lemma ends_with_all (p : char -> bool) (u : str) :
  u <> [] -> (forall x, In x u -> p x = true) -> ends_with p u = true.
Proof.
  intros Hu Hall. destruct (exists_last Hu) as (u' & x & ->).
  rewrite ends_with_snoc. apply Hall, in_or_app. right. left. reflexivity.
Qed.

(** The run that starts at [c] stays inside [c :: r]. *)
Lemma run_stays (p : char -> bool) (c : char) (r v : str) :
  p = isspace \/ p = isalpha \/ p = isdigit ->
  p c = true -> no_merge (c :: r) v ->
  run_length p (r ++ v) = run_length p r.
Proof.
  intros Hp Hc Hseam. apply run_length_app.
  destruct (Nat.eq_dec (run_length p r) (length r)) as [Hall | Hne].
  - right. apply Hseam; [exact Hp |].
    apply ends_with_all; [discriminate |].
    intros x [<- | Hx]; [exact Hc | exact (run_length_all p r Hall x Hx)].
  - left. pose proof (run_length_le p r). lia.
Qed.

Lemma tokens_app (v : str) :
  forall n u inq buf,
    length u <= n ->
    open_after inq u = false ->
    (inq = false -> buf = []) ->
    no_merge u v ->
    tokens (u ++ v) inq buf = tokens u inq buf ++ tokens v false [].
Proof.
  induction n as [| n IH]; intros u inq buf Hlen Hopen Hbuf Hseam.
  - destruct u; [| cbn in Hlen; lia]. cbn in Hopen. subst inq.
    rewrite (Hbuf eq_refl). rewrite tokens_equation_1. reflexivity.
  - destruct u as [| c r].
    { cbn in Hopen. subst inq. rewrite (Hbuf eq_refl).
      rewrite tokens_equation_1. reflexivity. }
    cbn [length] in Hlen. cbn [open_after] in Hopen.
    assert (Hr : no_merge r v) by (apply (no_merge_suffix [c] r), Hseam).
    assert (Hrun : forall p, p = isspace \/ p = isalpha \/ p = isdigit ->
              p quote = false -> p c = true -> inq = false ->
              (N.eqb c quote) = false ->
              forall tok,
                tok :: tokens (skipn (run_length p r) (r ++ v)) false buf
                = (tok :: tokens (skipn (run_length p r) r) false buf)
                  ++ tokens v false []).
    { intros p Hp Hq Hc Hinq Hcq tok.
      rewrite skipn_run_app.
      cbn [app]. f_equal. apply IH.
      - rewrite length_skipn. lia.
      - rewrite open_after_skip_run by exact Hq.
        rewrite Hcq, Hinq in Hopen. exact Hopen.
      - intros _. exact (Hbuf Hinq).
      - apply (no_merge_suffix (firstn (run_length p r) r)).
        rewrite firstn_skipn. exact Hr. }
    change ((c :: r) ++ v) with (c :: (r ++ v)).
    rewrite !tokens_equation_2.
    destruct (N.eqb c quote) eqn:Hcq.
    { destruct inq.
      - cbn [app]. f_equal. apply IH; [lia | exact Hopen | reflexivity | exact Hr].
      - apply IH; [lia | exact Hopen | discriminate | exact Hr]. }
    destruct inq.
    { apply IH; [lia | exact Hopen | discriminate | exact Hr]. }
    destruct (isspace c) eqn:Hs.
    { rewrite (run_stays isspace c r v) by auto.
      apply Hrun; auto using isspace_quote. }
    destruct (isalpha c) eqn:Ha.
    { rewrite (run_stays isalpha c r v) by auto.
      apply Hrun; auto using isalpha_quote. }
    destruct (isdigit c) eqn:Hd.
    { rewrite (run_stays isdigit c r v) by auto.
      apply Hrun; auto using isdigit_quote. }
    cbn [app]. f_equal. apply IH; [lia | exact Hopen | exact Hbuf | exact Hr].
Qed.

Lemma contains_cons_false (c x : char) (q : str) :
  contains (c :: q) x = false -> N.eqb c x = false /\ contains q x = false.
Proof.
  unfold contains. cbn [existsb]. intro H. apply orb_false_iff in H.
  rewrite N.eqb_sym. exact H.
Qed.

(** A quoted span: buffered up to the closing quote, emitted escaped. *)
Lemma tokens_quoted (q rest : str) :
  contains q quote = false ->
  forall buf,
    tokens (q ++ quote :: rest) true buf
    = join_escaped (buf ++ q) :: tokens rest false [].
Proof.
  induction q as [| c q IH]; intros Hq buf; cbn [app];
    rewrite tokens_equation_2.
  - rewrite app_nil_r. reflexivity.
  - apply contains_cons_false in Hq. destruct Hq as [Hc Hq]. rewrite Hc.
    rewrite IH by exact Hq. rewrite <- app_assoc. reflexivity.
Qed.

(** A quote left open: the buffer is flushed at the end of the input. *)
Lemma tokens_unterminated (q : str) :
  contains q quote = false ->
  forall buf, concat (tokens q true buf) = join_escaped (buf ++ q).
Proof.
  induction q as [| c q IH]; intros Hq buf.
  - rewrite tokens_equation_1, app_nil_r. unfold flush_buffer.
    destruct buf; [reflexivity | cbn [concat]; apply app_nil_r].
  - apply contains_cons_false in Hq. destruct Hq as [Hc Hq].
    rewrite tokens_equation_2, Hc.
    rewrite IH by exact Hq. rewrite <- app_assoc. reflexivity.
Qed.

Lemma class_not_quote (p : char -> bool) (c : char) :
  p quote = false -> p c = true -> N.eqb c quote = false.
Proof.
  intros Hq Hc. destruct (N.eqb_spec c quote) as [-> | _];
    [congruence | reflexivity].
Qed.

Lemma not_space_of_alpha (c : char) : isalpha c = true -> isspace c = false.
Proof.
  intro H. destruct (isspace c) eqn:E; [| reflexivity].
  rewrite (space_not_alpha c E) in H. discriminate.
Qed.

Lemma not_space_of_digit (c : char) : isdigit c = true -> isspace c = false.
Proof.
  intro H. destruct (isspace c) eqn:E; [| reflexivity].
  rewrite (space_not_digit c E) in H. discriminate.
Qed.

Lemma not_alpha_of_digit (c : char) : isdigit c = true -> isalpha c = false.
Proof.
  intro H. destruct (isalpha c) eqn:E; [| reflexivity].
  rewrite (alpha_not_digit c E) in H. discriminate.
Qed.

(** An input that is one run is one token. *)
Lemma tokens_space_run (c : char) (r : str) :
  forallb isspace (c :: r) = true ->
  tokens (c :: r) false [] = [space_token (S (length r))].
Proof.
  cbn [forallb]. intro H. apply andb_true_iff in H. destruct H as [Hc Hr].
  rewrite tokens_equation_2, (class_not_quote isspace c isspace_quote Hc), Hc.
  rewrite (run_length_forallb isspace r Hr), skipn_all, tokens_equation_1.
  reflexivity.
Qed.

Lemma tokens_letter_run (c : char) (r : str) :
  forallb isalpha (c :: r) = true ->
  tokens (c :: r) false [] = [letter_token (S (length r))].
Proof.
  cbn [forallb]. intro H. apply andb_true_iff in H. destruct H as [Hc Hr].
  rewrite tokens_equation_2, (class_not_quote isalpha c isalpha_quote Hc),
    (not_space_of_alpha c Hc), Hc.
  rewrite (run_length_forallb isalpha r Hr), skipn_all, tokens_equation_1.
  reflexivity.
Qed.

Lemma tokens_digit_run (c : char) (r : str) :
  forallb isdigit (c :: r) = true ->
  tokens (c :: r) false [] = [digit_token (S (length r))].
Proof.
  cbn [forallb]. intro H. apply andb_true_iff in H. destruct H as [Hc Hr].
  rewrite tokens_equation_2, (class_not_quote isdigit c isdigit_quote Hc),
    (not_space_of_digit c Hc), (not_alpha_of_digit c Hc), Hc.
  rewrite (run_length_forallb isdigit r Hr), skipn_all, tokens_equation_1.
  reflexivity.
Qed.

(** The seam conditions, from what stands on either side. *)
Lemma no_merge_before_quote (u rest : str) : no_merge u (quote :: rest).
Proof.
  intros p [-> | [-> | ->]] _; cbn;
    [apply isspace_quote | apply isalpha_quote | apply isdigit_quote].
Qed.

Lemma no_merge_after_quote (u v : str) : no_merge (u ++ [quote]) v.
Proof.
  intros p Hp. rewrite ends_with_snoc.
  destruct Hp as [-> | [-> | ->]];
    [rewrite isspace_quote | rewrite isalpha_quote | rewrite isdigit_quote];
    discriminate.
Qed.

Lemma no_merge_nil_l (v : str) : no_merge [] v.
Proof. intros p _. cbn. discriminate. Qed.

Lemma no_merge_nil_r (u : str) : no_merge u [].
Proof. intros p _ _. reflexivity. Qed.

Lemma starts_with_forallb (p : char -> bool) (c : char) (r v : str) :
  forallb p (c :: r) = true -> starts_with p ((c :: r) ++ v) = true.
Proof. cbn. intro H. apply andb_true_iff in H. apply H. Qed.

Lemma ends_with_forallb (p : char -> bool) (c : char) (r : str) :
  forallb p (c :: r) = true -> ends_with p (c :: r) = true.
Proof.
  intro H. apply ends_with_all; [discriminate |].
  rewrite forallb_forall in H. exact H.
Qed.

End Composition.

(** ** The quote character never reaches the output *)

Lemma contains_app (a b : str) (x : char) :
  contains (a ++ b) x = (contains a x || contains b x)%bool.
Proof. apply existsb_app. Qed.

Lemma uint_chars_no_quote (d : Decimal.uint) :
  contains (uint_chars d) quote = false.
Proof. induction d; cbn; auto. Qed.

Lemma concat_no_quote (l : list str) :
  (forall part, In part l -> contains part quote = false) ->
  contains (concat l) quote = false.
Proof.
  induction l as [| a l IH]; intro H; cbn [concat]; [reflexivity |].
  rewrite contains_app, (H a (or_introl eq_refl)), IH; [reflexivity |].
  intros part Hp. apply H. right. exact Hp.
Qed.

Section NoQuote.
Context {U : Unicode}.
Import RegexConverter.

Lemma space_token_no_quote (n : nat) : contains (space_token n) quote = false.
Proof.
  unfold space_token, str_of_int. destruct (1 <? n); [| reflexivity].
  rewrite !contains_app, uint_chars_no_quote. reflexivity.
Qed.

Lemma letter_token_no_quote (n : nat) :
  contains (letter_token n) quote = false.
Proof.
  unfold letter_token, str_of_int. destruct (1 <? n); [| reflexivity].
  rewrite !contains_app, uint_chars_no_quote. reflexivity.
Qed.

Lemma digit_token_no_quote (n : nat) : contains (digit_token n) quote = false.
Proof.
  unfold digit_token, str_of_int. destruct (1 <? n); [| reflexivity].
  rewrite !contains_app, uint_chars_no_quote. reflexivity.
Qed.

Lemma escape_char_no_quote (c : char) :
  N.eqb c quote = false -> contains (escape_char c) quote = false.
Proof.
  intro H. rewrite N.eqb_sym in H. unfold escape_char, contains.
  destruct (existsb (N.eqb c) regex_special_chars); cbn [existsb];
    rewrite H; reflexivity.
Qed.

Lemma join_escaped_no_quote (buf : str) :
  contains buf quote = false -> contains (join_escaped buf) quote = false.
Proof.
  induction buf as [| c buf IH]; intro H; [reflexivity |].
  apply contains_cons_false in H. destruct H as [Hc Hb].
  unfold join_escaped. cbn [map concat]. rewrite contains_app.
  rewrite (escape_char_no_quote c Hc). apply IH, Hb.
Qed.

Lemma contains_snoc_false (buf : str) (c : char) :
  contains buf quote = false -> N.eqb c quote = false ->
  contains (buf ++ [c]) quote = false.
Proof.
  intros Hb Hc. rewrite contains_app, Hb. unfold contains. cbn [existsb].
  rewrite N.eqb_sym, Hc. reflexivity.
Qed.

Lemma tokens_no_quote :
  forall n rest inq buf,
    length rest <= n ->
    contains buf quote = false ->
    forall part, In part (tokens rest inq buf) -> contains part quote = false.
Proof.
  induction n as [| n IH]; intros rest inq buf Hlen Hbuf part.
  - destruct rest; [| cbn in Hlen; lia].
    rewrite tokens_equation_1. unfold flush_buffer.
    destruct buf as [| b buf']; [intros [] |].
    intros [<- | []]. apply join_escaped_no_quote, Hbuf.
  - destruct rest as [| c r].
    { rewrite tokens_equation_1. unfold flush_buffer.
      destruct buf as [| b buf']; [intros [] |].
      intros [<- | []]. apply join_escaped_no_quote, Hbuf. }
    cbn [length] in Hlen.
    assert (Hskip : forall k, length (skipn k r) <= n)
      by (intro k; rewrite length_skipn; lia).
    rewrite tokens_equation_2.
    destruct (N.eqb c quote) eqn:Hcq.
    { destruct inq.
      - intros [<- | Hin]; [apply join_escaped_no_quote, Hbuf |].
        revert Hin. apply IH; [lia | reflexivity].
      - apply IH; [lia | exact Hbuf]. }
    destruct inq.
    { apply IH; [lia | apply contains_snoc_false; assumption]. }
    destruct (isspace c).
    { intros [<- | Hin]; [apply space_token_no_quote |].
      revert Hin. apply IH; [apply Hskip | exact Hbuf]. }
    destruct (isalpha c).
    { intros [<- | Hin]; [apply letter_token_no_quote |].
      revert Hin. apply IH; [apply Hskip | exact Hbuf]. }
    destruct (isdigit c).
    { intros [<- | Hin]; [apply digit_token_no_quote |].
      revert Hin. apply IH; [apply Hskip | exact Hbuf]. }
    intros [<- | Hin]; [apply escape_char_no_quote, Hcq |].
    revert Hin. apply IH; [lia | exact Hbuf].
Qed.

End NoQuote.

(** ** Inputs within Latin-1: the classifiers are the tables *)

Lemma latin1_str_in (s : str) (c : char) :
  latin1_str s = true -> In c s -> (c < 256)%N.
Proof.
  unfold latin1_str. rewrite forallb_forall. intros H Hin.
  apply N.ltb_lt, H, Hin.
Qed.

Lemma run_length_ext (p q : char -> bool) (l : str) :
  (forall c, In c l -> p c = q c) -> run_length p l = run_length q l.
Proof.
  induction l as [| c r IH]; intro H; cbn; [reflexivity |].
  rewrite <- (H c (or_introl eq_refl)). destruct (p c); [| reflexivity].
  f_equal. apply IH. intros x Hx. apply H. right. exact Hx.
Qed.

Lemma in_skipn (k : nat) (l : str) (x : char) : In x (skipn k l) -> In x l.
Proof.
  intro H. rewrite <- (firstn_skipn k l). apply in_or_app. right. exact H.
Qed.

Section Latin1.
Context {U : Unicode}.
Import RegexConverter.

Lemma tokens_latin1 :
  forall n rest inq buf,
    length rest <= n ->
    latin1_str rest = true ->
    @tokens U rest inq buf = @tokens latin1 rest inq buf.
Proof.
  induction n as [| n IH]; intros rest inq buf Hlen Hl.
  - destruct rest; [| cbn in Hlen; lia]. rewrite !tokens_equation_1.
    reflexivity.
  - destruct rest as [| c r]; [rewrite !tokens_equation_1; reflexivity |].
    cbn [length] in Hlen.
    assert (Hc : (c < 256)%N) by (apply (latin1_str_in (c :: r)); [exact Hl | left; reflexivity]).
    assert (Hr : latin1_str r = true) by (cbn in Hl; apply andb_true_iff in Hl; apply Hl).
    assert (Hskip : forall k, latin1_str (skipn k r) = true).
    { intro k. unfold latin1_str. apply forallb_forall. intros x Hx.
      apply N.ltb_lt, (latin1_str_in r); [exact Hr | exact (in_skipn k r x Hx)]. }
    assert (Hlen' : forall k, length (skipn k r) <= n)
      by (intro k; rewrite length_skipn; lia).
    assert (Hrun : forall (p : Unicode -> char -> bool),
               (forall x, (x < 256)%N -> p U x = p latin1 x) ->
               run_length (p U) r = run_length (p latin1) r).
    { intros p Hp. apply run_length_ext. intros x Hx.
      apply Hp, (latin1_str_in r); assumption. }
    rewrite !tokens_equation_2.
    rewrite (Hrun (@isspace)), (Hrun (@isalpha)), (Hrun (@isdigit)).
    2: { intros x Hx. rewrite !isdigit_latin1 by exact Hx. reflexivity. }
    2: { intros x Hx. rewrite !isalpha_latin1 by exact Hx. reflexivity. }
    2: { intros x Hx. rewrite !isspace_latin1 by exact Hx. reflexivity. }
    rewrite (@isspace_latin1 U c Hc), (@isalpha_latin1 U c Hc),
      (@isdigit_latin1 U c Hc).
    rewrite <- (@isspace_latin1 latin1 c Hc), <- (@isalpha_latin1 latin1 c Hc),
      <- (@isdigit_latin1 latin1 c Hc).
    rewrite !(IH r) by (try lia; exact Hr).
    rewrite !(IH (skipn _ r)) by (try apply Hlen'; apply Hskip).
    reflexivity.
Qed.

Lemma string_to_regex_latin1 (s : str) (g full_match : bool) :
  latin1_str s = true ->
  @string_to_regex U s g full_match = @string_to_regex latin1 s g full_match.
Proof.
  intro H. destruct g.
  - rewrite !string_to_regex_generic.
    rewrite (tokens_latin1 (length s)) by (try lia; exact H). reflexivity.
  - reflexivity.
Qed.

Lemma atom_matches_latin1 (a : re.atom) (c : char) :
  (c < 256)%N -> @re.atom_matches U a c = @re.atom_matches latin1 a c.
Proof.
  intro Hc. destruct a; unfold re.atom_matches; try reflexivity.
  - rewrite (@isspace_latin1 U c Hc), (@isspace_latin1 latin1 c Hc).
    reflexivity.
  - rewrite (@isdecimal_latin1 U c Hc), (@isdecimal_latin1 latin1 c Hc).
    reflexivity.
Qed.

Lemma match_here_latin1 (l : list re.atom) :
  forall subject,
    latin1_str subject = true ->
    @re.match_here U l subject = @re.match_here latin1 l subject.
Proof.
  induction l as [| a l IH]; intros subject H; cbn; [reflexivity |].
  destruct subject as [| c subject']; [reflexivity |].
  cbn in H. apply andb_true_iff in H. destruct H as [Hc Hs].
  apply N.ltb_lt in Hc.
  rewrite (atom_matches_latin1 a c Hc), (IH subject' Hs). reflexivity.
Qed.

Lemma match_at_latin1 (r : re.regex) (subject : str) :
  latin1_str subject = true ->
  @re.match_at U r subject = @re.match_at latin1 r subject.
Proof.
  intro H. unfold re.match_at. rewrite (match_here_latin1 _ _ H). reflexivity.
Qed.

Lemma search_from_latin1 (r : re.regex) :
  forall subject,
    latin1_str subject = true ->
    @re.search_from U r subject = @re.search_from latin1 r subject.
Proof.
  induction subject as [| c subject' IH]; intro H; cbn [re.search_from];
    rewrite (match_at_latin1 r _ H); [reflexivity |].
  cbn in H. apply andb_true_iff in H. rewrite (IH (proj2 H)). reflexivity.
Qed.

Lemma search_latin1 (r : re.regex) (subject : str) :
  latin1_str subject = true ->
  @re.search U r subject = @re.search latin1 r subject.
Proof.
  intro H. unfold re.search.
  rewrite (match_at_latin1 r _ H), (search_from_latin1 r _ H). reflexivity.
Qed.

Lemma fullmatch_latin1 (r : re.regex) (subject : str) :
  latin1_str subject = true ->
  @re.fullmatch U r subject = @re.fullmatch latin1 r subject.
Proof.
  intro H. unfold re.fullmatch. rewrite (match_here_latin1 _ _ H).
  reflexivity.
Qed.

Lemma search_pattern_latin1 (pattern subject : str) :
  latin1_str subject = true ->
  @re.search_pattern U pattern subject
  = @re.search_pattern latin1 pattern subject.
Proof.
  intro H. unfold re.search_pattern. destruct (re.compile pattern); cbn;
    [rewrite (search_latin1 _ _ H) |]; reflexivity.
Qed.

Lemma fullmatch_pattern_latin1 (pattern subject : str) :
  latin1_str subject = true ->
  @re.fullmatch_pattern U pattern subject
  = @re.fullmatch_pattern latin1 pattern subject.
Proof.
  intro H. unfold re.fullmatch_pattern. destruct (re.compile pattern); cbn;
    [rewrite (fullmatch_latin1 _ _ H) |]; reflexivity.
Qed.

End Latin1.

(** ** Escaped text compiles to the literal it came from *)

Section Escaping.
Import RegexConverter.

Lemma special_listed (c : char) :
  contains regex_special_chars c = contains listed_special c.
Proof.
  unfold contains, regex_special_chars, listed_special. cbn.
  destruct (N.eqb c 92); rewrite ?orb_true_r, ?orb_false_r; reflexivity.
Qed.

Lemma special_in (c : char) :
  contains regex_special_chars c = true -> In c listed_special.
Proof.
  rewrite special_listed. unfold contains. intro H.
  apply existsb_exists in H. destruct H as (x & Hx & E).
  apply N.eqb_eq in E. subst x. exact Hx.
Qed.

Lemma not_special_neq (c x : char) :
  contains regex_special_chars c = false -> In x listed_special ->
  N.eqb c x = false.
Proof.
  rewrite special_listed. unfold contains. intros H Hx.
  destruct (N.eqb c x) eqn:E; [| reflexivity].
  assert (existsb (N.eqb c) listed_special = true) as H'
    by (apply existsb_exists; exists x; split; assumption).
  congruence.
Qed.

Lemma parse_atom_escape (c : char) (rest : str) :
  re.parse_atom (escape_char c ++ rest) = Some (re.Lit c, rest).
Proof.
  unfold escape_char. destruct (contains regex_special_chars c) eqn:E.
  - apply special_in in E. cbn in E.
    repeat (destruct E as [<- | E]; [reflexivity |]). destruct E.
  - cbn [app re.parse_atom].
    rewrite (not_special_neq c backslash E) by (cbn; tauto).
    rewrite (not_special_neq c 91%N E) by (cbn; tauto).
    replace (contains re.metachars c) with false; [reflexivity |].
    symmetry. rewrite <- E, special_listed. reflexivity.
Qed.

(** Escaped text never starts with an unescaped metacharacter. *)
Lemma join_escaped_head (q : str) (x : char) :
  In x listed_special -> x <> backslash ->
  match join_escaped q with
  | [] => True
  | h :: _ => N.eqb h x = false
  end.
Proof.
  intros Hx Hb. destruct q as [| c q]; [exact I |].
  unfold join_escaped. cbn [map concat]. unfold escape_char.
  destruct (contains regex_special_chars c) eqn:E; cbn [app].
  - apply N.eqb_neq. congruence.
  - apply (not_special_neq c x E Hx).
Qed.

Lemma parse_repeat_join_escaped (q : str) :
  re.parse_repeat (join_escaped q) = Some (1, join_escaped q).
Proof.
  pose proof (join_escaped_head q lbrace) as H.
  unfold re.parse_repeat. destruct (join_escaped q) as [| h t]; [reflexivity |].
  rewrite H; [reflexivity | cbn; tauto | discriminate].
Qed.

Lemma parse_items_join_escaped (q : str) :
  forall fuel,
    length q <= fuel ->
    re.parse_items fuel (join_escaped q) = Some (map re.Lit q, false).
Proof.
  induction q as [| c q IH]; intros fuel Hfuel.
  - destruct fuel; reflexivity.
  - destruct fuel as [| fuel]; [cbn in Hfuel; lia |].
    pose proof (join_escaped_head (c :: q) dollar) as Hd.
    pose proof (parse_atom_escape c (join_escaped q)) as Ha.
    change (escape_char c ++ join_escaped q) with (join_escaped (c :: q)) in Ha.
    destruct (join_escaped (c :: q)) as [| h t] eqn:E; [discriminate Ha |].
    cbn [re.parse_items]. rewrite Hd by (cbn; try tauto; discriminate).
    cbn [andb]. rewrite Ha, parse_repeat_join_escaped.
    rewrite IH by (cbn in Hfuel; lia). reflexivity.
Qed.

Lemma length_join_escaped (q : str) : length q <= length (join_escaped q).
Proof.
  induction q as [| c q IH]; [apply le_n |].
  assert (1 <= length (escape_char c)) as Hc
    by (unfold escape_char; destruct (contains regex_special_chars c);
        cbn [length]; lia).
  unfold join_escaped in *. cbn [map concat length]. rewrite length_app. lia.
Qed.

Lemma compile_join_escaped (q : str) :
  re.compile (join_escaped q) = Some (literal q).
Proof.
  pose proof (join_escaped_head q caret) as Hc.
  pose proof (parse_items_join_escaped q (length (join_escaped q))
                (length_join_escaped q)) as Hp.
  unfold re.compile. destruct (join_escaped q) as [| h t].
  - rewrite Hp. reflexivity.
  - rewrite Hc by (cbn; try tauto; discriminate). rewrite Hp. reflexivity.
Qed.

Context {U : Unicode}.

Lemma match_here_literal (q rest : str) :
  re.match_here (map re.Lit q) (q ++ rest) = Some (q, rest).
Proof.
  induction q as [| c q IH]; cbn; [reflexivity |].
  rewrite N.eqb_refl, IH. reflexivity.
Qed.

Lemma fullmatch_literal (q : str) : re.fullmatch (literal q) q = true.
Proof.
  unfold re.fullmatch, literal. cbn [re.atoms].
  rewrite <- (app_nil_r q) at 2. rewrite match_here_literal. reflexivity.
Qed.

(** The literal pattern is found in any text that embeds [q]; the leftmost
    match is some occurrence of [q]. *)
Lemma search_from_literal (q post : str) :
  forall pre, re.search_from (literal q) (pre ++ q ++ post) = Some q.
Proof.
  assert (Hat : forall subj m, re.match_at (literal q) subj = Some m -> m = q).
  { unfold re.match_at, literal. cbn [re.atoms re.eol negb orb].
    intros subj.
    assert (forall l s m rest, re.match_here (map re.Lit l) s = Some (m, rest) -> m = l) as G.
    { induction l as [| a l IHl]; intros s m rest; cbn.
      - intro H. injection H as <- _. reflexivity.
      - destruct s as [| c s]; [discriminate |].
        destruct (N.eqb_spec c a) as [-> | _]; [| discriminate].
        destruct (re.match_here (map re.Lit l) s) as [[m' rest'] |] eqn:E;
          [| discriminate].
        intro H. injection H as <- _. f_equal. exact (IHl s m' rest' E). }
    intros m. destruct (re.match_here (map re.Lit q) subj) as [[m' rest'] |] eqn:E;
      [| discriminate].
    intro H. injection H as <-. exact (G q subj m' rest' E). }
  induction pre as [| c pre IH].
  - cbn [app]. destruct (q ++ post) eqn:E; cbn [re.search_from];
      unfold re.match_at, literal; cbn [re.atoms re.eol negb orb];
      rewrite <- E, match_here_literal; reflexivity.
  - cbn [app re.search_from].
    destruct (re.match_at (literal q) (c :: pre ++ q ++ post)) as [m |] eqn:E.
    + f_equal. exact (Hat _ _ E).
    + exact IH.
Qed.

Lemma search_literal (q pre post : str) :
  re.search (literal q) (pre ++ q ++ post) = Some q.
Proof. unfold re.search. cbn [re.bol literal]. apply search_from_literal. Qed.

End Escaping.

(** ** Runs and quoted spans anywhere in the input *)

Lemma ends_with_in (p : char -> bool) (u : str) :
  ends_with p u = true -> exists x, In x u /\ p x = true.
Proof.
  destruct u as [| c r]; [discriminate |].
  destruct (@exists_last _ (c :: r)) as (u' & x & E); [discriminate |].
  rewrite E, ends_with_snoc. intro H. exists x. split; [| exact H].
  apply in_or_app. right. left. reflexivity.
Qed.

Section Anywhere.
Context {U : Unicode}.
Import RegexConverter.

Lemma generic_eq (s : str) :
  string_to_regex s true false = Ok (concat (tokens s false [])).
Proof. exact (string_to_regex_generic s false). Qed.

(** Generic mode on a split input, when the prefix ends outside quotes and
    no run crosses the seam. *)
Lemma generic_app (u v : str) :
  open_after false u = false ->
  no_merge u v ->
  string_to_regex (u ++ v) true false
  = Ok (concat (tokens u false []) ++ concat (tokens v false [])).
Proof.
  intros Hopen Hseam. rewrite generic_eq.
  rewrite (tokens_app v (length u) u false []); auto.
  rewrite concat_app. reflexivity.
Qed.

(** A maximal run of one class, between a prefix that ends outside quotes
    and any rest, is emitted as the single token of the run. *)
Lemma run_anywhere (p : char -> bool) (tok : nat -> str)
    (pre : str) (c : char) (run rest : str) :
  p = isspace \/ p = isalpha \/ p = isdigit ->
  (forall p', p' = isspace \/ p' = isalpha \/ p' = isdigit ->
     p' = p \/ forall x, p x = true -> p' x = false) ->
  p quote = false ->
  tokens (c :: run) false [] = [tok (S (length run))] ->
  open_after false pre = false ->
  forallb p (c :: run) = true ->
  ends_with p pre = false ->
  starts_with p rest = false ->
  string_to_regex (pre ++ (c :: run) ++ rest) true false
  = Ok (concat (tokens pre false []) ++ tok (S (length run))
        ++ concat (tokens rest false [])).
Proof.
  intros Hp Hcases Hq Htok Hopen Hall Hpre Hrest.
  assert (Hin : forall x, In x (c :: run) -> p x = true)
    by (apply forallb_forall, Hall).
  rewrite generic_app; [| exact Hopen |].
  - f_equal. f_equal.
    rewrite (tokens_app rest (length (c :: run)) (c :: run) false []);
      [| apply le_n | | reflexivity |].
    + rewrite Htok, concat_app. cbn [concat]. rewrite app_nil_r. reflexivity.
    + cbn [open_after forallb] in *. apply andb_true_iff in Hall.
      rewrite (class_not_quote p c Hq (proj1 Hall)).
      rewrite <- (open_after_skip_run p false run Hq).
      rewrite (run_length_forallb p run (proj2 Hall)), skipn_all. reflexivity.
    + intros p' Hp' Hend. destruct (Hcases p' Hp') as [-> | Hother];
        [exact Hrest |].
      apply ends_with_in in Hend. destruct Hend as (x & Hx & Hpx).
      rewrite (Hother x (Hin x Hx)) in Hpx. discriminate.
  - intros p' Hp' Hend. cbn [app starts_with].
    destruct (Hcases p' Hp') as [-> | Hother]; [congruence |].
    apply Hother, Hin. left. reflexivity.
Qed.

Lemma space_cases (p' : char -> bool) :
  p' = isspace \/ p' = isalpha \/ p' = isdigit ->
  p' = isspace \/ forall x, isspace x = true -> p' x = false.
Proof.
  intros [-> | [-> | ->]]; [left; reflexivity | right | right].
  - apply space_not_alpha.
  - apply space_not_digit.
Qed.

Lemma alpha_cases (p' : char -> bool) :
  p' = isspace \/ p' = isalpha \/ p' = isdigit ->
  p' = isalpha \/ forall x, isalpha x = true -> p' x = false.
Proof.
  intros [-> | [-> | ->]]; [right | left; reflexivity | right].
  - apply not_space_of_alpha.
  - apply alpha_not_digit.
Qed.

Lemma digit_cases (p' : char -> bool) :
  p' = isspace \/ p' = isalpha \/ p' = isdigit ->
  p' = isdigit \/ forall x, isdigit x = true -> p' x = false.
Proof.
  intros [-> | [-> | ->]]; [right | right | left; reflexivity].
  - apply not_space_of_digit.
  - apply not_alpha_of_digit.
Qed.

Lemma space_run_anywhere (pre : str) (c : char) (run rest : str) :
  open_after false pre = false ->
  forallb isspace (c :: run) = true ->
  ends_with isspace pre = false ->
  starts_with isspace rest = false ->
  string_to_regex (pre ++ (c :: run) ++ rest) true false
  = Ok (concat (tokens pre false []) ++ space_token (S (length run))
        ++ concat (tokens rest false [])).
Proof.
  intros Hopen Hall. apply run_anywhere; auto using space_cases, isspace_quote.
  apply tokens_space_run, Hall.
Qed.

Lemma letter_run_anywhere (pre : str) (c : char) (run rest : str) :
  open_after false pre = false ->
  forallb isalpha (c :: run) = true ->
  ends_with isalpha pre = false ->
  starts_with isalpha rest = false ->
  string_to_regex (pre ++ (c :: run) ++ rest) true false
  = Ok (concat (tokens pre false []) ++ letter_token (S (length run))
        ++ concat (tokens rest false [])).
Proof.
  intros Hopen Hall. apply run_anywhere; auto using alpha_cases, isalpha_quote.
  apply tokens_letter_run, Hall.
Qed.

Lemma digit_run_anywhere (pre : str) (c : char) (run rest : str) :
  open_after false pre = false ->
  forallb isdigit (c :: run) = true ->
  ends_with isdigit pre = false ->
  starts_with isdigit rest = false ->
  string_to_regex (pre ++ (c :: run) ++ rest) true false
  = Ok (concat (tokens pre false []) ++ digit_token (S (length run))
        ++ concat (tokens rest false [])).
Proof.
  intros Hopen Hall. apply run_anywhere; auto using digit_cases, isdigit_quote.
  apply tokens_digit_run, Hall.
Qed.

Lemma quoted_anywhere (pre q rest : str) :
  open_after false pre = false ->
  contains q quote = false ->
  string_to_regex (pre ++ quote :: q ++ quote :: rest) true false
  = Ok (concat (tokens pre false []) ++ join_escaped q
        ++ concat (tokens rest false [])).
Proof.
  intros Hopen Hq.
  rewrite generic_app; [| exact Hopen | apply no_merge_before_quote].
  rewrite tokens_equation_2. cbn [N.eqb quote Pos.eqb].
  rewrite (tokens_quoted q rest Hq []). reflexivity.
Qed.

Lemma unterminated_anywhere (pre q : str) :
  open_after false pre = false ->
  contains q quote = false ->
  string_to_regex (pre ++ quote :: q) true false
  = Ok (concat (tokens pre false []) ++ join_escaped q).
Proof.
  intros Hopen Hq.
  rewrite generic_app; [| exact Hopen | apply no_merge_before_quote].
  rewrite tokens_equation_2. cbn [N.eqb quote Pos.eqb].
  rewrite (tokens_unterminated q Hq []). reflexivity.
Qed.

Lemma output_no_quote (s : str) (full_match : bool) :
  exists p,
    string_to_regex s true full_match = Ok p /\ contains p quote = false.
Proof.
  rewrite string_to_regex_generic. eexists. split; [reflexivity |].
  assert (contains (concat (tokens s false [])) quote = false) as H.
  { apply concat_no_quote. intros part.
    apply (tokens_no_quote (length s)); [apply le_n | reflexivity]. }
  destruct full_match; cbn [anchored]; [| exact H].
  rewrite !contains_app, H. reflexivity.
Qed.

Lemma token_shapes :
  (space_token 1 = lit "\s" /\ letter_token 1 = lit "[a-zA-Z]"
   /\ digit_token 1 = lit "\d") /\
  (forall n, 1 < n ->
     space_token n = lit "\s{" ++ str_of_int n ++ lit "}" /\
     letter_token n = lit "[a-zA-Z]{" ++ str_of_int n ++ lit "}" /\
     digit_token n = lit "\d{" ++ str_of_int n ++ lit "}").
Proof.
  split; [repeat split |]. intros n Hn.
  unfold space_token, letter_token, digit_token.
  destruct (Nat.ltb_spec 1 n); [repeat split | lia].
Qed.

End Anywhere.

(** ** The command line *)

Lemma read_test_strings_ok (more : list str) :
  forall (ts acc : list str) (fuel : nat) (out : list str),
    forallb nonempty ts = true ->
    length ts <= fuel ->
    Cli.read_test_strings fuel acc
      {| Cli.stdin := ts ++ [] :: more; Cli.stdout := out |}
    = (Ok (acc ++ ts),
       {| Cli.stdin := more;
          Cli.stdout := out ++ repeat (lit "> ") (S (length ts)) |}).
Proof.
  induction ts as [| t ts IH]; intros acc fuel out Hne Hfuel.
  - rewrite app_nil_r. destruct fuel; reflexivity.
  - cbn [forallb] in Hne. apply andb_true_iff in Hne. destruct Hne as [Ht Hts].
    destruct t as [| c t]; [discriminate |].
    destruct fuel as [| fuel]; [cbn in Hfuel; lia |].
    cbn [length] in Hfuel.
    change (Cli.read_test_strings (S fuel) acc
              {| Cli.stdin := ((c :: t) :: ts) ++ [] :: more;
                 Cli.stdout := out |})
      with (Cli.read_test_strings fuel (acc ++ [c :: t])
              {| Cli.stdin := ts ++ [] :: more;
                 Cli.stdout := out ++ [lit "> "] |}).
    rewrite IH by (try exact Hts; lia).
    rewrite <- !app_assoc. reflexivity.
Qed.

Section CliProofs.
Context {U : Unicode}.
Import RegexConverter.

(** Whenever the user asks for the test loop and enters at least one test
    string, [main] reaches the call of [test_regex] with three positional
    arguments and ends with [TypeError]. *)
Lemma main_test_loop_raises (prog input_string answer t : str)
    (ts more : list str) :
  Cli.lower_startswith_y answer = true ->
  forallb nonempty (t :: ts) = true ->
  exists out,
    Cli.run [prog; input_string] (answer :: (t :: ts) ++ [] :: more)
    = (out, Raise TypeError, 1).
Proof.
  intros Hy Hne. unfold Cli.run, Cli.main.
  unfold Cli.bind_io at 1. cbn [Cli.print].
  unfold Cli.bind_io at 1. cbn [Cli.print].
  unfold Cli.bind_io at 1. cbn [length Nat.ltb Nat.leb Cli.lift nth_error_or_raise nth_error].
  unfold Cli.bind_io at 1. cbn [Cli.lift]. rewrite generic_eq.
  unfold Cli.bind_io at 1. cbn [Cli.print].
  unfold Cli.bind_io at 1. cbn [Cli.print].
  unfold Cli.bind_io at 1. cbn [Cli.input Cli.stdin Cli.stdout].
  rewrite Hy.
  unfold Cli.bind_io at 1. cbn [Cli.print Cli.stdin Cli.stdout].
  unfold Cli.bind_io at 1. cbn [Cli.pending_lines Cli.stdin Cli.stdout].
  unfold Cli.bind_io at 1.
  rewrite (read_test_strings_ok more (t :: ts) []); [| exact Hne |].
  - cbn [app]. unfold Cli.bind_io, Cli.print, Cli.test_regex, Cli.raise.
    eexists. reflexivity.
  - rewrite length_app. cbn [length]. lia.
Qed.

End CliProofs.

(** ** A counted class token compiles to that many atoms *)

Lemma to_uint_nonnil (n : nat) : Nat.to_uint n <> Nil.
Proof.
  rewrite <- (DecimalNat.Unsigned.of_to n) at 1.
  rewrite DecimalNat.Unsigned.to_of. apply DecimalFacts.unorm_nonnil.
Qed.

Lemma parse_digits_uint (rest : str) :
  forall (d : Decimal.uint) (acc : nat) (seen : bool),
    seen = true \/ d <> Nil ->
    re.parse_digits (N.of_nat acc) seen (uint_chars d ++ rbrace :: rest)
    = Some (N.of_nat (Nat.of_uint_acc d acc), rest).
Proof.
  induction d as [| d IH | d IH | d IH | d IH | d IH | d IH | d IH | d IH
                  | d IH | d IH];
    intros acc seen Hseen;
    [ destruct Hseen as [-> | H]; [reflexivity | congruence] | .. ];
    cbn [uint_chars app re.parse_digits Nat.of_uint_acc];
    change (N.eqb _ rbrace) with false; cbn match;
    change (between 48 57 _) with true; cbn match;
    match goal with
    | |- re.parse_digits ?x true _
         = Some (N.of_nat (Nat.of_uint_acc d ?y), _) =>
        replace x with (N.of_nat y) by (rewrite Nat.tail_mul_spec; lia);
        apply IH; left; reflexivity
    end.
Qed.

Lemma parse_repeat_count (n : nat) (rest : str) :
  (N.of_nat n < re.MAXREPEAT)%N ->
  re.parse_repeat (lbrace :: str_of_int n ++ rbrace :: rest) = Some (n, rest).
Proof.
  intro Hn. unfold re.parse_repeat, str_of_int. rewrite N.eqb_refl.
  pose proof (parse_digits_uint rest (Nat.to_uint n) 0 false
                (or_intror (to_uint_nonnil n))) as H.
  change (Nat.of_uint_acc (Nat.to_uint n) 0)
    with (Nat.of_uint (Nat.to_uint n)) in H.
  rewrite DecimalNat.Unsigned.of_to in H. cbn [N.of_nat] in H. rewrite H.
  destruct (N.leb_spec re.MAXREPEAT (N.of_nat n)); [lia |].
  rewrite Nat2N.id. reflexivity.
Qed.

Lemma compile_class_token (h : char) (t : str) (a : re.atom) (n : nat) :
  (forall r, re.parse_atom (h :: t ++ r) = Some (a, r)) ->
  N.eqb h caret = false -> N.eqb h dollar = false ->
  1 <= n -> (N.of_nat n < re.MAXREPEAT)%N ->
  re.compile
    (if 1 <? n then (h :: t) ++ lit "{" ++ str_of_int n ++ lit "}" else h :: t)
  = Some (counted a n).
Proof.
  intros Ha Hc Hd H1 Hn. unfold re.compile.
  destruct (Nat.ltb_spec 1 n) as [Hgt | Hle].
  - cbn [app]. rewrite Hc.
    cbn [length re.parse_items]. rewrite Hd. cbn [andb].
    change (lit "{" ++ str_of_int n ++ lit "}")
      with (lbrace :: str_of_int n ++ rbrace :: []).
    rewrite Ha, (parse_repeat_count n [] Hn).
    destruct (length (t ++ lbrace :: str_of_int n ++ [rbrace])); cbn;
      rewrite app_nil_r; reflexivity.
  - assert (n = 1) as -> by lia. rewrite Hc.
    cbn [length re.parse_items]. rewrite Hd. cbn [andb].
    pose proof (Ha []) as Ha'. rewrite app_nil_r in Ha'. rewrite Ha'. cbn.
    destruct (length t); reflexivity.
Qed.

Section Counted.
Context {U : Unicode}.
Import RegexConverter.

Lemma compile_space_token (n : nat) :
  1 <= n -> (N.of_nat n < re.MAXREPEAT)%N ->
  re.compile (space_token n) = Some (counted re.Space n).
Proof.
  intros. apply (compile_class_token 92%N [115%N]); auto.
Qed.

Lemma compile_letter_token (n : nat) :
  1 <= n -> (N.of_nat n < re.MAXREPEAT)%N ->
  re.compile (letter_token n) = Some (counted re.Letter n).
Proof.
  intros. apply (compile_class_token 91%N (lit "a-zA-Z]")); auto.
Qed.

Lemma compile_digit_token (n : nat) :
  1 <= n -> (N.of_nat n < re.MAXREPEAT)%N ->
  re.compile (digit_token n) = Some (counted re.Digit n).
Proof.
  intros. apply (compile_class_token 92%N [100%N]); auto.
Qed.

Lemma match_here_repeat (a : re.atom) :
  forall (n : nat) (w : str),
    re.match_here (repeat a n) w
    = if (n <=? length w) && forallb (re.atom_matches a) (firstn n w)
      then Some (firstn n w, skipn n w) else None.
Proof.
  induction n as [| n IH]; intro w; cbn [repeat re.match_here].
  - reflexivity.
  - destruct w as [| c w]; [reflexivity |].
    cbn [length firstn skipn forallb]. rewrite IH.
    change (S n <=? S (length w)) with (n <=? length w).
    destruct (re.atom_matches a c); cbn [andb];
      [| rewrite andb_false_r; reflexivity].
    destruct ((n <=? length w) && forallb (re.atom_matches a) (firstn n w));
      reflexivity.
Qed.

(** A counted class pattern matches, as a whole, exactly the strings of
    that length whose characters are all in the class. *)
Lemma fullmatch_counted (a : re.atom) (n : nat) (w : str) :
  re.fullmatch (counted a n) w
  = (length w =? n) && forallb (re.atom_matches a) w.
Proof.
  unfold re.fullmatch, counted. cbn [re.atoms]. rewrite match_here_repeat.
  destruct (Nat.leb_spec n (length w)) as [Hle | Hgt]; cbn [andb].
  - destruct (Nat.eqb_spec (length w) n) as [E | E].
    + subst n. rewrite firstn_all, skipn_all.
      destruct (forallb (re.atom_matches a) w); reflexivity.
    + cbn [andb].
      destruct (forallb (re.atom_matches a) (firstn n w)); [| reflexivity].
      destruct (skipn n w) eqn:Es; [| reflexivity].
      apply skipn_nil_inv in Es. lia.
  - destruct (Nat.eqb_spec (length w) n); [lia | reflexivity].
Qed.

End Counted.

(** ** The properties the specification states *)

(** The escaping, written out on the fourteen special characters. *)
Lemma join_escaped_listed (s : str) :
  RegexConverter.join_escaped s
  = concat
      (map (fun c => if contains listed_special c then [backslash; c]
                     else [c]) s).
Proof.
  unfold RegexConverter.join_escaped. f_equal. apply map_ext. intro c.
  unfold RegexConverter.escape_char. rewrite special_listed. reflexivity.
Qed.

Lemma letter_token_text (run : str) :
  RegexConverter.letter_token (S (length run))
  = match run with
    | [] => lit "[a-zA-Z]"
    | _ :: _ => lit "[a-zA-Z]{" ++ str_of_int (S (length run)) ++ lit "}"
    end.
Proof. destruct run; reflexivity. Qed.

(** On inputs within Latin-1, evaluate with the tables. *)
Ltac to_latin1 :=
  first [ rewrite string_to_regex_latin1 by reflexivity
        | rewrite fullmatch_pattern_latin1 by reflexivity
        | rewrite search_pattern_latin1 by reflexivity
        | rewrite isalpha_latin1 by reflexivity ].

Section Claims.
Context {U : Unicode}.
Import RegexConverter.

(** C1. In generic mode a double quote toggles the quoting sub-mode: the
    text between an opening and a closing quote is emitted as one segment,
    character by character and in order, each character as a backslash and
    the character when it is one of [. ^ $ * + ? ( ) [ ] { } | \] and as
    itself otherwise, so that no letter, digit or space of it is generalised;
    no quote character reaches the output; the input [quote ABC- quote 123]
    yields [ABC-] followed by the digit class with count 3, and a quoted
    [x.y(1)] is emitted as [x\.y\(1\)]. *)
Theorem quoted_span_emitted_escaped :
  (forall pre q rest : str,
      open_after false pre = false ->
      contains q quote = false ->
      exists P R,
        string_to_regex pre true false = Ok P /\
        string_to_regex rest true false = Ok R /\
        string_to_regex (pre ++ quote :: q ++ quote :: rest) true false
        = Ok (P
              ++ concat
                   (map (fun c => if contains listed_special c
                                  then [backslash; c] else [c]) q)
              ++ R)) /\
  (forall (s : str) (full_match : bool),
      exists p,
        string_to_regex s true full_match = Ok p /\
        contains p quote = false) /\
  string_to_regex (quote :: lit "ABC-" ++ quote :: lit "123") true false
  = Ok (lit "ABC-\d{3}") /\
  string_to_regex (lit "a" ++ quote :: lit "x.y(1)" ++ quote :: lit "7")
    true false
  = Ok (lit "[a-zA-Z]x\.y\(1\)\d").
Proof.
  split; [| split].
  - intros pre q rest Hopen Hq.
    exists (concat (tokens pre false [])), (concat (tokens rest false [])).
    split; [apply generic_eq |]. split; [apply generic_eq |].
    rewrite <- join_escaped_listed. apply quoted_anywhere; assumption.
  - apply output_no_quote.
  - split; to_latin1; reflexivity.
Qed.

(** C2. In generic mode a maximal run of letters of length 1 becomes the
    bare letter class and one of length n > 1 the class with count n, and
    likewise for maximal runs of the characters the digit classifier
    [str.isdigit] accepts, which are the decimal digits and more;
    [aaa123] yields [[a-zA-Z]{3}\d{3}], which as a full match accepts
    [aaa123] and rejects [aa123]. *)
Theorem letter_and_digit_runs :
  (forall (pre : str) (c : char) (run rest : str),
      open_after false pre = false ->
      forallb isalpha (c :: run) = true ->
      ends_with isalpha pre = false ->
      starts_with isalpha rest = false ->
      exists P R,
        string_to_regex pre true false = Ok P /\
        string_to_regex rest true false = Ok R /\
        string_to_regex (pre ++ (c :: run) ++ rest) true false
        = Ok (P ++ letter_token (S (length run)) ++ R)) /\
  (forall (pre : str) (c : char) (run rest : str),
      open_after false pre = false ->
      forallb isdigit (c :: run) = true ->
      ends_with isdigit pre = false ->
      starts_with isdigit rest = false ->
      exists P R,
        string_to_regex pre true false = Ok P /\
        string_to_regex rest true false = Ok R /\
        string_to_regex (pre ++ (c :: run) ++ rest) true false
        = Ok (P ++ digit_token (S (length run)) ++ R)) /\
  (letter_token 1 = lit "[a-zA-Z]" /\ digit_token 1 = lit "\d") /\
  (forall n, 1 < n ->
      letter_token n = lit "[a-zA-Z]{" ++ str_of_int n ++ lit "}" /\
      digit_token n = lit "\d{" ++ str_of_int n ++ lit "}") /\
  (forall (n : nat) (w : str),
      1 <= n -> (N.of_nat n < re.MAXREPEAT)%N ->
      re.fullmatch_pattern (letter_token n) w
      = Some ((length w =? n)
              && forallb (fun x => between 97 122 x || between 65 90 x) w) /\
      re.fullmatch_pattern (digit_token n) w
      = Some ((length w =? n) && forallb isdecimal w)) /\
  string_to_regex (lit "aaa123") true false = Ok (lit "[a-zA-Z]{3}\d{3}") /\
  re.fullmatch_pattern (lit "[a-zA-Z]{3}\d{3}") (lit "aaa123") = Some true /\
  re.fullmatch_pattern (lit "[a-zA-Z]{3}\d{3}") (lit "aa123") = Some false /\
  string_to_regex (lit "aaa123") true true = Ok (lit "^[a-zA-Z]{3}\d{3}$") /\
  re.search_pattern (lit "^[a-zA-Z]{3}\d{3}$") (lit "aaa123")
  = Some (Some (lit "aaa123")) /\
  re.search_pattern (lit "^[a-zA-Z]{3}\d{3}$") (lit "aa123") = Some None.
Proof.
  split; [| split; [| split; [| split; [| split]]]].
  - intros pre c run rest Hopen Hall Hpre Hrest.
    exists (concat (tokens pre false [])), (concat (tokens rest false [])).
    split; [apply generic_eq |]. split; [apply generic_eq |].
    apply letter_run_anywhere; assumption.
  - intros pre c run rest Hopen Hall Hpre Hrest.
    exists (concat (tokens pre false [])), (concat (tokens rest false [])).
    split; [apply generic_eq |]. split; [apply generic_eq |].
    apply digit_run_anywhere; assumption.
  - split; reflexivity.
  - intros n Hn. destruct token_shapes as [_ H]. apply (H n Hn).
  - intros n w H1 Hmax. unfold re.fullmatch_pattern.
    rewrite compile_letter_token, compile_digit_token by assumption.
    cbn [option_map]. rewrite !fullmatch_counted. split; reflexivity.
  - repeat apply conj; to_latin1; reflexivity.
Qed.

(** C3. In generic mode a maximal run of whitespace of length 1 outside
    quotes becomes the bare whitespace class and one of length n > 1 the
    class with count n; two spaces yield a pattern that, anchored, matches
    two spaces and neither one nor three. *)
Theorem whitespace_runs_keep_length :
  (forall (pre : str) (c : char) (run rest : str),
      open_after false pre = false ->
      forallb isspace (c :: run) = true ->
      ends_with isspace pre = false ->
      starts_with isspace rest = false ->
      exists P R,
        string_to_regex pre true false = Ok P /\
        string_to_regex rest true false = Ok R /\
        string_to_regex (pre ++ (c :: run) ++ rest) true false
        = Ok (P ++ space_token (S (length run)) ++ R)) /\
  space_token 1 = lit "\s" /\
  (forall n, 1 < n -> space_token n = lit "\s{" ++ str_of_int n ++ lit "}") /\
  (forall (c : char) (run w : str),
      forallb isspace (c :: run) = true ->
      (N.of_nat (S (length run)) < re.MAXREPEAT)%N ->
      exists p,
        string_to_regex (c :: run) true false = Ok p /\
        re.fullmatch_pattern p w
        = Some ((length w =? S (length run)) && forallb isspace w)) /\
  string_to_regex (lit "  ") true false = Ok (lit "\s{2}") /\
  string_to_regex (lit "  ") true true = Ok (lit "^\s{2}$") /\
  re.search_pattern (lit "^\s{2}$") (lit "  ") = Some (Some (lit "  ")) /\
  re.search_pattern (lit "^\s{2}$") (lit " ") = Some None /\
  re.search_pattern (lit "^\s{2}$") (lit "   ") = Some None /\
  re.fullmatch_pattern (lit "\s{2}") (lit "  ") = Some true /\
  re.fullmatch_pattern (lit "\s{2}") (lit " ") = Some false /\
  re.fullmatch_pattern (lit "\s{2}") (lit "   ") = Some false.
Proof.
  split; [| split; [| split; [| split]]].
  - intros pre c run rest Hopen Hall Hpre Hrest.
    exists (concat (tokens pre false [])), (concat (tokens rest false [])).
    split; [apply generic_eq |]. split; [apply generic_eq |].
    apply space_run_anywhere; assumption.
  - reflexivity.
  - intros n Hn. destruct token_shapes as [_ H]. apply (H n Hn).
  - intros c run w Hall Hmax. exists (space_token (S (length run))).
    split.
    + rewrite generic_eq, (tokens_space_run c run Hall). cbn [concat].
      apply f_equal, app_nil_r.
    + unfold re.fullmatch_pattern.
      rewrite compile_space_token by (try exact Hmax; lia).
      cbn [option_map]. rewrite fullmatch_counted. reflexivity.
  - repeat apply conj; to_latin1; reflexivity.
Qed.

(** C4. In literal mode the output is, character by character and in
    order, a backslash and the character when the character is one of
    [. ^ $ * + ? ( ) [ ] { } | \], and the character itself otherwise; a
    string without any of these is returned unchanged. *)
Theorem literal_mode_escapes_each_character (s : str) :
  string_to_regex s false false
  = Ok (concat
          (map (fun c => if contains listed_special c then [backslash; c]
                         else [c]) s)) /\
  (forallb (fun c => negb (contains listed_special c)) s = true ->
   string_to_regex s false false = Ok s).
Proof.
  assert (E : join_escaped s
              = concat
                  (map (fun c => if contains listed_special c
                                 then [backslash; c] else [c]) s)).
  { unfold join_escaped. f_equal. apply map_ext. intro c.
    unfold escape_char. rewrite special_listed. reflexivity. }
  rewrite string_to_regex_literal. cbn [anchored]. split.
  - rewrite E. reflexivity.
  - intro H. f_equal. rewrite E. clear E.
    induction s as [| c s IH]; [reflexivity |].
    cbn [forallb] in H. apply andb_true_iff in H. destruct H as [Hc Hs].
    cbn [map concat]. apply negb_true_iff in Hc. rewrite Hc, (IH Hs).
    reflexivity.
Qed.

(** C5. With [full_match] the result is the start anchor, the result
    without [full_match], and the end anchor. *)
Theorem full_match_wraps_in_anchors (s : str) (g : bool) :
  exists p,
    string_to_regex s g false = Ok p /\
    string_to_regex s g true = Ok ([caret] ++ p ++ [dollar]).
Proof.
  destruct g.
  - exists (concat (tokens s false [])).
    rewrite !string_to_regex_generic. split; reflexivity.
  - exists (join_escaped s). rewrite !string_to_regex_literal.
    split; reflexivity.
Qed.

(** C6. In generic mode an input that ends inside an open quote does not
    raise: the buffered span is flushed, escaped character by character;
    the escaped span compiles to the literal pattern of the span, which
    matches it; [quote abc] yields a pattern matching [abc]. *)
Theorem unterminated_quote_is_flushed :
  (forall pre q : str,
      open_after false pre = false ->
      contains q quote = false ->
      exists P,
        string_to_regex pre true false = Ok P /\
        string_to_regex (pre ++ quote :: q) true false
        = Ok (P ++ join_escaped q)) /\
  (forall q : str,
      re.compile (join_escaped q) = Some (literal q) /\
      re.fullmatch (literal q) q = true /\
      re.search (literal q) q = Some q) /\
  string_to_regex (quote :: lit "abc") true false = Ok (lit "abc") /\
  re.fullmatch_pattern (lit "abc") (lit "abc") = Some true /\
  re.search_pattern (lit "abc") (lit "abc") = Some (Some (lit "abc")).
Proof.
  split; [| split].
  - intros pre q Hopen Hq. exists (concat (tokens pre false [])).
    split; [apply generic_eq |]. apply unterminated_anywhere; assumption.
  - intro q. split; [apply compile_join_escaped |].
    split; [apply fullmatch_literal |].
    pose proof (search_literal q [] []) as H. cbn [app] in H.
    rewrite app_nil_r in H. exact H.
  - repeat apply conj; to_latin1; reflexivity.
Qed.

(** C7. On the empty input, in either mode, the result is the empty
    pattern without [full_match] and exactly the two anchors with it; both
    compile, and both match the empty string. *)
Theorem empty_input_gives_empty_pattern (g : bool) :
  string_to_regex [] g false = Ok [] /\
  string_to_regex [] g true = Ok [caret; dollar] /\
  re.compile [] = Some {| re.bol := false; re.atoms := []; re.eol := false |} /\
  re.compile [caret; dollar]
  = Some {| re.bol := true; re.atoms := []; re.eol := true |} /\
  re.search_pattern [] [] = Some (Some []) /\
  re.search_pattern [caret; dollar] [] = Some (Some []).
Proof. destruct g; repeat apply conj; reflexivity. Qed.

(** C8. [string_to_regex] is total: on every input and both flags it
    returns a pattern, neither raising nor exhausting its budget of one
    iteration per input character; every iteration of the main loop moves
    the cursor strictly forward and never past the end of the input, and
    the loop ends with the cursor at the end. *)
Theorem string_to_regex_is_total :
  (forall (s : str) (g full_match : bool),
      exists p, string_to_regex s g full_match = Ok p) /\
  (forall (s : str) (st : scan),
      length s <= i st \/
      exists st', loop_body s st = Ok st' /\ i st < i st' <= length s) /\
  (forall (s : str) (st : scan),
      length s < i st \/
      exists st', main_loop s st = Ok st' /\ i st' = length s) /\
  (forall (p : char -> bool) (s : str) (i0 : nat),
      exists n, count_run p s i0 = Ok n /\ i0 + n <= Nat.max (length s) (S i0)).
Proof.
  split; [| split; [| split]].
  - intros s g full_match. destruct g.
    + rewrite string_to_regex_generic. eexists. reflexivity.
    + rewrite string_to_regex_literal. eexists. reflexivity.
  - intros s st. destruct (Nat.le_gt_cases (length s) (i st)) as [H | H];
      [left; exact H | right].
    destruct (skipn (i st) s) as [| c r] eqn:E.
    { apply skipn_nil_inv in E. lia. }
    destruct (loop_body_spec s st c r E) as (st' & Hb & Hadv & _).
    exists st'. split; assumption.
  - intros s st. destruct (Nat.le_gt_cases (i st) (length s)) as [H | H];
      [right | left; exact H].
    destruct (main_loop_tokens s (length s) st) as (st' & Hrun & Hend & _);
      [lia | exact H |].
    exists st'. split; assumption.
  - intros p s i0. rewrite count_run_spec. eexists. split; [reflexivity |].
    pose proof (run_length_le p (skipn (S i0) s)) as H.
    rewrite length_skipn in H. lia.
Qed.

(** C9. The command line prints the synthesized pattern and, when the
    user declines the test loop, completes with exit status 0; when the
    user asks for the test loop and enters at least one test string, the
    call of [test_regex] with three arguments raises [TypeError] and the
    process ends with status 1 instead of reporting matches. *)
Theorem cli_test_loop_ends_in_type_error
    (prog input_string answer t : str) (ts more : list str) :
  (Cli.lower_startswith_y answer = false ->
   exists p,
     string_to_regex input_string true false = Ok p /\
     Cli.run [prog; input_string] (answer :: more)
     = ([lit "Convert String to Regular Expression" ++ [newline];
         lit "===================================" ++ [newline];
         (newline :: lit "Regex Pattern:") ++ [newline];
         p ++ [newline];
         newline :: lit "Test this pattern? (y/n): "],
        Ok tt, 0)) /\
  (Cli.lower_startswith_y answer = true ->
   forallb nonempty (t :: ts) = true ->
   exists out,
     Cli.run [prog; input_string] (answer :: (t :: ts) ++ [] :: more)
     = (out, Raise TypeError, 1)).
Proof.
  split.
  - intro Hn. exists (concat (tokens input_string false [])).
    split; [apply generic_eq |].
    unfold Cli.run, Cli.main.
    unfold Cli.bind_io at 1. cbn [Cli.print].
    unfold Cli.bind_io at 1. cbn [Cli.print].
    unfold Cli.bind_io at 1.
    cbn [length Nat.ltb Nat.leb Cli.lift nth_error_or_raise nth_error].
    unfold Cli.bind_io at 1. cbn [Cli.lift]. rewrite generic_eq.
    unfold Cli.bind_io at 1. cbn [Cli.print].
    unfold Cli.bind_io at 1. cbn [Cli.print].
    unfold Cli.bind_io at 1. cbn [Cli.input Cli.stdin Cli.stdout].
    rewrite Hn. reflexivity.
  - apply main_test_loop_raises.
Qed.

(** C10. In generic mode every maximal run of letters outside quotes,
    wherever it stands, is emitted as the fixed text [[a-zA-Z]] when it
    holds one letter and [[a-zA-Z]{n}] when it holds n > 1, whichever
    letters it holds, although the letter classifier accepts letters outside
    ASCII: the pattern of a single such letter does not match it, as for
    U+00E9, and the pattern of three letters of which two are U+00E9 is
    [[a-zA-Z]{3}] and does not match them. *)
Theorem letter_class_ignores_the_letters :
  (forall (pre : str) (c : char) (run rest : str),
      open_after false pre = false ->
      forallb isalpha (c :: run) = true ->
      ends_with isalpha pre = false ->
      starts_with isalpha rest = false ->
      exists P R,
        string_to_regex pre true false = Ok P /\
        string_to_regex rest true false = Ok R /\
        string_to_regex (pre ++ (c :: run) ++ rest) true false
        = Ok (P
              ++ match run with
                 | [] => lit "[a-zA-Z]"
                 | _ :: _ =>
                     lit "[a-zA-Z]{" ++ str_of_int (S (length run)) ++ lit "}"
                 end
              ++ R)) /\
  (forall (c : char) (run : str),
      forallb isalpha (c :: run) = true ->
      string_to_regex (c :: run) true false
      = Ok match run with
           | [] => lit "[a-zA-Z]"
           | _ :: _ =>
               lit "[a-zA-Z]{" ++ str_of_int (S (length run)) ++ lit "}"
           end) /\
  (forall c : char,
      isalpha c = true ->
      (between 97 122 c || between 65 90 c)%bool = false ->
      string_to_regex [c] true false = Ok (lit "[a-zA-Z]") /\
      re.search_pattern (lit "[a-zA-Z]") [c] = Some None) /\
  isalpha 233%N = true /\
  string_to_regex [233%N] true false = Ok (lit "[a-zA-Z]") /\
  re.search_pattern (lit "[a-zA-Z]") [233%N] = Some None /\
  re.fullmatch_pattern (lit "[a-zA-Z]") [233%N] = Some false /\
  string_to_regex [233%N; 116%N; 233%N] true false = Ok (lit "[a-zA-Z]{3}") /\
  re.fullmatch_pattern (lit "[a-zA-Z]{3}") [233%N; 116%N; 233%N] = Some false /\
  re.search_pattern (lit "[a-zA-Z]{3}") [233%N; 116%N; 233%N] = Some None.
Proof.
  assert (Hrun : forall (c : char) (run : str),
             forallb isalpha (c :: run) = true ->
             string_to_regex (c :: run) true false
             = Ok match run with
                  | [] => lit "[a-zA-Z]"
                  | _ :: _ =>
                      lit "[a-zA-Z]{" ++ str_of_int (S (length run))
                      ++ lit "}"
                  end).
  { intros c run Hall. rewrite generic_eq, (tokens_letter_run c run Hall).
    cbn [concat]. rewrite app_nil_r, letter_token_text. reflexivity. }
  split; [| split; [exact Hrun |]].
  { intros pre c run rest Hopen Hall Hpre Hrest.
    exists (concat (tokens pre false [])), (concat (tokens rest false [])).
    split; [apply generic_eq |]. split; [apply generic_eq |].
    rewrite <- letter_token_text. apply letter_run_anywhere; assumption. }
  split.
  - intros c Hc Hascii. split.
    + apply (Hrun c []). cbn [forallb]. rewrite Hc. reflexivity.
    + unfold re.search_pattern.
      change (re.compile (lit "[a-zA-Z]"))
        with (Some {| re.bol := false; re.atoms := [re.Letter];
                      re.eol := false |}).
      cbn [option_map]. unfold re.search. cbn [re.bol re.search_from].
      unfold re.match_at. cbn [re.atoms re.match_here re.atom_matches].
      rewrite Hascii. reflexivity.
  - repeat apply conj; to_latin1; reflexivity.
Qed.

End Claims.

(** ** Instances of the properties on concrete inputs, with the Latin-1
    tables as classifiers *)

Section Witnesses.
Import RegexConverter.

Lemma quoted_span_emitted_escaped_witness :
  exists P R,
    string_to_regex (lit "No: ") true false = Ok P /\
    string_to_regex (lit "42") true false = Ok R /\
    string_to_regex (lit "No: " ++ quote :: lit "A.B" ++ quote :: lit "42")
      true false
    = Ok (P ++ lit "A\.B" ++ R).
Proof.
  exact (proj1 (@quoted_span_emitted_escaped latin1)
           (lit "No: ") (lit "A.B") (lit "42") eq_refl eq_refl).
Defined.

Lemma letter_and_digit_runs_witness :
  (exists P R,
      string_to_regex (lit "x-") true false = Ok P /\
      string_to_regex (lit "12") true false = Ok R /\
      string_to_regex (lit "x-" ++ lit "abc" ++ lit "12") true false
      = Ok (P ++ letter_token 3 ++ R)) /\
  (exists P R,
      string_to_regex (lit "ab ") true false = Ok P /\
      string_to_regex (lit ".") true false = Ok R /\
      string_to_regex (lit "ab " ++ lit "2024" ++ lit ".") true false
      = Ok (P ++ digit_token 4 ++ R)).
Proof.
  split.
  - exact (proj1 (@letter_and_digit_runs latin1)
             (lit "x-") 97%N (lit "bc") (lit "12")
             eq_refl eq_refl eq_refl eq_refl).
  - exact (proj1 (proj2 (@letter_and_digit_runs latin1))
             (lit "ab ") 50%N (lit "024") (lit ".")
             eq_refl eq_refl eq_refl eq_refl).
Defined.

(** In [12] followed by U+00B2 the decimal digits [12] are a maximal run
    of decimal digits, of length 2, and the digit class is emitted with
    count 3: runs are runs of [str.isdigit], which accepts U+00B2. *)
Lemma decimal_digit_runs_counterexample :
  forallb (@isdecimal latin1) (lit "12") = true /\
  @isdecimal latin1 178%N = false /\
  @isdigit latin1 178%N = true /\
  string_to_regex (lit "12" ++ [178%N]) true false = Ok (lit "\d{3}") /\
  ~ @decimal_runs_as_specified latin1.
Proof.
  repeat (split; [reflexivity |]). intro H.
  destruct (H [] 49%N [50%N] [178%N] eq_refl eq_refl eq_refl eq_refl)
    as (P & R & HP & HR & E).
  change (Ok [] = Ok P) in HP. injection HP as <-.
  change (Ok (lit "\d") = Ok R) in HR. injection HR as <-.
  discriminate E.
Qed.

Lemma whitespace_runs_keep_length_witness :
  exists P R,
    string_to_regex (lit "a") true false = Ok P /\
    string_to_regex (lit "b") true false = Ok R /\
    string_to_regex (lit "a" ++ lit "   " ++ lit "b") true false
    = Ok (P ++ space_token 3 ++ R).
Proof.
  exact (proj1 (@whitespace_runs_keep_length latin1)
           (lit "a") 32%N (lit "  ") (lit "b")
           eq_refl eq_refl eq_refl eq_refl).
Defined.

Lemma literal_mode_escapes_each_character_witness :
  string_to_regex (lit "Invoice No 42") false false
  = Ok (lit "Invoice No 42").
Proof.
  exact (proj2 (@literal_mode_escapes_each_character latin1
                  (lit "Invoice No 42")) eq_refl).
Defined.

Lemma unterminated_quote_is_flushed_witness :
  exists P,
    string_to_regex (lit "12 ") true false = Ok P /\
    string_to_regex (lit "12 " ++ quote :: lit "a.b") true false
    = Ok (P ++ join_escaped (lit "a.b")).
Proof.
  exact (proj1 (@unterminated_quote_is_flushed latin1)
           (lit "12 ") (lit "a.b") eq_refl eq_refl).
Defined.

Lemma cli_test_loop_ends_in_type_error_witness :
  exists out,
    Cli.run [lit "convert_regex.py"; lit "abc"] [lit "y"; lit "abc"; []]
    = (out, Raise TypeError, 1).
Proof.
  exact (proj2 (@cli_test_loop_ends_in_type_error latin1
                  (lit "convert_regex.py") (lit "abc") (lit "y") (lit "abc")
                  [] [])
           eq_refl eq_refl).
Defined.

Lemma letter_class_ignores_the_letters_witness :
  (exists P R,
      string_to_regex (lit "1 ") true false = Ok P /\
      string_to_regex (lit "!") true false = Ok R /\
      string_to_regex (lit "1 " ++ [233%N; 116%N; 233%N] ++ lit "!") true false
      = Ok (P ++ lit "[a-zA-Z]{3}" ++ R)) /\
  string_to_regex [233%N; 116%N; 233%N] true false = Ok (lit "[a-zA-Z]{3}") /\
  (string_to_regex [233%N] true false = Ok (lit "[a-zA-Z]") /\
   re.search_pattern (lit "[a-zA-Z]") [233%N] = Some None).
Proof.
  split; [| split].
  - exact (proj1 (@letter_class_ignores_the_letters latin1)
             (lit "1 ") 233%N [116%N; 233%N] (lit "!")
             eq_refl eq_refl eq_refl eq_refl).
  - exact (proj1 (proj2 (@letter_class_ignores_the_letters latin1))
             233%N [116%N; 233%N] eq_refl).
  - exact (proj1 (proj2 (proj2 (@letter_class_ignores_the_letters latin1)))
             233%N eq_refl eq_refl).
Defined.

End Witnesses.

(** ** The parser of the engine, free of its budget *)

Lemma strip_prefix_length (pre s r : str) :
  re.strip_prefix pre s = Some r -> length r + length pre = length s.
Proof.
  revert s. induction pre as [| a pre IH]; intros s H; cbn in H.
  - injection H as <-. cbn. lia.
  - destruct s as [| b s]; [discriminate |].
    destruct (N.eqb a b); [| discriminate].
    apply IH in H. cbn. lia.
Qed.

Lemma parse_atom_shorter (p : str) (a : re.atom) (r : str) :
  re.parse_atom p = Some (a, r) -> length r < length p.
Proof.
  unfold re.parse_atom. destruct p as [| c p]; [discriminate |].
  destruct (N.eqb c backslash).
  - destruct p as [| e p]; [discriminate |].
    destruct (N.eqb e 115); [intro H; injection H as _ <-; cbn; lia |].
    destruct (N.eqb e 100); [intro H; injection H as _ <-; cbn; lia |].
    destruct (contains re.metachars e); [| discriminate].
    intro H; injection H as _ <-; cbn; lia.
  - destruct (N.eqb c 91).
    + destruct (re.strip_prefix (lit "a-zA-Z]") p) as [r' |] eqn:E;
        [| discriminate].
      intro H; injection H as _ <-. apply strip_prefix_length in E.
      cbn [length]. lia.
    + destruct (contains re.metachars c); [discriminate |].
      intro H; injection H as _ <-; cbn; lia.
Qed.

Lemma parse_digits_shorter (p : str) :
  forall acc seen n r,
    re.parse_digits acc seen p = Some (n, r) -> length r < length p.
Proof.
  induction p as [| c p IH]; intros acc seen n r; cbn [re.parse_digits];
    [discriminate |].
  destruct (N.eqb c rbrace).
  - destruct seen; [| discriminate]. intro H; injection H as _ <-. cbn. lia.
  - destruct (between 48 57 c); [| discriminate].
    intro H. apply IH in H. cbn. lia.
Qed.

Lemma parse_repeat_shorter (p : str) (n : nat) (r : str) :
  re.parse_repeat p = Some (n, r) -> length r <= length p.
Proof.
  unfold re.parse_repeat. destruct p as [| c p].
  - intro H; injection H as _ <-. apply le_n.
  - destruct (N.eqb c lbrace).
    + destruct (re.parse_digits 0 false p) as [[k r'] |] eqn:E;
        [| discriminate].
      destruct (N.leb re.MAXREPEAT k); [discriminate |].
      intro H; injection H as _ <-. apply parse_digits_shorter in E.
      cbn. lia.
    + intro H; injection H as _ <-. apply le_n.
Qed.


Lemma parse_items_fuel :
  forall fuel fuel' p,
    length p <= fuel -> length p <= fuel' ->
    re.parse_items fuel p = re.parse_items fuel' p.
Proof.
  induction fuel as [| fuel IH]; intros fuel' p Hp Hp'.
  - destruct p; [destruct fuel'; reflexivity | cbn in Hp; lia].
  - destruct p as [| c r]; [destruct fuel'; reflexivity |].
    destruct fuel' as [| fuel']; [cbn in Hp'; lia |].
    cbn [length re.parse_items] in *.
    destruct (N.eqb c dollar && match r with [] => true | _ :: _ => false end);
      [reflexivity |].
    destruct (re.parse_atom (c :: r)) as [[a p1] |] eqn:Ea; [| reflexivity].
    destruct (re.parse_repeat p1) as [[n p2] |] eqn:Er; [| reflexivity].
    apply parse_atom_shorter in Ea. apply parse_repeat_shorter in Er.
    cbn [length] in Ea. rewrite (IH fuel' p2) by lia. reflexivity.
Qed.

Lemma parse_items_enough (fuel : nat) (p : str) :
  length p <= fuel -> re.parse_items fuel p = parse p.
Proof. intro H. apply parse_items_fuel; [exact H | apply le_n]. Qed.

(** One step of the parser: an atom, its count, the rest. *)
Lemma parse_step (p p1 p2 : str) (a : re.atom) (n : nat) :
  match p with
  | c :: r => (N.eqb c dollar
               && match r with [] => true | _ :: _ => false end) = false
  | [] => False
  end ->
  re.parse_atom p = Some (a, p1) ->
  re.parse_repeat p1 = Some (n, p2) ->
  parse p
  = match parse p2 with
    | Some (l, e) => Some (repeat a n ++ l, e)
    | None => None
    end.
Proof.
  intros Hd Ha Hr. destruct p as [| c r]; [destruct Hd |].
  unfold parse at 1. cbn [length re.parse_items]. rewrite Hd, Ha, Hr.
  apply parse_atom_shorter in Ha. apply parse_repeat_shorter in Hr.
  cbn [length] in Ha. rewrite parse_items_enough by lia. reflexivity.
Qed.

Lemma compile_parse (pattern : str) :
  re.compile pattern
  = match pattern with
    | c :: r =>
        if N.eqb c caret
        then match parse r with
             | Some (l, e) =>
                 Some {| re.bol := true; re.atoms := l; re.eol := e |}
             | None => None
             end
        else match parse pattern with
             | Some (l, e) =>
                 Some {| re.bol := false; re.atoms := l; re.eol := e |}
             | None => None
             end
    | [] => Some {| re.bol := false; re.atoms := []; re.eol := false |}
    end.
Proof.
  unfold re.compile, parse. destruct pattern as [| c r]; [reflexivity |].
  destruct (N.eqb c caret); reflexivity.
Qed.


Lemma prepend_app (l1 l2 : list re.atom) x :
  prepend (l1 ++ l2) x = prepend l1 (prepend l2 x).
Proof. destruct x as [[l e] |]; cbn; [rewrite app_assoc |]; reflexivity. Qed.

Lemma prepend_nil x : prepend [] x = x.
Proof. destruct x as [[l e] |]; reflexivity. Qed.

Lemma parse_repeat_bare (tail : str) :
  safe_head tail -> re.parse_repeat tail = Some (1, tail).
Proof.
  unfold re.parse_repeat. destruct tail as [| h t]; [reflexivity |].
  cbn. intros ->. reflexivity.
Qed.

Section TokenParsing.
Import RegexConverter.

Lemma escape_char_head (c : char) (x : char) :
  In x listed_special -> x <> backslash ->
  exists h t, escape_char c = h :: t /\ N.eqb h x = false.
Proof.
  intros Hx Hb. unfold escape_char.
  destruct (contains regex_special_chars c) eqn:E.
  - exists backslash, [c]. split; [reflexivity |].
    apply N.eqb_neq. congruence.
  - exists c, []. split; [reflexivity |]. apply (not_special_neq c x E Hx).
Qed.

Lemma parse_escape_char (c : char) (tail : str) :
  safe_head tail ->
  parse (escape_char c ++ tail) = prepend [re.Lit c] (parse tail).
Proof.
  intro Ht.
  rewrite (parse_step (escape_char c ++ tail) tail tail (re.Lit c) 1).
  - reflexivity.
  - destruct (escape_char_head c dollar) as (h & t & -> & H);
      [cbn; tauto | discriminate |].
    cbn [app]. rewrite H. reflexivity.
  - apply parse_atom_escape.
  - apply parse_repeat_bare, Ht.
Qed.

Lemma safe_head_escape (c : char) (tail : str) :
  safe_head (escape_char c ++ tail).
Proof.
  destruct (escape_char_head c lbrace) as (h & t & -> & H);
    [cbn; tauto | discriminate |].
  exact H.
Qed.

Lemma safe_head_join_escaped (q tail : str) :
  safe_head tail -> safe_head (join_escaped q ++ tail).
Proof.
  intro Ht. destruct q as [| c q]; [exact Ht |].
  unfold join_escaped. cbn [map concat]. rewrite <- app_assoc.
  apply safe_head_escape.
Qed.

Lemma parse_join_escaped (q tail : str) :
  safe_head tail ->
  parse (join_escaped q ++ tail) = prepend (map re.Lit q) (parse tail).
Proof.
  intro Ht. induction q as [| c q IH].
  - cbn. rewrite prepend_nil. reflexivity.
  - unfold join_escaped. cbn [map concat]. rewrite <- app_assoc.
    fold (join_escaped q).
    rewrite parse_escape_char by (apply safe_head_join_escaped, Ht).
    rewrite IH. rewrite <- prepend_app. reflexivity.
Qed.

Lemma parse_class_token (h : char) (t : str) (a : re.atom) (n : nat)
    (tail : str) :
  (forall r, re.parse_atom (h :: t ++ r) = Some (a, r)) ->
  N.eqb h dollar = false ->
  1 <= n -> (N.of_nat n < re.MAXREPEAT)%N ->
  safe_head tail ->
  parse ((if 1 <? n then (h :: t) ++ lit "{" ++ str_of_int n ++ lit "}"
          else h :: t) ++ tail)
  = prepend (repeat a n) (parse tail).
Proof.
  intros Ha Hd H1 Hn Ht. destruct (Nat.ltb_spec 1 n) as [Hgt | Hle].
  - rewrite (parse_step _ (lbrace :: str_of_int n ++ rbrace :: tail) tail a n).
    + reflexivity.
    + cbn [app]. rewrite Hd. reflexivity.
    + replace (((h :: t) ++ lit "{" ++ str_of_int n ++ lit "}") ++ tail)
        with (h :: t ++ lbrace :: str_of_int n ++ rbrace :: tail);
        [apply Ha |].
      cbn [app]. f_equal. rewrite <- !app_assoc. reflexivity.
    + apply parse_repeat_count, Hn.
  - assert (n = 1) as -> by lia.
    rewrite (parse_step _ tail tail a 1).
    + reflexivity.
    + cbn [app]. rewrite Hd. reflexivity.
    + apply Ha.
    + apply parse_repeat_bare, Ht.
Qed.

Lemma parse_space_token (n : nat) (tail : str) :
  1 <= n -> (N.of_nat n < re.MAXREPEAT)%N -> safe_head tail ->
  parse (space_token n ++ tail) = prepend (repeat re.Space n) (parse tail).
Proof. intros. apply (parse_class_token 92%N [115%N]); auto. Qed.

Lemma parse_letter_token (n : nat) (tail : str) :
  1 <= n -> (N.of_nat n < re.MAXREPEAT)%N -> safe_head tail ->
  parse (letter_token n ++ tail) = prepend (repeat re.Letter n) (parse tail).
Proof. intros. apply (parse_class_token 91%N (lit "a-zA-Z]")); auto. Qed.

Lemma parse_digit_token (n : nat) (tail : str) :
  1 <= n -> (N.of_nat n < re.MAXREPEAT)%N -> safe_head tail ->
  parse (digit_token n ++ tail) = prepend (repeat re.Digit n) (parse tail).
Proof. intros. apply (parse_class_token 92%N [100%N]); auto. Qed.

Lemma safe_head_token (tok : nat -> str) (n : nat) (tail : str) :
  tok = space_token \/ tok = letter_token \/ tok = digit_token ->
  safe_head (tok n ++ tail).
Proof.
  intros [-> | [-> | ->]]; unfold space_token, letter_token, digit_token;
    destruct (1 <? n); reflexivity.
Qed.

End TokenParsing.

(** ** The synthesized pattern against its own example *)


Section EngineLemmas.
Context {U : Unicode}.

Lemma atoms_match_app (l1 l2 : list re.atom) (t1 t2 : str) :
  length l1 = length t1 ->
  atoms_match (l1 ++ l2) (t1 ++ t2)
  = atoms_match l1 t1 && atoms_match l2 t2.
Proof.
  revert t1. induction l1 as [| a l1 IH]; intros [| x t1] H;
    try discriminate; cbn in *; [reflexivity |].
  rewrite IH by congruence. apply andb_assoc.
Qed.

Lemma atoms_match_here (l : list re.atom) (text w : str) :
  atoms_match l text = true -> re.match_here l (text ++ w) = Some (text, w).
Proof.
  revert text. induction l as [| a l IH]; intros [| x text] H;
    try discriminate; cbn in *; [reflexivity |].
  apply andb_true_iff in H. destruct H as [Ha H].
  rewrite Ha, (IH text H). reflexivity.
Qed.

Lemma atoms_match_length (l : list re.atom) (text : str) :
  atoms_match l text = true -> length l = length text.
Proof.
  revert text. induction l as [| a l IH]; intros [| x text] H;
    try discriminate; cbn in *; [reflexivity |].
  apply andb_true_iff in H. f_equal. apply IH, H.
Qed.

Lemma atoms_match_literal (q : str) : atoms_match (map re.Lit q) q = true.
Proof.
  induction q as [| c q IH]; [reflexivity |]. cbn.
  rewrite N.eqb_refl. exact IH.
Qed.

Lemma atoms_match_repeat (a : re.atom) (run : str) :
  atoms_match (repeat a (length run)) run = forallb (re.atom_matches a) run.
Proof.
  induction run as [| c run IH]; [reflexivity |].
  cbn [length repeat atoms_match forallb]. rewrite IH. reflexivity.
Qed.

Lemma forallb_ext_in (f g : char -> bool) (l : str) :
  (forall x, In x l -> f x = g x) -> forallb f l = forallb g l.
Proof.
  induction l as [| c l IH]; intro H; [reflexivity |]. cbn [forallb].
  rewrite (H c (or_introl eq_refl)), IH; [reflexivity |].
  intros x Hx. apply H. right. exact Hx.
Qed.

Lemma firstn_run_all (p : char -> bool) (r : str) (x : char) :
  In x (firstn (run_length p r) r) -> p x = true.
Proof.
  induction r as [| c r IH]; cbn [run_length]; [intros [] |].
  destruct (p c) eqn:Ec; [| intros []].
  cbn [firstn]. intros [<- | Hx]; [exact Ec | apply IH, Hx].
Qed.

(** A run, read on the input: none of its characters is a quote, and the
    agreement of scanner and engine splits over the run and what follows. *)
Lemma engine_classes_run (p : char -> bool) (r : str) :
  p quote = false ->
  engine_classes false r
  = forallb engine_agrees (firstn (run_length p r) r)
    && engine_classes false (skipn (run_length p r) r).
Proof.
  intro Hq. induction r as [| c r IH]; cbn [run_length]; [reflexivity |].
  destruct (p c) eqn:Ec; [| reflexivity].
  cbn [firstn skipn forallb engine_classes].
  rewrite (class_not_quote p c Hq Ec), IH. apply andb_assoc.
Qed.

Lemma unquoted_run (p : char -> bool) (r : str) :
  p quote = false ->
  unquoted r
  = firstn (run_length p r) r ++ unquoted (skipn (run_length p r) r).
Proof.
  intro Hq. induction r as [| c r IH]; cbn [run_length]; [reflexivity |].
  destruct (p c) eqn:Ec; [| reflexivity].
  cbn [firstn skipn app]. unfold unquoted at 1. cbn [filter].
  rewrite (class_not_quote p c Hq Ec). cbn [negb]. f_equal. exact IH.
Qed.

Lemma length_firstn_run (p : char -> bool) (r : str) :
  length (firstn (run_length p r) r) = run_length p r.
Proof. apply firstn_length_le, run_length_le. Qed.

End EngineLemmas.

Lemma emits_nil : emits [] [].
Proof. intros tail Ht. cbn. rewrite prepend_nil. auto. Qed.

Lemma emits_app (o1 o2 : str) (l1 l2 : list re.atom) :
  emits o1 l1 -> emits o2 l2 -> emits (o1 ++ o2) (l1 ++ l2).
Proof.
  intros H1 H2 tail Ht. destruct (H2 tail Ht) as [P2 S2].
  destruct (H1 (o2 ++ tail) S2) as [P1 S1]. rewrite <- app_assoc.
  split; [| exact S1]. rewrite P1, P2. symmetry. apply prepend_app.
Qed.

(** ** What the scan emits, as the engine parses it *)

Section EngineTokens.
Context {U : Unicode}.
Import RegexConverter.

Lemma emits_join_escaped (q : str) : emits (join_escaped q) (map re.Lit q).
Proof.
  intros tail Ht. split;
    [apply parse_join_escaped, Ht | apply safe_head_join_escaped, Ht].
Qed.

Lemma emits_escape_char (c : char) : emits (escape_char c) [re.Lit c].
Proof.
  intros tail Ht. split;
    [apply parse_escape_char, Ht | apply safe_head_escape].
Qed.

Lemma emits_space_token (k : nat) :
  1 <= k -> (N.of_nat k < re.MAXREPEAT)%N ->
  emits (space_token k) (repeat re.Space k).
Proof.
  intros H1 Hk tail Ht. split; [apply parse_space_token; assumption |].
  apply safe_head_token. auto.
Qed.

Lemma emits_letter_token (k : nat) :
  1 <= k -> (N.of_nat k < re.MAXREPEAT)%N ->
  emits (letter_token k) (repeat re.Letter k).
Proof.
  intros H1 Hk tail Ht. split; [apply parse_letter_token; assumption |].
  apply safe_head_token. auto.
Qed.

Lemma emits_digit_token (k : nat) :
  1 <= k -> (N.of_nat k < re.MAXREPEAT)%N ->
  emits (digit_token k) (repeat re.Digit k).
Proof.
  intros H1 Hk tail Ht. split; [apply parse_digit_token; assumption |].
  apply safe_head_token. auto.
Qed.

Lemma space_agrees (x : char) :
  isspace x = true -> re.atom_matches re.Space x = engine_agrees x.
Proof.
  intro H. unfold engine_agrees. cbn [re.atom_matches].
  rewrite H, (space_not_alpha x H), (space_not_digit x H). reflexivity.
Qed.

Lemma letter_agrees (x : char) :
  isalpha x = true -> re.atom_matches re.Letter x = engine_agrees x.
Proof.
  intro H. unfold engine_agrees, ascii_letter. cbn [re.atom_matches].
  rewrite H, (alpha_not_digit x H). cbn [implb]. symmetry. apply andb_true_r.
Qed.

Lemma digit_agrees (x : char) :
  isdigit x = true -> re.atom_matches re.Digit x = engine_agrees x.
Proof.
  intro H. unfold engine_agrees. cbn [re.atom_matches].
  rewrite H, (not_alpha_of_digit x H). reflexivity.
Qed.

(** What the scan emits, from any position: it parses to atoms, one per
    character of the text left to read, and the atoms match that text
    exactly when scanner and engine agree on it. *)
Lemma tokens_parse_match :
  forall n rest inq buf,
    length rest <= n ->
    (inq = false -> buf = []) ->
    (N.of_nat (length rest) < re.MAXREPEAT)%N ->
    exists l,
      emits (concat (tokens rest inq buf)) l /\
      length l = length (buf ++ unquoted rest) /\
      atoms_match l (buf ++ unquoted rest) = engine_classes inq rest.
Proof.
  assert (Hflush : forall buf inq,
    exists l,
      emits (concat (flush_buffer buf)) l /\
      length l = length (buf ++ unquoted []) /\
      atoms_match l (buf ++ unquoted []) = engine_classes inq []).
  { intros buf inq. exists (map re.Lit buf). unfold flush_buffer.
    cbn [unquoted filter]. rewrite app_nil_r.
    split; [| split; [apply length_map | apply atoms_match_literal]].
    destruct buf as [| b buf']; [apply emits_nil |].
    cbn [concat]. rewrite app_nil_r. apply emits_join_escaped. }
  induction n as [| n IH]; intros rest inq buf Hlen Hbuf Hmax.
  - destruct rest; [| cbn in Hlen; lia]. rewrite tokens_equation_1.
    apply Hflush.
  - destruct rest as [| c r]; [rewrite tokens_equation_1; apply Hflush |].
    cbn [length] in Hlen, Hmax.
    assert (Hrun : forall (p : char -> bool) (tok : nat -> str) (a : re.atom),
              (forall k, 1 <= k -> (N.of_nat k < re.MAXREPEAT)%N ->
                   emits (tok k) (repeat a k)) ->
              (forall x, p x = true -> re.atom_matches a x = engine_agrees x) ->
              p quote = false -> p c = true -> inq = false ->
              N.eqb c quote = false ->
              exists l,
                emits (concat (tok (S (run_length p r))
                               :: tokens (skipn (run_length p r) r) false buf))
                  l /\
                length l = length (buf ++ unquoted (c :: r)) /\
                atoms_match l (buf ++ unquoted (c :: r))
                = engine_classes inq (c :: r)).
    { intros p tok a Hemit Hatom Hq Hc Hinq Hcq.
      pose proof (run_length_le p r) as Hk.
      destruct (IH (skipn (run_length p r) r) false buf)
        as (l2 & E2 & L2 & M2);
        [rewrite length_skipn; lia | exact (fun _ => Hbuf Hinq)
        | rewrite length_skipn; lia |].
      exists (repeat a (S (run_length p r)) ++ l2).
      cbn [concat]. rewrite (Hbuf Hinq) in *. cbn [app] in *.
      assert (Eu : unquoted (c :: r)
                   = (c :: firstn (run_length p r) r)
                     ++ unquoted (skipn (run_length p r) r)).
      { unfold unquoted at 1. cbn [filter]. rewrite Hcq. cbn [negb app].
        f_equal. apply unquoted_run, Hq. }
      assert (El : length (repeat a (S (run_length p r)))
                   = length (c :: firstn (run_length p r) r)).
      { rewrite repeat_length. cbn [length]. rewrite length_firstn_run.
        reflexivity. }
      split; [| split].
      - apply emits_app; [apply Hemit; lia | exact E2].
      - rewrite Eu, !length_app, El, L2. reflexivity.
      - rewrite Hinq, Eu, atoms_match_app, M2 by exact El.
        cbn [engine_classes]. rewrite Hcq.
        rewrite (engine_classes_run p r Hq), andb_assoc. f_equal.
        rewrite <- (length_firstn_run p r) at 1.
        change (S (length (firstn (run_length p r) r)))
          with (length (c :: firstn (run_length p r) r)).
        rewrite atoms_match_repeat.
        change (engine_agrees c
                && forallb engine_agrees (firstn (run_length p r) r))
          with (forallb engine_agrees (c :: firstn (run_length p r) r)).
        apply forallb_ext_in. intros x [<- | Hx]; apply Hatom;
          [exact Hc | exact (firstn_run_all p r x Hx)]. }
    rewrite tokens_equation_2.
    destruct (N.eqb c quote) eqn:Hcq.
    { assert (Eu : unquoted (c :: r) = unquoted r)
        by (unfold unquoted; cbn [filter]; rewrite Hcq; reflexivity).
      rewrite Eu. cbn [engine_classes]. rewrite Hcq. destruct inq.
      - destruct (IH r false []) as (l2 & E2 & L2 & M2);
          [lia | reflexivity | lia |].
        exists (map re.Lit buf ++ l2). cbn [concat].
        split; [| split].
        + apply emits_app; [apply emits_join_escaped | exact E2].
        + rewrite !length_app, length_map, L2. reflexivity.
        + rewrite atoms_match_app by apply length_map.
          rewrite atoms_match_literal. exact M2.
      - rewrite (Hbuf eq_refl) in *.
        destruct (IH r true []) as (l2 & E2 & L2 & M2);
          [lia | discriminate | lia |].
        exists l2. auto. }
    destruct inq.
    { destruct (IH r true (buf ++ [c])) as (l2 & E2 & L2 & M2);
        [lia | discriminate | lia |].
      assert (Eu : buf ++ unquoted (c :: r) = (buf ++ [c]) ++ unquoted r).
      { unfold unquoted at 1. cbn [filter]. rewrite Hcq. cbn [negb].
        rewrite <- app_assoc. reflexivity. }
      exists l2. rewrite Eu. cbn [engine_classes]. rewrite Hcq. auto. }
    destruct (isspace c) eqn:Hs.
    { apply (Hrun isspace space_token re.Space);
        auto using isspace_quote, emits_space_token, space_agrees. }
    destruct (isalpha c) eqn:Ha.
    { apply (Hrun isalpha letter_token re.Letter);
        auto using isalpha_quote, emits_letter_token, letter_agrees. }
    destruct (isdigit c) eqn:Hd.
    { apply (Hrun isdigit digit_token re.Digit);
        auto using isdigit_quote, emits_digit_token, digit_agrees. }
    rewrite (Hbuf eq_refl) in *.
    destruct (IH r false []) as (l2 & E2 & L2 & M2);
      [lia | reflexivity | lia |].
    exists ([re.Lit c] ++ l2). cbn [concat].
    assert (Eu : unquoted (c :: r) = c :: unquoted r)
      by (unfold unquoted; cbn [filter]; rewrite Hcq; reflexivity).
    rewrite Eu. cbn [app length]. split; [| split].
    + apply (emits_app _ _ [re.Lit c] l2);
        [apply emits_escape_char | exact E2].
    + f_equal. exact L2.
    + cbn [engine_classes atoms_match re.atom_matches].
      unfold engine_agrees.
      rewrite Hcq, N.eqb_refl, Ha, Hd. cbn [implb andb]. exact M2.
Qed.

End EngineTokens.

(** ** Matching, on compiled patterns *)

Section EngineFacts.
Context {U : Unicode}.

Lemma match_here_length (l : list re.atom) :
  forall subject m rest,
    re.match_here l subject = Some (m, rest) ->
    length m = length l /\ subject = m ++ rest.
Proof.
  induction l as [| a l IH]; intros subject m rest; cbn.
  - intro H. injection H as <- <-. split; reflexivity.
  - destruct subject as [| c subject]; [discriminate |].
    destruct (re.atom_matches a c); [| discriminate].
    destruct (re.match_here l subject) as [[m' rest'] |] eqn:E;
      [| discriminate].
    intro H. injection H as <- <-. destruct (IH _ _ _ E) as [L S].
    cbn. split; [f_equal; exact L | f_equal; exact S].
Qed.

Lemma match_at_length (r : re.regex) (subject m : str) :
  re.match_at r subject = Some m -> length m = length (re.atoms r).
Proof.
  unfold re.match_at.
  destruct (re.match_here (re.atoms r) subject) as [[m' rest] |] eqn:E;
    [| discriminate].
  destruct (negb (re.eol r) || re.at_end rest); [| discriminate].
  intro H. injection H as <-. apply (match_here_length _ _ _ _ E).
Qed.

(** A search succeeds on any text that holds a match somewhere. *)
Lemma search_from_finds (r : re.regex) (here : str) (m0 : str) :
  re.match_at r here = Some m0 ->
  forall pre,
    exists m, re.search_from r (pre ++ here) = Some m /\
              length m = length (re.atoms r).
Proof.
  intros H pre. induction pre as [| c pre IH].
  - exists m0. cbn [app]. split; [| exact (match_at_length _ _ _ H)].
    destruct here; cbn [re.search_from]; rewrite H; reflexivity.
  - cbn [app re.search_from].
    destruct (re.match_at r (c :: pre ++ here)) as [m |] eqn:E.
    + exists m. split; [reflexivity | exact (match_at_length _ _ _ E)].
    + exact IH.
Qed.

Lemma atoms_match_literal_inv (s w : str) :
  atoms_match (map re.Lit s) w = true -> w = s.
Proof.
  revert w. induction s as [| c s IH]; intros [| x w] H; try discriminate;
    [reflexivity |].
  cbn in H. apply andb_true_iff in H. destruct H as [Hx H].
  apply N.eqb_eq in Hx. subst x. f_equal. apply IH, H.
Qed.

Lemma match_here_atoms_match (l : list re.atom) :
  forall subject m rest,
    re.match_here l subject = Some (m, rest) -> atoms_match l m = true.
Proof.
  induction l as [| a l IH]; intros subject m rest; cbn.
  - intro H. injection H as <- _. reflexivity.
  - destruct subject as [| c subject]; [discriminate |].
    destruct (re.atom_matches a c) eqn:Ea; [| discriminate].
    destruct (re.match_here l subject) as [[m' rest'] |] eqn:E;
      [| discriminate].
    intro H. injection H as <- _. cbn. rewrite Ea. exact (IH _ _ _ E).
Qed.

Lemma fullmatch_atoms_match (r : re.regex) (w : str) :
  re.fullmatch r w = atoms_match (re.atoms r) w.
Proof.
  unfold re.fullmatch.
  destruct (re.match_here (re.atoms r) w) as [[m rest] |] eqn:E.
  - destruct (match_here_length _ _ _ _ E) as [_ S].
    pose proof (match_here_atoms_match _ _ _ _ E) as M.
    destruct rest as [| x rest].
    + rewrite app_nil_r in S. subst m. symmetry. exact M.
    + destruct (atoms_match (re.atoms r) w) eqn:Ew; [| reflexivity].
      apply atoms_match_length in Ew. apply atoms_match_length in M.
      rewrite S, length_app in Ew. cbn in Ew. lia.
  - destruct (atoms_match (re.atoms r) w) eqn:Ew; [| reflexivity].
    rewrite <- (app_nil_r w), (atoms_match_here _ _ [] Ew) in E.
    discriminate.
Qed.

End EngineFacts.

(** ** Every synthesized pattern compiles *)

Section Synthesis.
Context {U : Unicode}.
Import RegexConverter.

Lemma parse_caret_head (r : str) : parse (caret :: r) = None.
Proof. unfold parse. reflexivity. Qed.

Lemma compile_anchored (fm : bool) (out : str) (l : list re.atom) :
  emits out l ->
  re.compile (anchored fm out)
  = Some {| re.bol := fm; re.atoms := l; re.eol := fm |}.
Proof.
  intro H. rewrite compile_parse. destruct fm; cbn [anchored app].
  - rewrite N.eqb_refl. destruct (H [dollar] eq_refl) as [-> _].
    cbn. rewrite app_nil_r. reflexivity.
  - destruct (H [] I) as [H0 _]. rewrite app_nil_r in H0. cbn in H0.
    rewrite app_nil_r in H0. destruct out as [| c r].
    + cbn in H0. injection H0 as <-. reflexivity.
    + destruct (N.eqb_spec c caret) as [-> | _].
      * rewrite parse_caret_head in H0. discriminate.
      * rewrite H0. reflexivity.
Qed.

Lemma generic_compiles (s : str) (fm : bool) :
  (N.of_nat (length s) < re.MAXREPEAT)%N ->
  exists l,
    re.compile (anchored fm (concat (tokens s false [])))
    = Some {| re.bol := fm; re.atoms := l; re.eol := fm |} /\
    length l = length (unquoted s) /\
    atoms_match l (unquoted s) = engine_classes false s.
Proof.
  intro Hmax.
  destruct (tokens_parse_match (length s) s false [])
    as (l & E & L & M); [apply le_n | reflexivity | exact Hmax |].
  exists l. split; [apply compile_anchored, E | split; [exact L | exact M]].
Qed.

Lemma literal_compiles (s : str) (fm : bool) :
  re.compile (anchored fm (join_escaped s))
  = Some {| re.bol := fm; re.atoms := map re.Lit s; re.eol := fm |}.
Proof. apply compile_anchored, emits_join_escaped. Qed.

Lemma atoms_match_literal_iff (s w : str) :
  atoms_match (map re.Lit s) w = true <-> w = s.
Proof.
  split; [apply atoms_match_literal_inv | intros ->; apply atoms_match_literal].
Qed.

Lemma tokens_other (s : str) :
  forallb other_char s = true -> tokens s false [] = map escape_char s.
Proof.
  induction s as [| c s IH]; intro H; [reflexivity |].
  cbn [forallb] in H. apply andb_true_iff in H. destruct H as [Hc Hs].
  unfold other_char in Hc. apply negb_true_iff in Hc.
  apply orb_false_iff in Hc. destruct Hc as [Hc Hd].
  apply orb_false_iff in Hc. destruct Hc as [Hc Ha].
  apply orb_false_iff in Hc. destruct Hc as [Hq Hsp].
  rewrite tokens_equation_2, Hq, Hsp, Ha, Hd. cbn [map]. f_equal.
  apply IH, Hs.
Qed.

Lemma other_char_cases (c : char) :
  other_char c = true ->
  N.eqb c quote = false /\ isspace c = false /\ isalpha c = false
  /\ isdigit c = false.
Proof.
  unfold other_char. intro Hc. apply negb_true_iff in Hc.
  apply orb_false_iff in Hc. destruct Hc as [Hc Hd].
  apply orb_false_iff in Hc. destruct Hc as [Hc Ha].
  apply orb_false_iff in Hc. destruct Hc as [Hq Hsp]. auto.
Qed.

Lemma other_anywhere (pre : str) (c : char) (rest : str) :
  open_after false pre = false ->
  other_char c = true ->
  string_to_regex (pre ++ c :: rest) true false
  = Ok (concat (tokens pre false []) ++ escape_char c
        ++ concat (tokens rest false [])).
Proof.
  intros Hopen Hc. destruct (other_char_cases c Hc) as (Hq & Hs & Ha & Hd).
  rewrite generic_app; [| exact Hopen |].
  - rewrite tokens_equation_2, Hq, Hs, Ha, Hd. reflexivity.
  - intros p [-> | [-> | ->]] _; assumption.
Qed.

Lemma same_class_agree (c c' : char) :
  same_class c c' = true ->
  isspace c = isspace c' /\ isalpha c = isalpha c' /\ isdigit c = isdigit c'.
Proof.
  unfold same_class. destruct (isspace c) eqn:Hs.
  { intro H. rewrite H, (space_not_alpha c Hs), (space_not_alpha c' H),
      (space_not_digit c Hs), (space_not_digit c' H). auto. }
  destruct (isalpha c) eqn:Ha.
  { intro H. rewrite H, (not_space_of_alpha c' H), (alpha_not_digit c Ha),
      (alpha_not_digit c' H). auto. }
  destruct (isdigit c) eqn:Hd.
  { intro H. rewrite H, (not_space_of_digit c' H), (not_alpha_of_digit c' H).
    auto. }
  intro H. apply N.eqb_eq in H. subst c'. rewrite Hs, Ha, Hd. auto.
Qed.

Lemma same_shape_run (p : char -> bool) :
  p = isspace \/ p = isalpha \/ p = isdigit ->
  forall r r',
    same_shape false r r' = true ->
    run_length p r = run_length p r' /\
    same_shape false (skipn (run_length p r) r) (skipn (run_length p r) r')
    = true.
Proof.
  intro Hp.
  assert (Hq : p quote = false)
    by (destruct Hp as [-> | [-> | ->]];
        [apply isspace_quote | apply isalpha_quote | apply isdigit_quote]).
  induction r as [| c r IH]; intros [| c' r'] H; try discriminate.
  - split; reflexivity.
  - cbn [same_shape] in H. cbn [run_length].
    destruct (N.eqb c quote) eqn:Ec.
    + apply andb_true_iff in H. destruct H as [Ec' H].
      apply N.eqb_eq in Ec, Ec'. subst c c'. rewrite Hq. cbn [skipn same_shape].
      rewrite !N.eqb_refl. split; [reflexivity | exact H].
    + apply andb_true_iff in H. destruct H as [H Hr].
      apply andb_true_iff in H. destruct H as [Ec' Hc].
      destruct (same_class_agree c c' Hc) as (Es & Ea & Ed).
      assert (Epc : p c = p c')
        by (destruct Hp as [-> | [-> | ->]]; assumption).
      rewrite <- Epc. destruct (p c).
      * destruct (IH r' Hr) as [E S']. rewrite E. split; [reflexivity |].
        rewrite <- E. exact S'.
      * split; [reflexivity |]. cbn [skipn same_shape]. rewrite Ec, Ec', Hc.
        exact Hr.
Qed.

Lemma tokens_same_shape :
  forall n rest rest' inq buf,
    length rest <= n ->
    same_shape inq rest rest' = true ->
    tokens rest inq buf = tokens rest' inq buf.
Proof.
  induction n as [| n IH]; intros rest rest' inq buf Hlen H.
  - destruct rest; [| cbn in Hlen; lia].
    destruct rest'; [reflexivity | discriminate].
  - destruct rest as [| c r]; destruct rest' as [| c' r']; try discriminate;
      [reflexivity |].
    cbn [length] in Hlen. cbn [same_shape] in H.
    rewrite !tokens_equation_2.
    destruct (N.eqb c quote) eqn:Ec.
    { apply andb_true_iff in H. destruct H as [Ec' H]. rewrite Ec'.
      destruct inq; cbn [negb] in H.
      - f_equal. apply (IH r r' false []); [lia | exact H].
      - apply (IH r r' true buf); [lia | exact H]. }
    apply andb_true_iff in H. destruct H as [H Hr].
    apply andb_true_iff in H. destruct H as [Ec' Hc].
    apply negb_true_iff in Ec'. rewrite Ec'.
    destruct inq.
    { apply N.eqb_eq in Hc. subst c'. apply (IH r r' true); [lia | exact Hr]. }
    destruct (same_class_agree c c' Hc) as (Es & Ea & Ed).
    rewrite <- Es, <- Ea, <- Ed.
    assert (Hrun : forall p, p = isspace \/ p = isalpha \/ p = isdigit ->
              run_length p r = run_length p r' /\
              tokens (skipn (run_length p r) r) false buf
              = tokens (skipn (run_length p r) r') false buf).
    { intros p Hp. destruct (same_shape_run p Hp r r' Hr) as [E S'].
      split; [exact E |]. apply IH; [| exact S'].
      rewrite length_skipn. lia. }
    destruct (isspace c) eqn:Hs.
    { destruct (Hrun isspace) as [E T]; [auto |]. rewrite <- E, T.
      reflexivity. }
    destruct (isalpha c) eqn:Ha.
    { destruct (Hrun isalpha) as [E T]; [auto |]. rewrite <- E, T.
      reflexivity. }
    destruct (isdigit c) eqn:Hd.
    { destruct (Hrun isdigit) as [E T]; [auto |]. rewrite <- E, T.
      reflexivity. }
    unfold same_class in Hc. rewrite Hs, Ha, Hd in Hc.
    apply N.eqb_eq in Hc. subst c'. f_equal.
    apply (IH r r' false); [lia | exact Hr].
Qed.

End Synthesis.

(** ** Properties of the converter beyond the specification *)

Section ConverterProperties.
Context {U : Unicode}.
Import RegexConverter.

(** X1. In generic mode a character outside quotes that is neither a
    quote, whitespace, a letter nor a digit is emitted, wherever it stands
    and whatever surrounds it, as a backslash and the character when it is
    one of [. ^ $ * + ? ( ) [ ] { } | \] and as itself otherwise; on a string
    made only of such characters the generic pattern is this escaping of
    the whole string, with the anchors when [full_match] is set, and equals
    the literal-mode pattern. *)
Theorem other_characters_are_escaped :
  (forall (pre : str) (c : char) (rest : str),
      open_after false pre = false ->
      other_char c = true ->
      exists P R,
        string_to_regex pre true false = Ok P /\
        string_to_regex rest true false = Ok R /\
        string_to_regex (pre ++ c :: rest) true false
        = Ok (P
              ++ (if contains listed_special c then [backslash; c] else [c])
              ++ R)) /\
  (forall (s : str) (full_match : bool),
      forallb other_char s = true ->
      string_to_regex s true full_match
      = Ok (anchored full_match
              (concat
                 (map (fun c => if contains listed_special c
                                then [backslash; c] else [c]) s))) /\
      string_to_regex s true full_match = string_to_regex s false full_match).
Proof.
  split.
  - intros pre c rest Hopen Hc.
    exists (concat (tokens pre false [])), (concat (tokens rest false [])).
    split; [apply generic_eq |]. split; [apply generic_eq |].
    rewrite <- special_listed. apply other_anywhere; assumption.
  - intros s full_match H.
    rewrite string_to_regex_generic, string_to_regex_literal, tokens_other
      by exact H.
    split; [| reflexivity]. rewrite <- join_escaped_listed. reflexivity.
Qed.

(** X2. The generic pattern depends on the layout of the input only: two
    inputs with quotes at the same places, the same text inside quotes and
    characters of the same class outside (whitespace, letter, digit, or the
    same other character) give the same pattern. *)
Theorem same_shape_same_pattern (s s' : str) (full_match : bool) :
  same_shape false s s' = true ->
  string_to_regex s true full_match = string_to_regex s' true full_match.
Proof.
  intro H. rewrite !string_to_regex_generic.
  rewrite (tokens_same_shape (length s) s s' false [] (le_n _) H).
  reflexivity.
Qed.

(** X3. The literal-mode pattern, with or without anchors, compiles to one
    literal atom per input character and fully matches the input and no
    other string. *)
Theorem literal_pattern_matches_only_its_input
    (s w : str) (full_match : bool) :
  exists pattern,
    string_to_regex s false full_match = Ok pattern /\
    re.compile pattern
    = Some {| re.bol := full_match; re.atoms := map re.Lit s;
              re.eol := full_match |} /\
    (re.fullmatch_pattern pattern w = Some true <-> w = s).
Proof.
  exists (anchored full_match (join_escaped s)).
  split; [apply string_to_regex_literal |].
  split; [apply literal_compiles |].
  unfold re.fullmatch_pattern. rewrite literal_compiles. cbn [option_map].
  rewrite fullmatch_atoms_match. cbn [re.atoms].
  rewrite <- atoms_match_literal_iff. split; [| intros ->; reflexivity].
  intro H. injection H as H. exact H.
Qed.

(** X4. Literal mode loses nothing: two inputs with the same literal-mode
    pattern are the same string. *)
Theorem literal_mode_is_injective (s1 s2 : str) (full_match : bool) :
  string_to_regex s1 false full_match = string_to_regex s2 false full_match ->
  s1 = s2.
Proof.
  rewrite !string_to_regex_literal. intro H. injection H as H.
  pose proof (literal_compiles s1 full_match) as C1.
  rewrite H, literal_compiles in C1. injection C1 as C1.
  clear H. revert s2 C1.
  induction s1 as [| x s1 IH]; intros [| y s2] C1; try discriminate;
    [reflexivity |].
  cbn [map] in C1. injection C1 as -> C1. f_equal. apply IH, C1.
Qed.

(** X5. [compile_pattern] never fails on an input shorter than the
    engine's repetition bound: the synthesized pattern always compiles, is
    anchored at both ends exactly when [full_match] is set, and consumes one
    character per input character (per character other than a quote in
    generic mode). *)
Theorem compile_pattern_returns_a_pattern
    (s : str) (generic_matching full_match : bool) :
  (N.of_nat (length s) < re.MAXREPEAT)%N ->
  exists r,
    compile_pattern s generic_matching full_match = Ok (Some r) /\
    re.bol r = full_match /\
    re.eol r = full_match /\
    length (re.atoms r)
    = length (if generic_matching then unquoted s else s).
Proof.
  intro Hmax. unfold compile_pattern. destruct generic_matching.
  - rewrite string_to_regex_generic. cbn [bind].
    destruct (generic_compiles s full_match Hmax) as (l & C & L & _).
    rewrite C. eexists. split; [reflexivity |]. cbn. auto.
  - rewrite string_to_regex_literal. cbn [bind]. rewrite literal_compiles.
    eexists. split; [reflexivity |]. cbn. rewrite length_map. auto.
Qed.

(** X6. The generic pattern fully matches its own example, the input with
    its quote characters removed, exactly when scanner and engine agree on
    every character outside quotes: each one the scanner takes for a letter
    is an ASCII letter and each one it takes for a digit is a decimal
    digit. *)
Theorem generic_pattern_matches_its_example (s : str) (full_match : bool) :
  (N.of_nat (length s) < re.MAXREPEAT)%N ->
  exists pattern,
    string_to_regex s true full_match = Ok pattern /\
    re.fullmatch_pattern pattern (unquoted s)
    = Some (engine_classes false s).
Proof.
  intro Hmax. rewrite string_to_regex_generic. eexists.
  split; [reflexivity |]. unfold re.fullmatch_pattern.
  destruct (generic_compiles s full_match Hmax) as (l & C & _ & M).
  rewrite C. cbn [option_map]. rewrite fullmatch_atoms_match. cbn [re.atoms].
  rewrite M. reflexivity.
Qed.

(** X7. When scanner and engine agree on the input, a search with the
    unanchored generic pattern succeeds on every text that contains the
    example, with a match as long as the example; when the example stands at
    the start of the text, the match is the example itself. *)
Theorem generic_pattern_found_in_any_text (s : str) :
  (N.of_nat (length s) < re.MAXREPEAT)%N ->
  engine_classes false s = true ->
  exists pattern,
    string_to_regex s true false = Ok pattern /\
    (forall pre post,
        exists m,
          re.search_pattern pattern (pre ++ unquoted s ++ post)
          = Some (Some m) /\
          length m = length (unquoted s)) /\
    (forall post,
        re.search_pattern pattern (unquoted s ++ post)
        = Some (Some (unquoted s))).
Proof.
  intros Hmax Hcls. rewrite string_to_regex_generic. eexists.
  split; [reflexivity |]. unfold re.search_pattern.
  destruct (generic_compiles s false Hmax) as (l & C & L & M).
  rewrite C. cbn [option_map]. unfold re.search. cbn [re.bol].
  rewrite Hcls in M.
  assert (Hat : forall post,
             re.match_at {| re.bol := false; re.atoms := l; re.eol := false |}
               (unquoted s ++ post) = Some (unquoted s)).
  { intro post. unfold re.match_at. cbn [re.atoms re.eol].
    rewrite (atoms_match_here l _ post M). reflexivity. }
  split.
  - intros pre post.
    destruct (search_from_finds _ _ _ (Hat post) pre) as (m & Hm & Lm).
    exists m. rewrite Hm. split; [reflexivity |]. rewrite Lm. exact L.
  - intro post. specialize (Hat post).
    destruct (unquoted s ++ post); cbn [re.search_from]; rewrite Hat;
      reflexivity.
Qed.

(** X8. When scanner and engine agree on the input, a search with the
    [full_match] pattern on a text that starts with the example succeeds
    exactly when nothing, or a single final newline, follows the example:
    the end anchor also holds just before a trailing newline. *)
Theorem full_match_pattern_allows_a_final_newline (s : str) :
  (N.of_nat (length s) < re.MAXREPEAT)%N ->
  engine_classes false s = true ->
  exists pattern,
    string_to_regex s true true = Ok pattern /\
    (forall post,
        re.search_pattern pattern (unquoted s ++ post)
        = Some (if re.at_end post then Some (unquoted s) else None)) /\
    re.search_pattern pattern (unquoted s ++ [newline])
    = Some (Some (unquoted s)).
Proof.
  intros Hmax Hcls. rewrite string_to_regex_generic. eexists.
  split; [reflexivity |]. unfold re.search_pattern.
  destruct (generic_compiles s true Hmax) as (l & C & L & M).
  rewrite C. cbn [option_map]. unfold re.search. cbn [re.bol].
  rewrite Hcls in M.
  assert (Hat : forall post,
             re.match_at {| re.bol := true; re.atoms := l; re.eol := true |}
               (unquoted s ++ post)
             = if re.at_end post then Some (unquoted s) else None).
  { intro post. unfold re.match_at. cbn [re.atoms re.eol].
    rewrite (atoms_match_here l _ post M). reflexivity. }
  split; [intro post; rewrite Hat; reflexivity |].
  rewrite Hat. reflexivity.
Qed.

End ConverterProperties.

Section ConverterInstances.
Import RegexConverter.

Lemma other_characters_are_escaped_witness :
  (exists P R,
      string_to_regex (lit "ab") true false = Ok P /\
      string_to_regex (lit "12") true false = Ok R /\
      string_to_regex (lit "ab" ++ 46%N :: lit "12") true false
      = Ok (P ++ lit "\." ++ R)) /\
  (exists P R,
      string_to_regex (lit "ab") true false = Ok P /\
      string_to_regex (lit "12") true false = Ok R /\
      string_to_regex (lit "ab" ++ 47%N :: lit "12") true false
      = Ok (P ++ lit "/" ++ R)) /\
  string_to_regex (lit "#-(.)") true true = Ok (lit "^#-\(\.\)$") /\
  string_to_regex (lit "#-(.)") true true
  = string_to_regex (lit "#-(.)") false true.
Proof.
  split; [| split].
  - exact (proj1 (@other_characters_are_escaped latin1)
             (lit "ab") 46%N (lit "12") eq_refl eq_refl).
  - exact (proj1 (@other_characters_are_escaped latin1)
             (lit "ab") 47%N (lit "12") eq_refl eq_refl).
  - exact (proj2 (@other_characters_are_escaped latin1)
             (lit "#-(.)") true eq_refl).
Defined.

Lemma same_shape_same_pattern_witness :
  string_to_regex (lit "INV-2024 x") true false
  = string_to_regex (lit "abc-1975 Q") true false.
Proof.
  exact (@same_shape_same_pattern latin1 (lit "INV-2024 x")
           (lit "abc-1975 Q") false eq_refl).
Defined.

Lemma literal_mode_is_injective_witness : lit "a.b" = lit "a.b".
Proof.
  exact (@literal_mode_is_injective latin1 (lit "a.b") (lit "a.b") true
           eq_refl).
Defined.

Lemma compile_pattern_returns_a_pattern_witness :
  exists r,
    compile_pattern (lit "No: " ++ quote :: lit "A-" ++ quote :: lit "42")
      true true = Ok (Some r) /\
    re.bol r = true /\
    re.eol r = true /\
    length (re.atoms r) = 8.
Proof.
  exact (@compile_pattern_returns_a_pattern latin1
           (lit "No: " ++ quote :: lit "A-" ++ quote :: lit "42")
           true true eq_refl).
Defined.

Lemma generic_pattern_matches_its_example_witness :
  exists pattern,
    string_to_regex (lit "No: " ++ quote :: lit "A-" ++ quote :: lit "42")
      true false = Ok pattern /\
    re.fullmatch_pattern pattern (lit "No: A-42") = Some true.
Proof.
  exact (@generic_pattern_matches_its_example latin1
           (lit "No: " ++ quote :: lit "A-" ++ quote :: lit "42")
           false eq_refl).
Defined.

Lemma generic_pattern_found_in_any_text_witness :
  exists pattern,
    string_to_regex (lit "No 42") true false = Ok pattern /\
    (forall pre post,
        exists m,
          re.search_pattern pattern (pre ++ lit "No 42" ++ post)
          = Some (Some m) /\
          length m = 5) /\
    (forall post,
        re.search_pattern pattern (lit "No 42" ++ post)
        = Some (Some (lit "No 42"))).
Proof.
  exact (@generic_pattern_found_in_any_text latin1 (lit "No 42")
           eq_refl eq_refl).
Defined.

Lemma full_match_pattern_allows_a_final_newline_witness :
  exists pattern,
    string_to_regex (lit "No 42") true true = Ok pattern /\
    (forall post,
        re.search_pattern pattern (lit "No 42" ++ post)
        = Some (if re.at_end post then Some (lit "No 42") else None)) /\
    re.search_pattern pattern (lit "No 42" ++ [newline])
    = Some (Some (lit "No 42")).
Proof.
  exact (@full_match_pattern_allows_a_final_newline latin1 (lit "No 42")
           eq_refl eq_refl).
Defined.

End ConverterInstances.

(** ** The strings a generic pattern accepts *)

Section LanguageLemmas.
Context {U : Unicode}.
Import RegexConverter.

Lemma accepts_run (p : char -> bool) (a : re.atom) :
  (forall c x, p c = true -> class_accepts c x = re.atom_matches a x) ->
  p quote = false ->
  forall (r : str) (l2 : list re.atom),
    (forall w, atoms_match l2 w
               = accepts false (skipn (run_length p r) r) w) ->
    forall w,
      atoms_match (repeat a (run_length p r) ++ l2) w = accepts false r w.
Proof.
  intros Hatom Hq. induction r as [| c r IH]; intros l2 H2 w;
    cbn [run_length] in *; [apply H2 |].
  destruct (p c) eqn:Ec; [| apply H2].
  cbn [skipn] in H2. cbn [repeat app atoms_match accepts].
  rewrite (class_not_quote p c Hq Ec).
  destruct w as [| x w]; [reflexivity |].
  rewrite (Hatom c x Ec), (IH l2 H2 w). reflexivity.
Qed.

Lemma space_accepts (c x : char) :
  isspace c = true -> class_accepts c x = re.atom_matches re.Space x.
Proof. intro H. unfold class_accepts. rewrite H. reflexivity. Qed.

Lemma letter_accepts (c x : char) :
  isalpha c = true -> class_accepts c x = re.atom_matches re.Letter x.
Proof.
  intro H. unfold class_accepts. rewrite (not_space_of_alpha c H), H.
  reflexivity.
Qed.

Lemma digit_accepts (c x : char) :
  isdigit c = true -> class_accepts c x = re.atom_matches re.Digit x.
Proof.
  intro H. unfold class_accepts.
  rewrite (not_space_of_digit c H), (not_alpha_of_digit c H), H.
  reflexivity.
Qed.

(** What the scan emits, from any position: it parses to the literal atoms
    of the buffered text followed by atoms that accept exactly the strings
    with the layout of the text left to read. *)
Lemma tokens_language :
  forall n rest inq buf,
    length rest <= n ->
    (inq = false -> buf = []) ->
    (N.of_nat (length rest) < re.MAXREPEAT)%N ->
    exists l,
      emits (concat (tokens rest inq buf)) (map re.Lit buf ++ l) /\
      forall w, atoms_match l w = accepts inq rest w.
Proof.
  assert (Hflush : forall buf inq,
    exists l,
      emits (concat (flush_buffer buf)) (map re.Lit buf ++ l) /\
      forall w, atoms_match l w = accepts inq [] w).
  { intros buf inq. exists []. rewrite app_nil_r.
    split; [| intros [| x w]; reflexivity].
    destruct buf as [| b buf']; [apply emits_nil |].
    unfold flush_buffer. cbn [concat]. rewrite app_nil_r.
    apply emits_join_escaped. }
  induction n as [| n IH]; intros rest inq buf Hlen Hbuf Hmax.
  - destruct rest; [| cbn in Hlen; lia]. rewrite tokens_equation_1.
    apply Hflush.
  - destruct rest as [| c r]; [rewrite tokens_equation_1; apply Hflush |].
    cbn [length] in Hlen, Hmax.
    assert (Hrun : forall (p : char -> bool) (tok : nat -> str) (a : re.atom),
              (forall k, 1 <= k -> (N.of_nat k < re.MAXREPEAT)%N ->
                   emits (tok k) (repeat a k)) ->
              (forall c x, p c = true ->
                   class_accepts c x = re.atom_matches a x) ->
              p quote = false -> p c = true -> inq = false ->
              exists l,
                emits (concat (tok (S (run_length p r))
                               :: tokens (skipn (run_length p r) r) false buf))
                  (map re.Lit buf ++ l) /\
                forall w, atoms_match l w = accepts inq (c :: r) w).
    { intros p tok a Hemit Hatom Hq Hc Hinq.
      pose proof (run_length_le p r) as Hk.
      destruct (IH (skipn (run_length p r) r) false buf)
        as (l2 & E2 & M2);
        [rewrite length_skipn; lia | exact (fun _ => Hbuf Hinq)
        | rewrite length_skipn; lia |].
      exists (repeat a (S (run_length p r)) ++ l2).
      cbn [concat]. rewrite (Hbuf Hinq) in *. cbn [map app] in *.
      split; [apply emits_app; [apply Hemit; lia | exact E2] |].
      rewrite Hinq. intro w.
      pose proof (accepts_run p a Hatom Hq (c :: r) l2) as H.
      cbn [run_length] in H. rewrite Hc in H. apply H. exact M2. }
    rewrite tokens_equation_2. cbn [accepts].
    destruct (N.eqb c quote) eqn:Hcq.
    { destruct inq.
      - destruct (IH r false []) as (l2 & E2 & M2);
          [lia | reflexivity | lia |].
        exists l2. cbn [concat negb]. split; [| exact M2].
        apply emits_app; [apply emits_join_escaped | exact E2].
      - rewrite (Hbuf eq_refl) in *. apply IH; [lia | discriminate | lia]. }
    destruct inq.
    { destruct (IH r true (buf ++ [c])) as (l2 & E2 & M2);
        [lia | discriminate | lia |].
      exists (re.Lit c :: l2). split.
      - rewrite map_app, <- app_assoc in E2. exact E2.
      - intros [| x w]; [reflexivity |]. cbn [atoms_match re.atom_matches].
        rewrite M2. reflexivity. }
    destruct (isspace c) eqn:Hs.
    { destruct (Hrun isspace space_token re.Space) as (l & E & M);
        auto using isspace_quote, emits_space_token, space_accepts.
      exists l. split; [exact E |]. intro w. rewrite M. cbn [accepts].
      rewrite Hcq. reflexivity. }
    destruct (isalpha c) eqn:Ha.
    { destruct (Hrun isalpha letter_token re.Letter) as (l & E & M);
        auto using isalpha_quote, emits_letter_token, letter_accepts.
      exists l. split; [exact E |]. intro w. rewrite M. cbn [accepts].
      rewrite Hcq. reflexivity. }
    destruct (isdigit c) eqn:Hd.
    { destruct (Hrun isdigit digit_token re.Digit) as (l & E & M);
        auto using isdigit_quote, emits_digit_token, digit_accepts.
      exists l. split; [exact E |]. intro w. rewrite M. cbn [accepts].
      rewrite Hcq. reflexivity. }
    rewrite (Hbuf eq_refl) in *.
    destruct (IH r false []) as (l2 & E2 & M2);
      [lia | reflexivity | lia |].
    exists (re.Lit c :: l2). cbn [concat map app] in *. split.
    + apply (emits_app _ _ [re.Lit c] l2);
        [apply emits_escape_char | exact E2].
    + intros [| x w]; [reflexivity |]. cbn [atoms_match re.atom_matches].
      unfold class_accepts. rewrite Hs, Ha, Hd, M2. reflexivity.
Qed.

End LanguageLemmas.

Section LanguageProperties.
Context {U : Unicode}.
Import RegexConverter.

(** X17. The generic pattern fully matches exactly the strings with the
    layout of the input: the quotes dropped, the text inside quotes kept
    character for character, and outside quotes any whitespace for each
    whitespace character, any ASCII letter for each letter, any decimal
    digit for each digit, and the same character for any other one. *)
Theorem generic_pattern_accepts_the_layout
    (s w : str) (full_match : bool) :
  (N.of_nat (length s) < re.MAXREPEAT)%N ->
  exists pattern,
    string_to_regex s true full_match = Ok pattern /\
    re.fullmatch_pattern pattern w = Some (accepts false s w).
Proof.
  intro Hmax. rewrite string_to_regex_generic. eexists.
  split; [reflexivity |]. unfold re.fullmatch_pattern.
  destruct (tokens_language (length s) s false [])
    as (l & E & M); [apply le_n | reflexivity | exact Hmax |].
  cbn [map app] in E. rewrite (compile_anchored full_match _ l E).
  cbn [option_map]. rewrite fullmatch_atoms_match. cbn [re.atoms].
  rewrite M. reflexivity.
Qed.

End LanguageProperties.

Section LanguageInstances.
Import RegexConverter.

Lemma generic_pattern_accepts_the_layout_witness :
  exists pattern,
    string_to_regex (lit "No: " ++ quote :: lit "A-" ++ quote :: lit "42")
      true false = Ok pattern /\
    re.fullmatch_pattern pattern (lit "xy:" ++ 9%N :: lit "A-07")
    = Some true.
Proof.
  exact (@generic_pattern_accepts_the_layout latin1
           (lit "No: " ++ quote :: lit "A-" ++ quote :: lit "42")
           (lit "xy:" ++ 9%N :: lit "A-07") false eq_refl).
Defined.

End LanguageInstances.

(** ** The command line: actions that only append to the output *)

Section Framing.

Lemma framed_ret {A : Type} (a : A) : framed (Cli.ret a).
Proof.
  intro i. exists (Ok a), i, []. intro o. rewrite app_nil_r. reflexivity.
Qed.

Lemma framed_raise {A : Type} (e : exn) : framed (@Cli.raise A e).
Proof.
  intro i. exists (Raise e), i, []. intro o. rewrite app_nil_r. reflexivity.
Qed.

Lemma framed_lift {A : Type} (m : result A) : framed (Cli.lift m).
Proof.
  intro i. exists m, i, []. intro o. rewrite app_nil_r. reflexivity.
Qed.

Lemma framed_print (text : str) : framed (Cli.print text).
Proof. intro i. exists (Ok tt), i, [text ++ [newline]]. reflexivity. Qed.

Lemma framed_input (prompt : str) : framed (Cli.input prompt).
Proof.
  intros [| line rest].
  - exists (Raise EOFError), [], [prompt]. reflexivity.
  - exists (Ok line), rest, [prompt]. reflexivity.
Qed.

Lemma framed_pending_lines : framed Cli.pending_lines.
Proof.
  intro i. exists (Ok (length i)), i, []. intro o. rewrite app_nil_r.
  reflexivity.
Qed.

Lemma framed_bind {A B : Type} (m : Cli.IO A) (k : A -> Cli.IO B) :
  framed m -> (forall a, framed (k a)) -> framed (Cli.bind_io m k).
Proof.
  intros Hm Hk i. destruct (Hm i) as (r & i1 & d1 & E1).
  destruct r as [a | e |].
  - destruct (Hk a i1) as (r2 & i2 & d2 & E2).
    exists r2, i2, (d1 ++ d2). intro o. unfold Cli.bind_io.
    rewrite E1, E2, app_assoc. reflexivity.
  - exists (Raise e), i1, d1. intro o. unfold Cli.bind_io. rewrite E1.
    reflexivity.
  - exists OutOfFuel, i1, d1. intro o. unfold Cli.bind_io. rewrite E1.
    reflexivity.
Qed.

Lemma framed_read_test_strings (fuel : nat) :
  forall test_strings, framed (Cli.read_test_strings fuel test_strings).
Proof.
  induction fuel as [| fuel IH]; intro test_strings;
    cbn [Cli.read_test_strings]; apply framed_bind;
    try apply framed_input; intros [| c t];
    try apply framed_ret; [apply framed_lift | apply IH].
Qed.

Lemma framed_test_regex (args : list Cli.value) : framed (Cli.test_regex args).
Proof. destruct args; apply framed_raise. Qed.

Lemma framed_report (results : list (str * bool * str)) :
  framed (Cli.report results).
Proof.
  induction results as [| [[string matched] matched_text] results IH];
    cbn [Cli.report]; [apply framed_ret |].
  apply framed_bind; [| intros _; exact IH].
  destruct matched; apply framed_print.
Qed.

(** A program that prints the banner, takes its input from the argument
    or from a prompt, and goes on with a framed continuation: reading the
    input at the prompt changes nothing but the prompt in the output. *)
Lemma prompt_or_argument (k : str -> Cli.IO unit) (prog s : str)
    (stdin0 : list str) :
  (forall x, framed (k x)) ->
  let program (argv : list str) :=
    Cli.bind_io (Cli.print (lit "Convert String to Regular Expression"))
      (fun _ =>
         Cli.bind_io (Cli.print (lit "==================================="))
           (fun _ =>
              Cli.bind_io
                (if 1 <? length argv
                 then Cli.lift (nth_error_or_raise argv 1)
                 else Cli.input (lit "Enter string to convert to regex: "))
                k)) in
  exists rest r,
    program [prog; s] {| Cli.stdin := stdin0; Cli.stdout := [] |}
    = (r, {| Cli.stdin := fst rest; Cli.stdout := banner ++ snd rest |}) /\
    program [prog] {| Cli.stdin := s :: stdin0; Cli.stdout := [] |}
    = (r, {| Cli.stdin := fst rest;
             Cli.stdout :=
               banner ++ lit "Enter string to convert to regex: "
                         :: snd rest |}).
Proof.
  intros Hk program. destruct (Hk s stdin0) as (r & i' & delta & E).
  exists (i', delta), r. unfold program, Cli.bind_io.
  cbn [Cli.print Cli.input Cli.lift Cli.stdin Cli.stdout length Nat.ltb
       Nat.leb nth_error_or_raise nth_error fst snd app].
  rewrite !E. split; reflexivity.
Qed.

End Framing.

(** ** The command line: runs *)

Section CliLemmas.
Context {U : Unicode}.
Import RegexConverter.

Lemma read_test_strings_eof :
  forall (ts acc : list str) (fuel : nat) (out : list str),
    forallb nonempty ts = true ->
    length ts <= fuel ->
    Cli.read_test_strings fuel acc
      {| Cli.stdin := ts; Cli.stdout := out |}
    = (Raise EOFError,
       {| Cli.stdin := [];
          Cli.stdout := out ++ repeat (lit "> ") (S (length ts)) |}).
Proof.
  induction ts as [| t ts IH]; intros acc fuel out Hne Hfuel.
  - destruct fuel; reflexivity.
  - cbn [forallb] in Hne. apply andb_true_iff in Hne. destruct Hne as [Ht Hts].
    destruct t as [| c t]; [discriminate |].
    destruct fuel as [| fuel]; [cbn in Hfuel; lia |].
    cbn [length] in Hfuel.
    change (Cli.read_test_strings (S fuel) acc
              {| Cli.stdin := (c :: t) :: ts; Cli.stdout := out |})
      with (Cli.read_test_strings fuel (acc ++ [c :: t])
              {| Cli.stdin := ts; Cli.stdout := out ++ [lit "> "] |}).
    rewrite IH by (try exact Hts; lia).
    rewrite <- !app_assoc. reflexivity.
Qed.

(** The run up to the question about testing, with the input given as
    argument. *)
Lemma run_with_argument (prog input_string : str) (extra stdin0 : list str) :
  Cli.run (prog :: input_string :: extra) stdin0
  = let p := concat (tokens input_string false []) in
    let '(r, w) :=
      Cli.bind_io (Cli.input (newline :: lit "Test this pattern? (y/n): "))
        (fun answer =>
           if Cli.lower_startswith_y answer then
             Cli.bind_io
               (Cli.print (lit "Enter test strings (empty line to finish):"))
               (fun _ =>
                  Cli.bind_io Cli.pending_lines
                    (fun n =>
                       Cli.bind_io (Cli.read_test_strings n [])
                         (fun test_strings =>
                            match test_strings with
                            | [] => Cli.ret tt
                            | _ :: _ =>
                                Cli.bind_io
                                  (Cli.print (newline :: lit "Test Results:"))
                                  (fun _ =>
                                     Cli.bind_io
                                       (Cli.test_regex
                                          [Cli.VStr p; Cli.VList test_strings;
                                           Cli.VBool false])
                                       Cli.report)
                            end)))
           else Cli.ret tt)
        {| Cli.stdin := stdin0;
           Cli.stdout := banner ++ [(newline :: lit "Regex Pattern:")
                                      ++ [newline]; p ++ [newline]] |} in
    (Cli.stdout w, r, exit_status r).
Proof.
  unfold Cli.run, Cli.main.
  unfold Cli.bind_io at 1. cbn [Cli.print].
  unfold Cli.bind_io at 1. cbn [Cli.print].
  unfold Cli.bind_io at 1.
  cbn [length Nat.ltb Nat.leb Cli.lift nth_error_or_raise nth_error].
  unfold Cli.bind_io at 1. cbn [Cli.lift]. rewrite generic_eq.
  unfold Cli.bind_io at 1. cbn [Cli.print].
  unfold Cli.bind_io at 1. cbn [Cli.print Cli.stdin Cli.stdout app].
  reflexivity.
Qed.

End CliLemmas.

Section CliRuns.
Context {U : Unicode}.
Import RegexConverter.

(** Reading the input string at the prompt, or taking it from the first
    argument: the same run, but for the prompt in the output. *)
Lemma run_at_prompt (prog s : str) (stdin0 : list str) :
  exists rest r,
    Cli.run [prog; s] stdin0 = (banner ++ rest, r, exit_status r) /\
    Cli.run [prog] (s :: stdin0)
    = (banner ++ lit "Enter string to convert to regex: " :: rest,
       r, exit_status r).
Proof.
  unfold Cli.run, Cli.main. cbv zeta.
  match goal with
  | |- context [Cli.bind_io (if _ then _ else _) ?k] =>
      destruct (prompt_or_argument k prog s stdin0) as (rest & r & E1 & E2)
  end.
  - intro x. apply framed_bind; [apply framed_lift | intro p].
    apply framed_bind; [apply framed_print | intros _].
    apply framed_bind; [apply framed_print | intros _].
    apply framed_bind; [apply framed_input | intro answer].
    destruct (Cli.lower_startswith_y answer); [| apply framed_ret].
    apply framed_bind; [apply framed_print | intros _].
    apply framed_bind; [apply framed_pending_lines | intro n].
    apply framed_bind; [apply framed_read_test_strings | intros [| t ts]];
      [apply framed_ret |].
    apply framed_bind; [apply framed_print | intros _].
    apply framed_bind; [apply framed_test_regex | apply framed_report].
  - cbv zeta in E1, E2. exists (snd rest), r. rewrite E1, E2.
    split; reflexivity.
Qed.

Lemma run_without_input (argv : list str) :
  exists out, Cli.run argv [] = (out, Raise EOFError, 1).
Proof.
  destruct argv as [| prog [| s extra]]; [eexists; reflexivity .. |].
  rewrite run_with_argument. eexists. reflexivity.
Qed.

End CliRuns.

Section CliProperties.
Context {U : Unicode}.
Import RegexConverter.

(** X9. Without an argument the command line asks for the string and
    reads it from the first line of the input; the run is then the one with
    that string as first argument, with the same outcome and, but for the
    prompt, the same output.  Arguments after the first are ignored. *)
Theorem cli_prompt_reads_the_input_string :
  (forall (prog s : str) (stdin0 : list str),
      exists rest r,
        Cli.run [prog; s] stdin0 = (banner ++ rest, r, exit_status r) /\
        Cli.run [prog] (s :: stdin0)
        = (banner ++ lit "Enter string to convert to regex: " :: rest,
           r, exit_status r)) /\
  (forall (prog s : str) (extra stdin0 : list str),
      Cli.run (prog :: s :: extra) stdin0 = Cli.run [prog; s] stdin0).
Proof.
  split; [apply run_at_prompt |].
  intros prog s extra stdin0. rewrite !run_with_argument. reflexivity.
Qed.

(** X10. When the input runs out the command line ends with [EOFError]
    and status 1: with no input at all, whatever the arguments; with the
    input string but no answer to the question about testing; and in the
    test loop, when the test strings are not closed by an empty line. *)
Theorem cli_exhausted_input_ends_in_eof_error :
  (forall argv : list str,
      exists out, Cli.run argv [] = (out, Raise EOFError, 1)) /\
  (forall prog s : str,
      exists out, Cli.run [prog] [s] = (out, Raise EOFError, 1)) /\
  (forall (prog s answer : str) (ts : list str),
      Cli.lower_startswith_y answer = true ->
      forallb nonempty ts = true ->
      exists out,
        Cli.run [prog; s] (answer :: ts) = (out, Raise EOFError, 1)).
Proof.
  split; [apply run_without_input | split].
  - intros prog s. destruct (run_at_prompt prog s []) as (rest & r & E1 & E2).
    destruct (run_without_input [prog; s]) as (out & E).
    rewrite E in E1. injection E1 as _ <-. eexists. exact E2.
  - intros prog s answer ts Hy Hne. rewrite run_with_argument. cbv zeta.
    unfold Cli.bind_io at 1. cbn [Cli.input Cli.stdin Cli.stdout].
    rewrite Hy.
    unfold Cli.bind_io at 1. cbn [Cli.print Cli.stdin Cli.stdout].
    unfold Cli.bind_io at 1. cbn [Cli.pending_lines Cli.stdin Cli.stdout].
    unfold Cli.bind_io at 1.
    rewrite (read_test_strings_eof ts []) by (try exact Hne; apply le_n).
    eexists. reflexivity.
Qed.

(** X11. When the user asks for the test loop and enters no test string,
    [test_regex] is not called: the command line prints the pattern, the
    invitation and one prompt, and completes with status 0. *)
Theorem cli_test_loop_without_strings_completes
    (prog s answer : str) (more : list str) :
  Cli.lower_startswith_y answer = true ->
  exists p,
    string_to_regex s true false = Ok p /\
    Cli.run [prog; s] (answer :: [] :: more)
    = (banner ++ pattern_report p
       ++ [lit "Enter test strings (empty line to finish):" ++ [newline];
           lit "> "],
       Ok tt, 0).
Proof.
  intro Hy. exists (concat (tokens s false [])). split; [apply generic_eq |].
  rewrite run_with_argument. cbv zeta.
  unfold Cli.bind_io at 1. cbn [Cli.input Cli.stdin Cli.stdout].
  rewrite Hy.
  unfold Cli.bind_io at 1. cbn [Cli.print Cli.stdin Cli.stdout].
  unfold Cli.bind_io at 1. cbn [Cli.pending_lines Cli.stdin Cli.stdout].
  unfold Cli.bind_io at 1. reflexivity.
Qed.

End CliProperties.

Section CliInstances.
Import RegexConverter.

Lemma cli_exhausted_input_ends_in_eof_error_witness :
  exists out,
    Cli.run [lit "convert_regex.py"; lit "abc"] [lit "yes"; lit "abd"]
    = (out, Raise EOFError, 1).
Proof.
  exact (proj2 (proj2 (@cli_exhausted_input_ends_in_eof_error latin1))
           (lit "convert_regex.py") (lit "abc") (lit "yes") [lit "abd"]
           eq_refl eq_refl).
Defined.

Lemma cli_test_loop_without_strings_completes_witness :
  exists p,
    string_to_regex (lit "abc") true false = Ok p /\
    Cli.run [lit "convert_regex.py"; lit "abc"] [lit "Y"; []; lit "left"]
    = (banner ++ pattern_report p
       ++ [lit "Enter test strings (empty line to finish):" ++ [newline];
           lit "> "],
       Ok tt, 0).
Proof.
  exact (@cli_test_loop_without_strings_completes latin1
           (lit "convert_regex.py") (lit "abc") (lit "Y") [lit "left"]
           eq_refl).
Defined.

End CliInstances.

(** ** The capture-group check of the dialog *)

Section Parens.
Import RegexManagerDialog.

Lemma parens_app (a b : str) : parens (a ++ b) = parens a ++ parens b.
Proof. apply filter_app. Qed.

Lemma closes_parens (r : str) : closes (parens r) = closes r.
Proof.
  induction r as [| c r IH]; [reflexivity |]. unfold parens in *.
  cbn [filter closes].
  destruct (N.eqb c lparen) eqn:El; destruct (N.eqb c rparen) eqn:Er;
    cbn [orb closes]; rewrite ?Er; cbn [orb]; auto.
Qed.

Lemma search_group_parens (p : str) :
  search_group (parens p) = search_group p.
Proof.
  induction p as [| c p IH]; [reflexivity |].
  cbn [search_group group_at]. rewrite <- IH, <- closes_parens.
  unfold parens. cbn [filter]. fold (parens p).
  destruct (N.eqb c lparen) eqn:El.
  - cbn [orb search_group group_at]. rewrite El. reflexivity.
  - destruct (N.eqb c rparen) eqn:Er; cbn [orb andb];
      [cbn [search_group group_at]; rewrite El |]; reflexivity.
Qed.

Lemma search_group_contains (p : str) :
  search_group p = true -> contains p lparen = true.
Proof.
  unfold contains. induction p as [| c p IH]; [discriminate |].
  cbn [search_group group_at existsb]. intro H.
  apply orb_true_iff in H. destruct H as [H | H].
  - apply andb_true_iff in H. destruct H as [H _].
    rewrite N.eqb_sym, H. reflexivity.
  - rewrite (IH H). apply orb_true_r.
Qed.

Lemma lacks_group_search (p : str) : lacks_group p = negb (search_group p).
Proof.
  unfold lacks_group. destruct (search_group p) eqn:E; [| apply orb_true_r].
  rewrite (search_group_contains p E). reflexivity.
Qed.

Lemma closes_snoc (p : str) : closes (p ++ [rparen]) = true.
Proof.
  induction p as [| c p IH]; [reflexivity |]. cbn [app closes].
  rewrite IH. apply orb_true_r.
Qed.

Lemma parens_uint_chars (d : Decimal.uint) : parens (uint_chars d) = [].
Proof. induction d; cbn; auto. Qed.

End Parens.

Section ParensOfPatterns.
Context {U : Unicode}.
Import RegexConverter RegexManagerDialog.

Lemma parens_escape_char (c : char) : parens (escape_char c) = parens [c].
Proof.
  unfold escape_char. destruct (contains regex_special_chars c); reflexivity.
Qed.

Lemma parens_join_escaped (s : str) : parens (join_escaped s) = parens s.
Proof.
  induction s as [| c s IH]; [reflexivity |].
  unfold join_escaped. cbn [map concat]. fold (join_escaped s).
  rewrite parens_app, parens_escape_char, IH.
  symmetry. apply (parens_app [c] s).
Qed.

Lemma parens_token (tok : nat -> str) (n : nat) :
  tok = space_token \/ tok = letter_token \/ tok = digit_token ->
  parens (tok n) = [].
Proof.
  intros [-> | [-> | ->]];
    unfold space_token, letter_token, digit_token, str_of_int;
    (destruct (1 <? n); [| reflexivity]);
    rewrite !parens_app, parens_uint_chars; reflexivity.
Qed.

Lemma class_not_paren (p : char -> bool) (c : char) :
  p = isspace \/ p = isalpha \/ p = isdigit ->
  p c = true -> (N.eqb c lparen || N.eqb c rparen) = false.
Proof.
  intros Hp Hc.
  assert (Hl : p lparen = false)
    by (destruct Hp as [-> | [-> | ->]];
        [rewrite isspace_latin1 | rewrite isalpha_latin1
         | rewrite isdigit_latin1]; reflexivity).
  assert (Hr : p rparen = false)
    by (destruct Hp as [-> | [-> | ->]];
        [rewrite isspace_latin1 | rewrite isalpha_latin1
         | rewrite isdigit_latin1]; reflexivity).
  destruct (N.eqb_spec c lparen) as [-> | _]; [congruence |].
  destruct (N.eqb_spec c rparen) as [-> | _]; [congruence | reflexivity].
Qed.

Lemma parens_run (p : char -> bool) (r : str) :
  p = isspace \/ p = isalpha \/ p = isdigit ->
  parens (skipn (run_length p r) r) = parens r.
Proof.
  intro Hp. induction r as [| c r IH]; [reflexivity |]. cbn [run_length].
  destruct (p c) eqn:Ec; [| reflexivity].
  cbn [skipn]. rewrite IH. unfold parens. cbn [filter].
  rewrite (class_not_paren p c Hp Ec). reflexivity.
Qed.

Lemma parens_tokens :
  forall n rest inq buf,
    length rest <= n ->
    (inq = false -> buf = []) ->
    parens (concat (tokens rest inq buf)) = parens buf ++ parens rest.
Proof.
  assert (Hflush : forall buf,
             parens (concat (flush_buffer buf)) = parens buf ++ parens []).
  { intro buf. rewrite app_nil_r. destruct buf as [| b buf]; [reflexivity |].
    unfold flush_buffer. cbn [concat]. rewrite app_nil_r.
    apply parens_join_escaped. }
  induction n as [| n IH]; intros rest inq buf Hlen Hbuf.
  - destruct rest; [| cbn in Hlen; lia]. rewrite tokens_equation_1.
    apply Hflush.
  - destruct rest as [| c r]; [rewrite tokens_equation_1; apply Hflush |].
    cbn [length] in Hlen.
    assert (Hrun : forall (p : char -> bool) (tok : nat -> str),
              p = isspace \/ p = isalpha \/ p = isdigit ->
              tok = space_token \/ tok = letter_token \/ tok = digit_token ->
              p c = true -> inq = false ->
              parens (concat (tok (S (run_length p r))
                              :: tokens (skipn (run_length p r) r) false buf))
              = parens buf ++ parens (c :: r)).
    { intros p tok Hp Htok Hc Hinq. pose proof (run_length_le p r) as Hk.
      cbn [concat]. rewrite parens_app, (parens_token tok _ Htok).
      rewrite IH by (try rewrite length_skipn; try lia; exact (fun _ => Hbuf Hinq)).
      rewrite (parens_run p r Hp). unfold parens at 4. cbn [filter].
      rewrite (class_not_paren p c Hp Hc). reflexivity. }
    rewrite tokens_equation_2.
    destruct (N.eqb c quote) eqn:Hcq.
    { apply N.eqb_eq in Hcq. subst c.
      change (parens (quote :: r)) with (parens r). destruct inq.
      - cbn [concat]. rewrite parens_app, parens_join_escaped.
        rewrite IH by (try lia; reflexivity). reflexivity.
      - apply IH; [lia | discriminate]. }
    destruct inq.
    { rewrite IH by (try lia; discriminate).
      rewrite parens_app, <- app_assoc. f_equal.
      symmetry. apply (parens_app [c] r). }
    destruct (isspace c) eqn:Hs; [apply (Hrun isspace space_token); auto |].
    destruct (isalpha c) eqn:Ha; [apply (Hrun isalpha letter_token); auto |].
    destruct (isdigit c) eqn:Hd; [apply (Hrun isdigit digit_token); auto |].
    cbn [concat]. rewrite parens_app, parens_escape_char.
    rewrite IH by (try lia; exact Hbuf).
    rewrite (Hbuf eq_refl). symmetry. apply (parens_app [c] r).
Qed.

Lemma parens_anchored (fm : bool) (p : str) :
  parens (anchored fm p) = parens p.
Proof.
  destruct fm; [| reflexivity]. cbn [anchored].
  rewrite !parens_app. cbn. apply app_nil_r.
Qed.

(** The parentheses of a pattern are those of the text it was made from. *)
Lemma parens_pattern (text : str) (g fm : bool) :
  exists pattern,
    string_to_regex text g fm = Ok pattern /\ parens pattern = parens text.
Proof.
  destruct g.
  - rewrite string_to_regex_generic. eexists. split; [reflexivity |].
    rewrite parens_anchored.
    apply (parens_tokens (length text) text false []); [apply le_n | auto].
  - rewrite string_to_regex_literal. eexists. split; [reflexivity |].
    rewrite parens_anchored. apply parens_join_escaped.
Qed.

Lemma lacks_group_wrapped (p : str) :
  lacks_group ([lparen] ++ p ++ [rparen]) = false.
Proof.
  rewrite lacks_group_search. cbn [app search_group group_at].
  rewrite N.eqb_refl, closes_snoc. reflexivity.
Qed.

End ParensOfPatterns.

(** ** [auto_rename] *)

Section AutoRenameLemmas.
Import file_operations.
Variable splitext : str -> str * str.
Variable join : str -> str -> str.
Variable exists_ : str -> bool.

Lemma auto_rename_from_first_free (folder filename : str) :
  forall fuel counter k,
    counter <= k -> k <= counter + fuel ->
    (forall c, counter <= c < k -> exists_ (new_path splitext join folder filename c) = true) ->
    exists_ (new_path splitext join folder filename k) = false ->
    auto_rename_from splitext join exists_ fuel folder filename counter = Ok (new_path splitext join folder filename k).
Proof.
  induction fuel as [| fuel IH]; intros counter k Hlo Hhi Hbusy Hfree.
  - assert (k = counter) as -> by lia. cbn. rewrite Hfree.
    reflexivity.
  - destruct (Nat.eq_dec k counter) as [-> | Hne].
    + cbn. rewrite Hfree. reflexivity.
    + cbn. rewrite (Hbusy counter) by lia. cbn [negb].
      apply IH; [lia | lia | | exact Hfree].
      intros c Hc. apply Hbusy. lia.
Qed.

Lemma auto_rename_from_sound (folder filename : str) :
  forall fuel counter p,
    auto_rename_from splitext join exists_ fuel folder filename counter = Ok p ->
    exists k,
      counter <= k <= counter + fuel /\
      p = new_path splitext join folder filename k /\
      exists_ p = false /\
      forall c, counter <= c < k -> exists_ (new_path splitext join folder filename c) = true.
Proof.
  induction fuel as [| fuel IH]; intros counter p; cbn;
    destruct (exists_ (new_path splitext join folder filename counter)) eqn:E; cbn [negb];
    try discriminate.
  - intro H. injection H as <-. exists counter.
    repeat split; [lia | lia | exact E | intros c Hc; lia].
  - intro H. apply IH in H. destruct H as (k & Hk & -> & Hfree & Hbusy).
    exists k. repeat split; [lia | lia | exact Hfree |].
    intros c Hc. destruct (Nat.eq_dec c counter) as [-> | Hne];
      [exact E | apply Hbusy; lia].
  - intro H. injection H as <-. exists counter.
    repeat split; [lia | lia | exact E | intros c Hc; lia].
Qed.

Lemma auto_rename_from_busy (folder filename : str) :
  forall fuel counter,
    (forall c, counter <= c <= counter + fuel ->
       exists_ (new_path splitext join folder filename c) = true) ->
    auto_rename_from splitext join exists_ fuel folder filename counter = OutOfFuel.
Proof.
  induction fuel as [| fuel IH]; intros counter Hbusy; cbn;
    rewrite (Hbusy counter) by lia; cbn [negb]; [reflexivity |].
  apply IH. intros c Hc. apply Hbusy. lia.
Qed.

End AutoRenameLemmas.

Section FileOperationsProperties.
Import file_operations.
Variable splitext : str -> str * str.
Variable join : str -> str -> str.
Variable exists_ : str -> bool.

(** X15. [auto_rename] returns the candidate path with the least counter,
    counted from 1, that does not exist: when the candidates with counters
    below [k] all exist and the one with counter [k] does not, the loop
    returns that one, within a budget of [k - 1] further rounds. *)
Theorem auto_rename_returns_first_free_name
    (fuel : nat) (folder filename : str) (k : nat) :
  1 <= k <= S fuel ->
  (forall c, 1 <= c < k ->
     exists_ (new_path splitext join folder filename c) = true) ->
  exists_ (new_path splitext join folder filename k) = false ->
  auto_rename splitext join exists_ fuel folder filename
  = Ok (new_path splitext join folder filename k).
Proof.
  intros Hk Hbusy Hfree. unfold auto_rename.
  apply auto_rename_from_first_free; [lia | lia | exact Hbusy | exact Hfree].
Qed.

(** X16. [auto_rename] never returns a path that exists: whatever it
    returns is a candidate path that does not exist, and every candidate
    with a smaller counter exists; as long as all the candidates tried
    exist, it does not return. *)
Theorem auto_rename_never_returns_an_existing_path
    (fuel : nat) (folder filename : str) :
  (forall p,
      auto_rename splitext join exists_ fuel folder filename = Ok p ->
      exists_ p = false /\
      exists k,
        1 <= k /\
        p = new_path splitext join folder filename k /\
        forall c, 1 <= c < k ->
          exists_ (new_path splitext join folder filename c) = true) /\
  ((forall c, 1 <= c <= S fuel ->
      exists_ (new_path splitext join folder filename c) = true) ->
   auto_rename splitext join exists_ fuel folder filename = OutOfFuel).
Proof.
  split.
  - intros p H. unfold auto_rename in H. apply auto_rename_from_sound in H.
    destruct H as (k & Hk & Hp & Hfree & Hbusy).
    split; [exact Hfree |]. exists k. repeat split; [lia | exact Hp |].
    exact Hbusy.
  - intro Hbusy. unfold auto_rename. apply auto_rename_from_busy.
    intros c Hc. apply Hbusy. lia.
Qed.

End FileOperationsProperties.

Section FileOperationsInstances.
Import file_operations.

Lemma auto_rename_returns_first_free_name_witness :
  auto_rename posixpath.splitext posixpath.join
    (listed [lit "out/inv.pdf"; lit "out/inv_1.pdf"; lit "out/inv_2.pdf"])
    5 (lit "out") (lit "inv.pdf")
  = Ok (lit "out/inv_3.pdf").
Proof.
  refine (auto_rename_returns_first_free_name posixpath.splitext
            posixpath.join
            (listed [lit "out/inv.pdf"; lit "out/inv_1.pdf";
                     lit "out/inv_2.pdf"])
            5 (lit "out") (lit "inv.pdf") 3 _ _ eq_refl).
  - split; repeat constructor.
  - intros c Hc.
    destruct c as [| [| [| c]]]; [lia | reflexivity | reflexivity | lia].
Defined.

Lemma auto_rename_never_returns_an_existing_path_witness :
  listed [lit "out/inv.pdf"; lit "out/inv_1.pdf"] (lit "out/inv_2.pdf")
  = false /\
  exists k,
    1 <= k /\
    lit "out/inv_2.pdf"
    = new_path posixpath.splitext posixpath.join (lit "out") (lit "inv.pdf") k /\
    forall c, 1 <= c < k ->
      listed [lit "out/inv.pdf"; lit "out/inv_1.pdf"]
        (new_path posixpath.splitext posixpath.join (lit "out")
           (lit "inv.pdf") c) = true.
Proof.
  exact (proj1 (auto_rename_never_returns_an_existing_path
                  posixpath.splitext posixpath.join
                  (listed [lit "out/inv.pdf"; lit "out/inv_1.pdf"])
                  5 (lit "out") (lit "inv.pdf"))
           (lit "out/inv_2.pdf") eq_refl).
Defined.

End FileOperationsInstances.

(** ** [convert_to_regex] and [save_pattern] *)

Section DialogProperties.
Context {U : Unicode}.
Import RegexConverter RegexManagerDialog.

Lemma convert_to_regex_eq (c : char) (text : str) (g fm : bool) (old : str) :
  exists p,
    string_to_regex (c :: text) g fm = Ok p /\
    convert_to_regex (c :: text) g fm old
    = Ok (if search_group (c :: text) then p
          else [lparen] ++ p ++ [rparen]).
Proof.
  destruct (parens_pattern (c :: text) g fm) as (p & E & P).
  exists p. split; [exact E |]. unfold convert_to_regex. rewrite E.
  rewrite lacks_group_search, <- (search_group_parens p), P,
    search_group_parens.
  destruct (search_group (c :: text)); reflexivity.
Qed.

(** X12. [convert_to_regex] leaves the pattern field alone when the plain
    text is empty; otherwise it sets the field to the synthesized pattern,
    wrapped in one pair of parentheses unless the plain text itself holds
    an opening parenthesis followed, anywhere later, by a closing one. *)
Theorem convert_to_regex_wraps_the_pattern :
  (forall (g fm : bool) (old : str), convert_to_regex [] g fm old = Ok old) /\
  (forall (text : str) (g fm : bool) (old : str),
      text <> [] ->
      exists p,
        string_to_regex text g fm = Ok p /\
        convert_to_regex text g fm old
        = Ok (if search_group text then p else [lparen] ++ p ++ [rparen])).
Proof.
  split; [reflexivity |]. intros [| c text] g fm old Hne; [congruence |].
  apply convert_to_regex_eq.
Qed.

(** X13. A pattern set by [convert_to_regex] passes the capture-group
    check of [save_pattern]: saving stores it as it is and never wraps it a
    second time. *)
Theorem converted_pattern_is_saved_unchanged
    (text : str) (g fm : bool) (old category : str) :
  text <> [] -> category <> [] ->
  exists q,
    convert_to_regex text g fm old = Ok q /\
    save_pattern q category = (q, Some q).
Proof.
  intros Ht Hc. destruct text as [| c text]; [congruence |].
  destruct category as [| k category]; [congruence |].
  destruct (convert_to_regex_eq c text g fm old) as (p & E & ->).
  destruct (parens_pattern (c :: text) g fm) as (p' & E' & P).
  rewrite E in E'. injection E' as <-.
  eexists. split; [reflexivity |].
  destruct (search_group (c :: text)) eqn:S.
  - assert (Sp : search_group p = true)
      by (rewrite <- search_group_parens, P, search_group_parens; exact S).
    unfold save_pattern. rewrite lacks_group_search, Sp.
    destruct p as [| x p]; [discriminate | reflexivity].
  - pose proof (lacks_group_wrapped p) as W. unfold save_pattern.
    cbn [app] in W |- *. rewrite W. reflexivity.
Qed.

(** X14. When the plain text holds an opening parenthesis followed later
    by a closing one, [convert_to_regex] sets the field to the bare
    synthesized pattern, in which these parentheses are escaped: the pattern
    compiles to a sequence of single-character atoms and holds no group,
    although it passes the capture-group check. *)
Theorem parenthesised_text_gets_no_group
    (text : str) (g fm : bool) (old : str) :
  (N.of_nat (length text) < re.MAXREPEAT)%N ->
  search_group text = true ->
  exists p r,
    convert_to_regex text g fm old = Ok p /\
    string_to_regex text g fm = Ok p /\
    lacks_group p = false /\
    re.compile p = Some r.
Proof.
  intros Hmax S. destruct text as [| c text]; [discriminate |].
  destruct (convert_to_regex_eq c text g fm old) as (p & E & C).
  rewrite S in C. exists p.
  assert (Sp : lacks_group p = false).
  { destruct (parens_pattern (c :: text) g fm) as (p' & E' & P).
    rewrite E in E'. injection E' as <-.
    rewrite lacks_group_search, <- search_group_parens, P,
      search_group_parens, S. reflexivity. }
  destruct g.
  - rewrite string_to_regex_generic in E. injection E as <-.
    destruct (generic_compiles (c :: text) fm Hmax) as (l & Hc & _).
    eexists. split; [exact C |].
    split; [apply string_to_regex_generic |]. split; [exact Sp | exact Hc].
  - rewrite string_to_regex_literal in E. injection E as <-.
    eexists. split; [exact C |].
    split; [apply string_to_regex_literal |].
    split; [exact Sp | apply literal_compiles].
Qed.

(** X18. [save_pattern] wraps at most once: on the text it leaves in the
    pattern field, a second call changes nothing and stores the same
    pattern, whatever the text was. *)
Theorem save_pattern_is_idempotent (regex_edit category : str) :
  save_pattern (fst (save_pattern regex_edit category)) category
  = save_pattern regex_edit category.
Proof.
  destruct regex_edit as [| c p]; [reflexivity |].
  unfold save_pattern at 2 3. destruct (lacks_group (c :: p)) eqn:E.
  - pose proof (lacks_group_wrapped (c :: p)) as W.
    destruct category; cbn [fst]; unfold save_pattern;
      cbn [app] in W |- *; rewrite W; reflexivity.
  - destruct category; cbn [fst]; unfold save_pattern; rewrite E;
      reflexivity.
Qed.

End DialogProperties.

Section DialogInstances.
Import RegexConverter RegexManagerDialog.

Lemma convert_to_regex_wraps_the_pattern_witness :
  exists p,
    string_to_regex (lit "No 42") true false = Ok p /\
    convert_to_regex (lit "No 42") true false (lit "old")
    = Ok ([lparen] ++ p ++ [rparen]).
Proof.
  refine (proj2 (@convert_to_regex_wraps_the_pattern latin1)
            (lit "No 42") true false (lit "old") _).
  discriminate.
Defined.

Lemma converted_pattern_is_saved_unchanged_witness :
  exists q,
    convert_to_regex (lit "No 42") true false [] = Ok q /\
    save_pattern q (lit "invoice_number") = (q, Some q).
Proof.
  refine (@converted_pattern_is_saved_unchanged latin1
            (lit "No 42") true false [] (lit "invoice_number") _ _);
    discriminate.
Defined.

Lemma parenthesised_text_gets_no_group_witness :
  exists p r,
    convert_to_regex (lit "(No 42)") true false [] = Ok p /\
    string_to_regex (lit "(No 42)") true false = Ok p /\
    lacks_group p = false /\
    re.compile p = Some r.
Proof.
  exact (@parenthesised_text_gets_no_group latin1 (lit "(No 42)") true false
           [] eq_refl eq_refl).
Defined.

End DialogInstances.

(** ** The worker never overwrites *)

Section WorkerLemmas.
Import OrganizeWorker.
Variable fs : Type.
Variable exists_ : fs -> str -> bool.
Variable copy : fs -> str -> str -> fs * bool.
Variable basename : str -> str.
Variable abspath : str -> str.
Variable join : str -> str -> str.
Variable dest_folder : str.
Variable conflict_mode : str.
Variable auto_rename_func : fs -> str -> str -> result str.

Hypothesis auto_rename_fresh :
  forall s folder filename p,
    auto_rename_func s folder filename = Ok p -> exists_ s p = false.

Hypothesis auto_rename_no_raise :
  forall s folder filename e,
    auto_rename_func s folder filename <> Raise e.

Hypothesis no_overwrite : str_eqb conflict_mode (lit "Overwrite") = false.

Lemma destination_fresh (s : fs) (filename dest : str) :
  destination fs exists_ join dest_folder conflict_mode auto_rename_func
    s filename = Ok (Some dest) ->
  exists_ s dest = false.
Proof.
  unfold destination. rewrite no_overwrite.
  destruct (exists_ s (join dest_folder filename)) eqn:E.
  - destruct (str_eqb conflict_mode (lit "Auto-Rename")); [| discriminate].
    destruct (auto_rename_func s dest_folder filename) as [p | e |] eqn:Ea;
      try discriminate.
    cbn [bind]. intro H. injection H as <-.
    exact (auto_rename_fresh _ _ _ _ Ea).
  - intro H. injection H as <-. exact E.
Qed.

Lemma destination_no_raise (s : fs) (filename : str) (e : exn) :
  destination fs exists_ join dest_folder conflict_mode auto_rename_func
    s filename <> Raise e.
Proof.
  unfold destination.
  destruct (exists_ s (join dest_folder filename)); [| discriminate].
  destruct (str_eqb conflict_mode (lit "Overwrite")); [discriminate |].
  destruct (str_eqb conflict_mode (lit "Auto-Rename")); [| discriminate].
  destruct (auto_rename_func s dest_folder filename) as [p | e' |] eqn:Ea;
    cbn [bind]; try discriminate.
  exfalso. exact (auto_rename_no_raise _ _ _ _ Ea).
Qed.

Lemma process_careful (st st' : progress fs) (source : str) :
  careful fs exists_ st ->
  process fs exists_ copy basename abspath join dest_folder conflict_mode
    auto_rename_func st source = Ok st' ->
  careful fs exists_ st'.
Proof.
  intros [Hcalls Hcount]. unfold process.
  destruct (exists_ (state fs st) source) eqn:Es; cbn [negb];
    [| intro H; injection H as <-; split; assumption].
  destruct (str_eqb (abspath source)
              (abspath (join dest_folder (basename source))));
    [intro H; injection H as <-; split; assumption |].
  destruct (destination fs exists_ join dest_folder conflict_mode
              auto_rename_func (state fs st) (basename source))
    as [[dest |] | e |] eqn:Ed; try discriminate.
  - pose proof (destination_fresh _ _ _ Ed) as Hfresh.
    destruct (copy (state fs st) source dest) as [s' returned].
    assert (Hnew : forall s src d,
               In (s, src, d) (calls fs st ++ [(state fs st, source, dest)]) ->
               exists_ s src = true /\ exists_ s d = false).
    { intros s src d Hin. apply in_app_or in Hin.
      destruct Hin as [Hin | [Hin | []]]; [exact (Hcalls _ _ _ Hin) |].
      injection Hin as <- <- <-. split; assumption. }
    destruct returned; intro H; injection H as <-; split;
      cbn [calls count errors]; try exact Hnew;
      rewrite ?length_app; cbn [length]; lia.
  - intro H. injection H as <-. split; assumption.
  - exfalso. exact (destination_no_raise _ _ _ Ed).
Qed.

Lemma run_from_careful (file_items : list str) :
  forall st st',
    careful fs exists_ st ->
    run_from fs exists_ copy basename abspath join dest_folder conflict_mode
      auto_rename_func file_items st = Ok st' ->
    careful fs exists_ st'.
Proof.
  induction file_items as [| source rest IH]; intros st st' Ht; cbn.
  - intro H. injection H as <-. exact Ht.
  - destruct (process fs exists_ copy basename abspath join dest_folder
                conflict_mode auto_rename_func st source)
      as [st1 | e |] eqn:Ep; cbn [bind]; try discriminate.
    apply IH. exact (process_careful st st1 source Ht Ep).
Qed.

End WorkerLemmas.

Section WorkerTermination.
Import OrganizeWorker.
Variable fs : Type.
Variable exists_ : fs -> str -> bool.
Variable copy : fs -> str -> str -> fs * bool.
Variable basename : str -> str.
Variable abspath : str -> str.
Variable join : str -> str -> str.
Variable dest_folder : str.
Variable conflict_mode : str.
Variable auto_rename_func : fs -> str -> str -> result str.

Hypothesis no_auto_rename :
  str_eqb conflict_mode (lit "Auto-Rename") = false.



End WorkerTermination.

Lemma auto_rename_from_no_raise (splitext : str -> str * str)
    (join : str -> str -> str) (exists_ : str -> bool)
    (folder filename : str) (e : exn) :
  forall fuel counter,
    file_operations.auto_rename_from splitext join exists_ fuel folder
      filename counter <> Raise e.
Proof.
  induction fuel as [| fuel IH]; intro counter; cbn;
    destruct (negb (exists_
                 (file_operations.new_path splitext join folder filename
                    counter))); try discriminate.
  apply IH.
Qed.

Section WorkerProperties.
Import OrganizeWorker.
Variable fs : Type.
Variable exists_ : fs -> str -> bool.
Variable copy : fs -> str -> str -> fs * bool.
Variable basename : str -> str.
Variable abspath : str -> str.
Variable join : str -> str -> str.
Variable splitext : str -> str * str.

(** X19. Unless the conflict mode is [Overwrite], the worker never copies
    onto a file that exists: with [auto_rename] as renaming function, every
    call of [shutil.copy] it makes has a source that exists and a
    destination that does not exist, in the file system as it is at the
    call, whatever the earlier calls did to the file system and whether they
    returned or raised; and every call is either counted or reported as
    an error. *)
Theorem organize_never_overwrites
    (dest_folder conflict_mode : str) (fuel : nat)
    (file_items : list str) (s0 : fs) (out : progress fs) :
  str_eqb conflict_mode (lit "Overwrite") = false ->
  run fs exists_ copy basename abspath join dest_folder conflict_mode
    (fun s => file_operations.auto_rename splitext join (exists_ s) fuel)
    file_items s0 = Ok out ->
  (forall s source dest,
      In (s, source, dest) (calls fs out) ->
      exists_ s source = true /\ exists_ s dest = false) /\
  count fs out + length (errors fs out) = length (calls fs out).
Proof.
  intros Hmode Hrun. unfold run in Hrun.
  apply (run_from_careful fs exists_ copy basename abspath join dest_folder
           conflict_mode
           (fun s => file_operations.auto_rename splitext join (exists_ s) fuel))
    in Hrun.
  - exact Hrun.
  - intros s folder filename p Hp. unfold file_operations.auto_rename in Hp.
    apply auto_rename_from_sound in Hp.
    destruct Hp as (k & _ & _ & Hfree & _). exact Hfree.
  - intros s folder filename e. apply auto_rename_from_no_raise.
  - exact Hmode.
  - split; [intros s source dest [] | reflexivity].
Qed.


End WorkerProperties.

Section WorkerInstances.
Import OrganizeWorker.

Lemma organize_never_overwrites_witness :
  exists out,
    run (list str) listed listed_copy posixpath.basename (fun p => p)
      posixpath.join (lit "out") (lit "Auto-Rename")
      (fun s =>
         file_operations.auto_rename posixpath.splitext posixpath.join
           (listed s) 5)
      [lit "in/a.pdf"; lit "in/b.pdf"; lit "in/missing.pdf"]
      [lit "in/a.pdf"; lit "in/b.pdf"; lit "out/a.pdf"]
    = Ok out /\
    map (fun c => (snd (fst c), snd c)) (calls (list str) out)
    = [(lit "in/a.pdf", lit "out/a_1.pdf"); (lit "in/b.pdf", lit "out/b.pdf")] /\
    (forall s source dest,
        In (s, source, dest) (calls (list str) out) ->
        listed s source = true /\ listed s dest = false) /\
    count (list str) out + length (errors (list str) out)
    = length (calls (list str) out).
Proof.
  eexists. split; [reflexivity |]. split; [reflexivity |].
  exact (organize_never_overwrites (list str) listed listed_copy
           posixpath.basename (fun p => p) posixpath.join posixpath.splitext
           (lit "out") (lit "Auto-Rename") 5
           [lit "in/a.pdf"; lit "in/b.pdf"; lit "in/missing.pdf"]
           [lit "in/a.pdf"; lit "in/b.pdf"; lit "out/a.pdf"] _
           eq_refl eq_refl).
Defined.


End WorkerInstances.
